(** * Zylo: the tree-walking evaluator

    A shallow embedding of [internal/evaluator/evaluator.go] (with the node
    kinds of [internal/ast/ast.go] it walks) and the properties of it that the
    specification states.

    Conventions of the embedding.
    - A Go pointer to a mutable object ([*Environment], [*List], [*Hash],
      [*ZyloClass], [*ZyloInstance]) is an address into a store kept in the
      evaluator state; allocation appends to the store, so two values alias
      exactly when they carry the same address.
    - [(Value, error)] results are a sum ([Ok], [Err] with the message of the
      Go error); a third alternative, [OutOfFuel], is the model's account of a
      Go computation that has not returned within the given number of nested
      evaluation steps.
    - [int64] is [Z] with its wrap-around written out, [float64] is the
      kernel's binary64 [float], a Go [string] is a [string] of bytes.
    - Functions of Go's standard library that the evaluator calls and that are
      not part of the repository ([%g] formatting, [strings.Split], ...) are
      the fields of the class [GoLib]; every theorem holds for all of them. *)

From Stdlib Require Import ZArith String Ascii Floats DecimalString Lia.
From stdpp Require Import base option list gmap strings.

Open Scope string_scope.
Set Warnings "-register-all".

(** ** Go's primitive types *)

Module Go.

(** Two's-complement wrap-around of [int64] arithmetic. *)
Definition wrap64 (z : Z) : Z := ((z + 2 ^ 63) mod 2 ^ 64 - 2 ^ 63)%Z.

(** The conversion [float64(n)] of an [int64] (round to nearest even). *)
Definition float64 (n : Z) : float :=
  SF2Prim (binary_normalize prec emax n 0 false).

(** [fmt.Sprintf("%d", n)] and [fmt.Sprintf("%t", b)]. *)
Definition Sprintf_d (n : Z) : string := NilZero.string_of_int (Z.to_int n).
Definition Sprintf_t (b : bool) : string := if b then "true" else "false".

(** [string(b)] for a byte [b]: the UTF-8 encoding of the code point [b]. *)
Definition string_of_byte (b : ascii) : string :=
  let n := N_of_ascii b in
  if (n <? 128)%N then String.String b ""
  else String.String (ascii_of_N (192 + n / 64))
         (String.String (ascii_of_N (128 + n mod 64)) "").

(** [s[i]] for [0 <= i < len(s)]. *)
Definition byte_at (s : string) (i : Z) : option ascii := String.get (Z.to_nat i) s.

(** The float comparisons of Go ([==], [!=], [<], [>], [<=], [>=]) are the
    IEEE 754 ones. *)
Definition feq (x y : float) : bool := PrimFloat.eqb x y.
Definition fne (x y : float) : bool := negb (PrimFloat.eqb x y).
Definition flt (x y : float) : bool := PrimFloat.ltb x y.
Definition fgt (x y : float) : bool := PrimFloat.ltb y x.
Definition fle (x y : float) : bool := PrimFloat.leb x y.
Definition fge (x y : float) : bool := PrimFloat.leb y x.

End Go.

(** ** The syntax tree (package [ast])

    Only the fields the evaluator reads are kept (no tokens).  A field of an
    interface type ([Expression], [Statement]) may hold Go's [nil]: that is
    [NilExpression] and [NilStatement] (an interface holding a typed nil
    pointer, which the type switches also test for, is not a tree of this
    model).  A pointer field that the evaluator tests against [nil] is an
    [option]; the pointer fields it dereferences without a test ([Name],
    [Body], [Consequence], ...) are always present.  A [*BlockStatement] is
    the list of its statements. *)

Module ast.

(** The [interface{}] held by a [NumberLiteral]: an [int64], a [float64] or
  anything else. *)
Inductive NumberValue :=
| Int64 (v : Z)
| Float64 (v : float)
| OtherNumber.

Inductive Expression :=
| NilExpression
| Identifier (Value : string)
| StringLiteral (Value : string)
| NumberLiteral (Value : NumberValue)
| BooleanLiteral (Value : bool)
| NullLiteral
| PrefixExpression (Operator : string) (Right : Expression)
| InfixExpression (Left : Expression) (Operator : string) (Right : Expression)
| CallExpression (Function : Expression) (Arguments : list Expression)
| IndexExpression (Left Index : Expression)
| MemberExpression (Object : Expression) (Property : option string)
| ListLiteral (Elements : list Expression)
| HashLiteral (Pairs : list (Expression * Expression))
| ThisExpression
| ImportExpression (ModuleName : option string)
| BlockExpression
| ClassInstantiation.

Inductive Statement :=
| NilStatement
| ImportStatement (ModuleName : option string)
| VarStatement (Name : string) (Value : Expression)
| ExpressionStatement (Expr : Expression)
| FuncStatement (Name : string) (Parameters : list string) (Body : list Statement)
| ReturnStatement (ReturnValue : Expression)
| BlockStatement (Statements : list Statement)
| ForInStatement (Identifier : string) (Iterable : Expression) (Body : list Statement)
| TryStatement (TryBlock : option (list Statement))
               (CatchClause : option (string * list Statement))
               (FinallyBlock : option (list Statement))
| CatchClause (Param : string) (CatchBlock : list Statement)
| ThrowStatement (Exception : Expression)
| IfStatement (Condition : Expression) (Consequence : list Statement)
              (Alternative : option (list Statement))
| BreakStatement
| ContinueStatement
| WhileStatement (Condition : Expression) (Body : list Statement)
| ClassStatement (Name : string)
                 (Attributes : list (string * Expression))
                 (Methods : list (string * list string * list Statement)).

(** A hash literal's pairs are a Go map, ranged over in an unspecified
  order; the list gives the order of one run.  The attributes of a class
  are its [VarStatement]s (name, initializer), its methods its
  [FuncStatement]s (name, parameters, body). *)

Definition Block := list Statement.

End ast.

Import ast.

(** ** Runtime values *)

Definition Addr := nat.

Record ZyloFunction := {
  fnName : string;
  fnParameters : list string;
  fnBody : Block;
  fnEnv : Addr
}.

(** A [BuiltinFunction] is a name and a native body; the bodies are the ones
    installed by [InitBuiltins] and the three closures over a list that
    [evaluateMemberExpression] builds. *)
Module builtin.
Inductive BuiltinFunction :=
| show_log | read_line | read_int | string | len | split | to_number
| zyloruntime_Split | try | getInput | add | subtract | multiply | divide
| List_Get (list : Addr) | List_Append (list : Addr) | List_Len (list : Addr).
End builtin.
Abbreviation BuiltinFunction := builtin.BuiltinFunction.

(** The dynamic type of a [Value].  The interface can also hold [nil], which
    is [None] of [option Value] where a function tests for it. *)
Inductive Value :=
| VNull
| VBoolean (Value : bool)
| VInteger (Value : Z)
| VFloat (Value : float)
| VString (Value : string)
| VList (ref : Addr)
| VHash (ref : Addr)
| VFunction (fn : ZyloFunction)
| VBuiltin (fn : BuiltinFunction)
| VClass (ref : Addr)
| VInstance (ref : Addr)
| VBoundMethod (Instance : Addr) (Method : ZyloFunction)
| VBreak
| VContinue.

(** What [%T] prints for a value. *)
Definition typeName (v : option Value) : string :=
  match v with
  | None => "<nil>"
  | Some VNull => "*evaluator.Null"
  | Some (VBoolean _) => "*evaluator.Boolean"
  | Some (VInteger _) => "*evaluator.Integer"
  | Some (VFloat _) => "*evaluator.Float"
  | Some (VString _) => "*evaluator.String"
  | Some (VList _) => "*evaluator.List"
  | Some (VHash _) => "*evaluator.Hash"
  | Some (VFunction _) => "*evaluator.ZyloFunction"
  | Some (VBuiltin _) => "*evaluator.BuiltinFunction"
  | Some (VClass _) => "*evaluator.ZyloClass"
  | Some (VInstance _) => "*evaluator.ZyloInstance"
  | Some (VBoundMethod _ _) => "*evaluator.BoundMethod"
  | Some VBreak => "*evaluator.BreakValue"
  | Some VContinue => "*evaluator.ContinueValue"
  end.

(** ** The store and the evaluator state *)

Record Environment := {
  variables : gmap string Value;
  parent : option Addr
}.

Record ZyloClass := {
  clsName : string;
  Attributes : gmap string Value;
  Methods : gmap string ZyloFunction;
  InitMethod : option ZyloFunction
}.

Record ZyloInstance := {
  Class : Addr;
  Fields : gmap string Value
}.

(** What the evaluator writes to standard output: the arguments of a
    [show.log] call (their rendering by [Inspect] is not modelled), the
    prompt, and the fixed messages of the input builtins. *)
Inductive ConsoleEvent :=
| Shown (args : list Value)
| Prompt
| Message (text : string).

(** The [Evaluator] ([env]; [reader] is [stdin], the lines still to be read,
    each ended by its newline) together with the Go heap it works on. *)
Record State := {
  env : Addr;
  envs : list Environment;
  lists : list (list Value);
  hashes : list (gmap string Value);
  classes : list ZyloClass;
  instances : list ZyloInstance;
  stdin : list string;
  stdout : list ConsoleEvent
}.

Definition set_env (a : Addr) (st : State) : State :=
  {| env := a; envs := envs st; lists := lists st; hashes := hashes st;
     classes := classes st; instances := instances st;
     stdin := stdin st; stdout := stdout st |}.

Definition set_envs (es : list Environment) (st : State) : State :=
  {| env := env st; envs := es; lists := lists st; hashes := hashes st;
     classes := classes st; instances := instances st;
     stdin := stdin st; stdout := stdout st |}.

Definition set_lists (ls : list (list Value)) (st : State) : State :=
  {| env := env st; envs := envs st; lists := ls; hashes := hashes st;
     classes := classes st; instances := instances st;
     stdin := stdin st; stdout := stdout st |}.

Definition set_hashes (hs : list (gmap string Value)) (st : State) : State :=
  {| env := env st; envs := envs st; lists := lists st; hashes := hs;
     classes := classes st; instances := instances st;
     stdin := stdin st; stdout := stdout st |}.

Definition set_classes (cs : list ZyloClass) (st : State) : State :=
  {| env := env st; envs := envs st; lists := lists st; hashes := hashes st;
     classes := cs; instances := instances st;
     stdin := stdin st; stdout := stdout st |}.

Definition set_instances (ins : list ZyloInstance) (st : State) : State :=
  {| env := env st; envs := envs st; lists := lists st; hashes := hashes st;
     classes := classes st; instances := ins;
     stdin := stdin st; stdout := stdout st |}.

Definition set_console (i : list string) (o : list ConsoleEvent) (st : State) : State :=
  {| env := env st; envs := envs st; lists := lists st; hashes := hashes st;
     classes := classes st; instances := instances st;
     stdin := i; stdout := o |}.

(** ** Results and the evaluation monad *)

Inductive Res (A : Type) :=
| Ok (a : A)
| Err (msg : string)
| OutOfFuel.
Arguments Ok {A} a.
Arguments Err {A} msg.
Arguments OutOfFuel {A}.

Definition M (A : Type) : Type := State -> Res A * State.

Definition ret {A} (a : A) : M A := fun st => (Ok a, st).
Definition fail {A} (msg : string) : M A := fun st => (Err msg, st).
Definition timeout {A} : M A := fun st => (OutOfFuel, st).
Definition lift {A} (r : Res A) : M A := fun st => (r, st).

Definition bind {A B} (m : M A) (k : A -> M B) : M B :=
  fun st =>
    match m st with
    | (Ok a, st') => k a st'
    | (Err msg, st') => (Err msg, st')
    | (OutOfFuel, st') => (OutOfFuel, st')
    end.

Notation "x <- m ;; k" := (bind m (fun x => k))
  (at level 100, m at next level, right associativity).
Notation "m ;;; k" := (bind m (fun _ => k))
  (at level 100, right associativity).

(** ** Go's standard library

    The library functions the evaluator calls and that are not modelled
    above.  [Sprintf_g] is [fmt.Sprintf("%g", f)], [Sprintf_v] is
    [fmt.Sprintf("%v", v)] on a value of a kind the [string] builtin has no
    case for, [range_string s] lists [string(char)] for the runes [char] that
    [for _, char := range s] visits; [strconv_Atoi] and [strconv_ParseFloat]
    are [None] when Go returns an error. *)

Class GoLib := {
  Sprintf_g : float -> string;
  Sprintf_v : Value -> string;
  strings_Split : string -> string -> list string;
  strings_TrimSpace : string -> string;
  strconv_Atoi : string -> option Z;
  strconv_ParseFloat : string -> option float;
  range_string : string -> list string
}.

(** ** Environments and the other heap objects *)

(** [e.env]. *)
Definition getEnv : M Addr := fun st => (Ok (env st), st).

(** The idiom
    [oldEnv := e.env; e.env = a; defer func() { e.env = oldEnv }(); body]:
    the deferred assignment runs however [body] ends. *)
Definition withEnv {A} (a : Addr) (body : M A) : M A :=
  fun st =>
    let oldEnv := env st in
    let (r, st') := body (set_env a st) in
    (r, set_env oldEnv st').

Definition NewEnvironment : M Addr :=
  fun st =>
    (Ok (length (envs st)),
     set_envs (envs st ++ [{| variables := ∅; parent := None |}]) st).

Definition NewChildEnvironment (e : Addr) : M Addr :=
  fun st =>
    (Ok (length (envs st)),
     set_envs (envs st ++ [{| variables := ∅; parent := Some e |}]) st).

(** [Environment.Get]: the chain of parents is followed for at most [depth]
    scopes; [EnvGet] gives it the number of environments of the store, which
    bounds every chain of a store built by allocation (a parent is older than
    its child). *)
Fixpoint lookupChain (depth : nat) (es : list Environment) (e : Addr)
    (name : string) : option Value :=
  match depth with
  | 0 => None
  | S d =>
      match es !! e with
      | None => None
      | Some scope =>
          match variables scope !! name with
          | Some value => Some value
          | None =>
              match parent scope with
              | Some p => lookupChain d es p name
              | None => None
              end
          end
      end
  end.

Definition EnvGet (e : Addr) (name : string) : M (option Value) :=
  fun st => (Ok (lookupChain (length (envs st)) (envs st) e name), st).

(** [Environment.Set]: always writes the map of the scope itself. *)
Definition bindVar (name : string) (value : Value) (scope : Environment) : Environment :=
  {| variables := <[name := value]> (variables scope); parent := parent scope |}.

Definition EnvSet (e : Addr) (name : string) (value : Value) : M unit :=
  fun st => (Ok tt, set_envs (alter (bindVar name value) e (envs st)) st).

(** [&List{Items: items}], [list.Items] and [list.Items = items]. *)
Definition newList (items : list Value) : M Value :=
  fun st => (Ok (VList (length (lists st))), set_lists (lists st ++ [items]) st).

Definition Items (l : Addr) : M (list Value) :=
  fun st => (Ok (default [] (lists st !! l)), st).

Definition setItems (l : Addr) (items : list Value) : M unit :=
  fun st => (Ok tt, set_lists (<[l := items]> (lists st)) st).

Definition newHash (pairs : gmap string Value) : M Value :=
  fun st => (Ok (VHash (length (hashes st))), set_hashes (hashes st ++ [pairs]) st).

Definition newClass (c : ZyloClass) : M Value :=
  fun st => (Ok (VClass (length (classes st))), set_classes (classes st ++ [c]) st).

Definition newInstance (i : ZyloInstance) : M Addr :=
  fun st => (Ok (length (instances st)), set_instances (instances st ++ [i]) st).

(** Reading through a pointer.  An address outside the store does not occur
    in a state the evaluator builds; it reads as an empty object. *)
Definition getClass (c : Addr) : M ZyloClass :=
  fun st =>
    (Ok (default {| clsName := ""; Attributes := ∅; Methods := ∅; InitMethod := None |}
           (classes st !! c)), st).

Definition getInstance (i : Addr) : M ZyloInstance :=
  fun st => (Ok (default {| Class := 0; Fields := ∅ |} (instances st !! i)), st).

(** Standard output, and [e.reader.ReadString('\n')] ([None] when it returns
    an error: no complete line is left). *)
Definition fmtPrint (ev : ConsoleEvent) : M unit :=
  fun st => (Ok tt, set_console (stdin st) (stdout st ++ [ev]) st).

Definition ReadString : M (option string) :=
  fun st =>
    match stdin st with
    | [] => (Ok None, st)
    | line :: rest => (Ok (Some line), set_console rest (stdout st) st)
    end.

(** ** Truthiness and the binary operators *)

(** [isTruthy]. *)
Definition isTruthy (value : option Value) : bool :=
  match value with
  | None => false
  | Some (VBoolean b) => b
  | Some (VInteger n) => negb (n =? 0)%Z
  | Some (VString s) => (0 <? String.length s)%nat
  | Some _ => true
  end.

Definition divisionByZero : string := "división por cero".

Definition unsupportedOperator (operator : string) (left right : Value) : Res Value :=
  Err ("operador '" ++ operator ++ "' no soportado para tipos "
       ++ typeName (Some left) ++ " y " ++ typeName (Some right)).

(** The four numeric cases that [-], [*] and the ordering operators share:
    both operands Integer, or an Integer converted to Float beside a Float. *)
Definition numericCases (operator : string)
    (onInts : Z -> Z -> Value) (onFloats : float -> float -> Value)
    (left right : Value) : Res Value :=
  match left, right with
  | VInteger l, VInteger r => Ok (onInts l r)
  | VInteger l, VFloat r => Ok (onFloats (Go.float64 l) r)
  | VFloat l, VInteger r => Ok (onFloats l (Go.float64 r))
  | VFloat l, VFloat r => Ok (onFloats l r)
  | _, _ => unsupportedOperator operator left right
  end.

Section Operators.
Context {lib : GoLib}.

(** [applyOperator]. *)
Definition applyOperator (operator : string) (left right : option Value) : Res Value :=
  match left, right with
  | Some lv, Some rv =>
      if String.eqb operator "+" then
        match lv, rv with
        | VString l, VString r => Ok (VString (l ++ r))
        | VString l, VInteger r => Ok (VString (l ++ Go.Sprintf_d r))
        | VString l, VFloat r => Ok (VString (l ++ Sprintf_g r))
        | VInteger l, VString r => Ok (VString (Go.Sprintf_d l ++ r))
        | VFloat l, VString r => Ok (VString (Sprintf_g l ++ r))
        | VInteger l, VInteger r => Ok (VInteger (Go.wrap64 (l + r)))
        | VInteger l, VFloat r => Ok (VFloat (Go.float64 l + r))
        | VFloat l, VInteger r => Ok (VFloat (l + Go.float64 r))
        | VFloat l, VFloat r => Ok (VFloat (l + r))
        | _, _ => unsupportedOperator operator lv rv
        end
      else if String.eqb operator "-" then
        numericCases operator
          (fun l r => VInteger (Go.wrap64 (l - r))) (fun l r => VFloat (l - r))
          lv rv
      else if String.eqb operator "*" then
        numericCases operator
          (fun l r => VInteger (Go.wrap64 (l * r))) (fun l r => VFloat (l * r))
          lv rv
      else if String.eqb operator "/" then
        match lv, rv with
        | VInteger l, VInteger r =>
            if (r =? 0)%Z then Err divisionByZero
            else Ok (VInteger (Go.wrap64 (Z.quot l r)))
        | VInteger l, VFloat r =>
            if Go.feq r 0 then Err divisionByZero
            else Ok (VFloat (Go.float64 l / r))
        | VFloat l, VInteger r =>
            if (r =? 0)%Z then Err divisionByZero
            else Ok (VFloat (l / Go.float64 r))
        | VFloat l, VFloat r =>
            if Go.feq r 0 then Err divisionByZero
            else Ok (VFloat (l / r))
        | _, _ => unsupportedOperator operator lv rv
        end
      else if String.eqb operator "==" then
        match lv, rv with
        | VString l, VString r => Ok (VBoolean (String.eqb l r))
        | VInteger l, VInteger r => Ok (VBoolean (l =? r)%Z)
        | VInteger l, VFloat r => Ok (VBoolean (Go.feq (Go.float64 l) r))
        | VFloat l, VInteger r => Ok (VBoolean (Go.feq l (Go.float64 r)))
        | VFloat l, VFloat r => Ok (VBoolean (Go.feq l r))
        | VBoolean l, VBoolean r => Ok (VBoolean (Bool.eqb l r))
        | _, _ => Ok (VBoolean false)
        end
      else if String.eqb operator "!=" then
        match lv, rv with
        | VString l, VString r => Ok (VBoolean (negb (String.eqb l r)))
        | VInteger l, VInteger r => Ok (VBoolean (negb (l =? r)%Z))
        | VInteger l, VFloat r => Ok (VBoolean (Go.fne (Go.float64 l) r))
        | VFloat l, VInteger r => Ok (VBoolean (Go.fne l (Go.float64 r)))
        | VFloat l, VFloat r => Ok (VBoolean (Go.fne l r))
        | VBoolean l, VBoolean r => Ok (VBoolean (negb (Bool.eqb l r)))
        | _, _ => Ok (VBoolean true)
        end
      else if String.eqb operator "<" then
        numericCases operator
          (fun l r => VBoolean (l <? r)%Z) (fun l r => VBoolean (Go.flt l r))
          lv rv
      else if String.eqb operator ">" then
        numericCases operator
          (fun l r => VBoolean (l >? r)%Z) (fun l r => VBoolean (Go.fgt l r))
          lv rv
      else if String.eqb operator "<=" then
        numericCases operator
          (fun l r => VBoolean (l <=? r)%Z) (fun l r => VBoolean (Go.fle l r))
          lv rv
      else if String.eqb operator ">=" then
        numericCases operator
          (fun l r => VBoolean (l >=? r)%Z) (fun l r => VBoolean (Go.fge l r))
          lv rv
      else if String.eqb operator "&&" then
        if negb (isTruthy (Some lv)) then Ok (VBoolean false)
        else Ok (VBoolean (isTruthy (Some rv)))
      else if String.eqb operator "||" then
        if isTruthy (Some lv) then Ok (VBoolean true)
        else Ok (VBoolean (isTruthy (Some rv)))
      else unsupportedOperator operator lv rv
  | _, _ =>
      Err ("cannot apply operator '" ++ operator ++ "' to nil values")
  end.

End Operators.

(** [indexValue]. *)
Definition indexValue (left index : Value) : M Value :=
  match left with
  | VList l =>
      match index with
      | VInteger idx =>
          items <- Items l ;;
          if ((idx <? 0) || (Z.of_nat (length items) <=? idx))%Z
          then fail "index out of bounds"
          else match items !! Z.to_nat idx with
               | Some item => ret item
               | None => fail "index out of bounds"
               end
      | _ => fail "list index must be integer"
      end
  | VString s =>
      match index with
      | VInteger idx =>
          if ((idx <? 0) || (Z.of_nat (String.length s) <=? idx))%Z
          then fail "index out of bounds"
          else match Go.byte_at s idx with
               | Some b => ret (VString (Go.string_of_byte b))
               | None => fail "index out of bounds"
               end
      | _ => fail "string index must be integer"
      end
  | _ => fail ("cannot index " ++ typeName (Some left))
  end.

(** [evaluateImportStatement]. *)
Definition evaluateImportStatement (ModuleName : option string) : M Value :=
  match ModuleName with
  | None => fail "import statement has nil module name"
  | Some moduleName =>
      e <- getEnv ;;
      found <- EnvGet e moduleName ;;
      match found with
      | Some _ => ret VNull
      | None =>
          if String.eqb moduleName "zyloruntime" then
            EnvSet e moduleName (VString "zyloruntime_module") ;;; ret VNull
          else fail ("Module '" ++ moduleName ++ "' not found")
      end
  end.

(** [evaluateBreakStatement], [evaluateContinueStatement],
    [evaluateThrowStatement] (which does not look at its statement). *)
Definition evaluateBreakStatement : M Value := ret VBreak.
Definition evaluateContinueStatement : M Value := ret VContinue.
Definition evaluateThrowStatement (Exception : Expression) : M Value := ret VNull.

(** [evaluateIdentifier] and [evaluateThisExpression]. *)
Definition evaluateIdentifier (name : string) : M Value :=
  e <- getEnv ;;
  found <- EnvGet e name ;;
  match found with
  | Some value => ret value
  | None => fail ("variable no definida: " ++ name)
  end.

Definition evaluateThisExpression : M Value :=
  e <- getEnv ;;
  found <- EnvGet e "this" ;;
  match found with
  | Some value => ret value
  | None => fail "'this' is not available in this context"
  end.

(** [evaluateFuncStatement]. *)
Definition evaluateFuncStatement (Name : string) (Parameters : list string)
    (Body : Block) : M unit :=
  e <- getEnv ;;
  EnvSet e Name
    (VFunction {| fnName := Name; fnParameters := Parameters; fnBody := Body; fnEnv := e |}).

(** The loop [for i, param := range Parameters { if i < len(args) {...} }]
    that the three kinds of call share. *)
Fixpoint bindParameters (funcEnv : Addr) (Parameters : list string)
    (args : list Value) : M unit :=
  match Parameters, args with
  | param :: params, arg :: rest =>
      EnvSet funcEnv param arg ;;; bindParameters funcEnv params rest
  | _, _ => ret tt
  end.

(** [if err != nil { handler(err.Error()) }] around a call. *)
Definition onError {A} (m : M A) (handler : string -> M A) : M A :=
  fun st =>
    match m st with
    | (Err msg, st') => handler msg st'
    | other => other
    end.

(** ** The evaluator, one nesting level at a time

    [evaluateStatement] and [evaluateExpression] call each other through
    every other function of the evaluator.  Inside this section the two
    names stand for the recursive calls; the functions are the bodies of the
    Go functions of the same names. *)

Section Steps.
Context {lib : GoLib}.
Variable evaluateStatement : Statement -> M Value.
Variable evaluateExpression : Expression -> M Value.

(** [evaluateVarStatement]. *)
Definition evaluateVarStatement (Name : string) (Value : Expression) : M unit :=
  value <- match Value with
           | NilExpression => ret VNull
           | _ => evaluateExpression Value
           end ;;
  e <- getEnv ;;
  EnvSet e Name value.

(** The loop of [evaluateBlockStatement] over the statements of the block,
    [lastValue] being the value of the statement before. *)
Fixpoint blockStatements (Statements : list Statement) (lastValue : Value) : M Value :=
  match Statements with
  | [] => ret lastValue
  | bodyStmt :: rest =>
      value <- evaluateStatement bodyStmt ;;
      match value with
      | VBreak => ret value
      | VContinue => ret value
      | _ => blockStatements rest value
      end
  end.

(** [evaluateBlockStatement]. *)
Definition evaluateBlockStatement (stmt : Block) : M Value :=
  e <- getEnv ;;
  childEnv <- NewChildEnvironment e ;;
  withEnv childEnv (blockStatements stmt VNull).

(** [evaluateIfStatement]. *)
Definition evaluateIfStatement (Condition : Expression) (Consequence : Block)
    (Alternative : option Block) : M Value :=
  condition <- evaluateExpression Condition ;;
  if isTruthy (Some condition) then evaluateBlockStatement Consequence
  else match Alternative with
       | Some alternative => evaluateBlockStatement alternative
       | None => ret VNull
       end.

(** [evaluateTryStatement]. *)
Definition evaluateTryStatement (TryBlock : option Block)
    (CatchClause : option (string * Block)) (FinallyBlock : option Block) : M Value :=
  match TryBlock with
  | None => fail "nil try block"
  | Some tryBlock => evaluateBlockStatement tryBlock
  end.

(** The inner loop of [evaluateWhileStatement] over the statements of the
    body: [true] when a Break value ends the whole loop, [false] when the
    iteration is over (the body is finished, or a Continue value cut it
    short). *)
Fixpoint whileBody (Statements : list Statement) : M bool :=
  match Statements with
  | [] => ret false
  | bodyStmt :: rest =>
      value <- evaluateStatement bodyStmt ;;
      match value with
      | VBreak => ret true
      | VContinue => ret false
      | _ => whileBody rest
      end
  end.

(** [evaluateWhileStatement]: one turn of its [for] loop, [again] being the
    turns that follow. *)
Definition evaluateWhileStatement (again : M Value) (Condition : Expression)
    (Body : Block) : M Value :=
  condition <- evaluateExpression Condition ;;
  if negb (isTruthy (Some condition)) then ret VNull
  else
    broken <- whileBody Body ;;
    if broken : bool then ret VNull else again.

(** The loop of [evaluateForInStatement] over the elements. *)
Fixpoint forInElements (Identifier : string) (Body : Block)
    (elements : list Value) : M unit :=
  match elements with
  | [] => ret tt
  | element :: rest =>
      e <- getEnv ;;
      EnvSet e Identifier element ;;;
      result <- evaluateBlockStatement Body ;;
      match result with
      | VBreak => ret tt
      | _ => forInElements Identifier Body rest
      end
  end.

(** [evaluateForInStatement]. *)
Definition evaluateForInStatement (Identifier : string) (Iterable : Expression)
    (Body : Block) : M Value :=
  iterable <- evaluateExpression Iterable ;;
  match iterable with
  | VList l =>
      items <- Items l ;;
      forInElements Identifier Body items ;;; ret VNull
  | VString s =>
      forInElements Identifier Body (map VString (range_string s)) ;;; ret VNull
  | _ => fail ("cannot iterate over " ++ typeName (Some iterable))
  end.

(** [evaluateClassStatement]: the loop over the attributes, then the loop
    over the methods, then the binding of the class name. *)
Fixpoint classAttributes (attrs : list (string * Expression))
    (attributes : gmap string Value) : M (gmap string Value) :=
  match attrs with
  | [] => ret attributes
  | (name, NilExpression) :: rest =>
      classAttributes rest (<[name := VNull]> attributes)
  | (name, init) :: rest =>
      value <- evaluateExpression init ;;
      classAttributes rest (<[name := value]> attributes)
  end.

Definition classMethod (e : Addr) (classObj : ZyloClass)
    (method : string * list string * Block) : ZyloClass :=
  let '(name, params, body) := method in
  let zyloFunc :=
    {| fnName := name; fnParameters := params; fnBody := body; fnEnv := e |} in
  {| clsName := clsName classObj;
     Attributes := Attributes classObj;
     Methods := <[name := zyloFunc]> (Methods classObj);
     InitMethod := if String.eqb name "init" then Some zyloFunc
                   else InitMethod classObj |}.

Definition evaluateClassStatement (Name : string)
    (Attrs : list (string * Expression))
    (Meths : list (string * list string * Block)) : M Value :=
  attributes <- classAttributes Attrs ∅ ;;
  e <- getEnv ;;
  classObj <- newClass
    (fold_left (classMethod e) Meths
       {| clsName := Name; Attributes := attributes; Methods := ∅;
          InitMethod := None |}) ;;
  EnvSet e Name classObj ;;;
  ret VNull.

(** [callZyloFunction] and [callBoundMethod]. *)
Definition callZyloFunction (fn : ZyloFunction) (args : list Value) : M Value :=
  funcEnv <- NewChildEnvironment (fnEnv fn) ;;
  bindParameters funcEnv (fnParameters fn) args ;;;
  withEnv funcEnv (evaluateBlockStatement (fnBody fn)).

Definition callBoundMethod (Instance : Addr) (Method : ZyloFunction)
    (args : list Value) : M Value :=
  funcEnv <- NewChildEnvironment (fnEnv Method) ;;
  EnvSet funcEnv "this" (VInstance Instance) ;;;
  bindParameters funcEnv (fnParameters Method) args ;;;
  withEnv funcEnv (evaluateBlockStatement (fnBody Method)).

(** The evaluation of a list of expressions in order (the elements of a list
    literal, the arguments of a constructor). *)
Fixpoint evaluateExpressions (exps : list Expression) : M (list Value) :=
  match exps with
  | [] => ret []
  | exp :: rest =>
      value <- evaluateExpression exp ;;
      values <- evaluateExpressions rest ;;
      ret (value :: values)
  end.

(** [instantiateClass]. *)
Definition instantiateClass (class : Addr) (args : list Expression) : M Value :=
  classObj <- getClass class ;;
  instance <- newInstance {| Class := class; Fields := Attributes classObj |} ;;
  match InitMethod classObj with
  | Some init =>
      evalArgs <- evaluateExpressions args ;;
      funcEnv <- NewChildEnvironment (fnEnv init) ;;
      EnvSet funcEnv "this" (VInstance instance) ;;;
      bindParameters funcEnv (fnParameters init) evalArgs ;;;
      withEnv funcEnv (evaluateBlockStatement (fnBody init)) ;;;
      ret (VInstance instance)
  | None => ret (VInstance instance)
  end.

(** The loop of the [read.int] builtin: it asks again until a line is an
    integer, and gives 0 when no line is left. *)
Fixpoint readInt (input : list string) (output : list ConsoleEvent)
    : Z * list string * list ConsoleEvent :=
  match input with
  | [] =>
      (0%Z, [],
       (output ++ [Prompt; Message "⚠️  No se pudo leer entrada, usando 0 por defecto"])%list)
  | line :: rest =>
      match strconv_Atoi (strings_TrimSpace line) with
      | Some n => (n, rest, (output ++ [Prompt])%list)
      | None =>
          readInt rest
            (output ++ [Prompt;
               Message "❌ Error: no es un número válido, por favor intenta de nuevo."])%list
      end
  end.

(** The body shared by [split] and [zyloruntime.Split]. *)
Definition splitBuiltin (name : string) (args : list Value) : M Value :=
  match args with
  | [str; sep] =>
      match str with
      | VString str =>
          match sep with
          | VString sep => newList (map VString (strings_Split str sep))
          | _ => fail ("second argument to " ++ name ++ "() must be string")
          end
      | _ => fail ("first argument to " ++ name ++ "() must be string")
      end
  | _ => fail (name ++ "() expects exactly 2 arguments")
  end.

(** The four arithmetic helpers. *)
Definition operatorBuiltin (name operator : string) (args : list Value) : M Value :=
  match args with
  | [a; b] => lift (applyOperator operator (Some a) (Some b))
  | _ => fail (name ++ "() expects exactly 2 arguments")
  end.

(** [f.Fn(args)] for a builtin function [f]: the native bodies of
    [InitBuiltins] and of the list methods. *)
Definition callBuiltin (f : BuiltinFunction) (args : list Value) : M Value :=
  match f with
  | builtin.show_log => fmtPrint (Shown args) ;;; ret VNull
  | builtin.read_line =>
      fmtPrint Prompt ;;;
      input <- ReadString ;;
      match input with
      | None =>
          fmtPrint (Message "⚠️  No se pudo leer entrada, usando valor vacío") ;;;
          ret (VString "")
      | Some input => ret (VString (strings_TrimSpace input))
      end
  | builtin.read_int =>
      fun st =>
        let '(n, input, output) := readInt (stdin st) (stdout st) in
        (Ok (VInteger n), set_console input output st)
  | builtin.string =>
      match args with
      | [arg] =>
          match arg with
          | VInteger n => ret (VString (Go.Sprintf_d n))
          | VFloat f => ret (VString (Sprintf_g f))
          | VString _ => ret arg
          | VBoolean b => ret (VString (Go.Sprintf_t b))
          | _ => ret (VString (Sprintf_v arg))
          end
      | _ =>
          fail ("string() espera exactamente 1 argumento, recibió "
                ++ Go.Sprintf_d (Z.of_nat (length args)))
      end
  | builtin.len =>
      match args with
      | [arg] =>
          match arg with
          | VList l => items <- Items l ;; ret (VInteger (Z.of_nat (length items)))
          | VString s => ret (VInteger (Z.of_nat (String.length s)))
          | _ => fail ("len() not supported for " ++ typeName (Some arg))
          end
      | _ => fail "len() expects exactly 1 argument"
      end
  | builtin.split => splitBuiltin "split" args
  | builtin.zyloruntime_Split => splitBuiltin "zyloruntime.Split" args
  | builtin.to_number =>
      match args with
      | [arg] =>
          match arg with
          | VString str =>
              match strconv_ParseFloat str with
              | Some val => ret (VFloat val)
              | None =>
                  match strconv_Atoi str with
                  | Some val => ret (VInteger val)
                  | None => ret VNull
                  end
              end
          | _ => fail "argument to to_number() must be string"
          end
      | _ => fail "to_number() expects exactly 1 argument"
      end
  | builtin.try =>
      match args with
      | [funcBlock; catchBlock] =>
          match funcBlock with
          | VFunction funcBlock =>
              match catchBlock with
              | VFunction catchBlock =>
                  onError (callZyloFunction funcBlock [])
                    (fun err =>
                       callZyloFunction catchBlock [VString err] ;;; ret VNull)
              | _ => fail "second argument to try() must be function"
              end
          | _ => fail "first argument to try() must be function"
          end
      | _ => fail "try() expects exactly 2 arguments"
      end
  | builtin.getInput =>
      fmtPrint Prompt ;;;
      input <- ReadString ;;
      match input with
      | None => ret (VString "")
      | Some input => ret (VString (strings_TrimSpace input))
      end
  | builtin.add => operatorBuiltin "add" "+" args
  | builtin.subtract => operatorBuiltin "subtract" "-" args
  | builtin.multiply => operatorBuiltin "multiply" "*" args
  | builtin.divide => operatorBuiltin "divide" "/" args
  | builtin.List_Get list =>
      match args with
      | [idx] =>
          match idx with
          | VInteger idx =>
              items <- Items list ;;
              if ((idx <? 0) || (Z.of_nat (length items) <=? idx))%Z
              then fail "index out of bounds"
              else match items !! Z.to_nat idx with
                   | Some item => ret item
                   | None => fail "index out of bounds"
                   end
          | _ => fail "List.Get() index must be integer"
          end
      | _ => fail "List.Get() expects exactly 1 argument"
      end
  | builtin.List_Append list =>
      match args with
      | [arg] =>
          items <- Items list ;;
          setItems list (items ++ [arg]) ;;;
          ret VNull
      | _ => fail "List.Append() expects exactly 1 argument"
      end
  | builtin.List_Len list =>
      items <- Items list ;;
      ret (VInteger (Z.of_nat (length items)))
  end.

(** [callFunction]. *)
Definition callFunction (fn : Value) (args : list Value) : M Value :=
  match fn with
  | VFunction f => callZyloFunction f args
  | VBuiltin f => callBuiltin f args
  | VBoundMethod instance method => callBoundMethod instance method args
  | _ => fail ("no se puede llamar a: " ++ typeName (Some fn))
  end.

(** [evaluateMemberExpression].  (The branch of the source that tests
    whether the evaluated object is an [*ast.Identifier] is never taken: a
    value is not a syntax node.) *)
Definition evaluateMemberExpression (Object : Expression)
    (Property : option string) : M Value :=
  match Object with
  | NilExpression => fail "nil object in member expression"
  | _ =>
      match Property with
      | None => fail "nil property in member expression"
      | Some propName =>
          builtin <- match Object with
                     | Identifier objName =>
                         e <- getEnv ;; EnvGet e (objName ++ "." ++ propName)
                     | _ => ret None
                     end ;;
          match builtin with
          | Some builtin => ret builtin
          | None =>
              obj <- evaluateExpression Object ;;
              match obj with
              | VList list =>
                  if String.eqb propName "Get" then ret (VBuiltin (builtin.List_Get list))
                  else if String.eqb propName "Append" then
                    ret (VBuiltin (builtin.List_Append list))
                  else if String.eqb propName "Len" then
                    ret (VBuiltin (builtin.List_Len list))
                  else fail ("method '" ++ propName ++ "' not found on List")
              | VInstance instance =>
                  inst <- getInstance instance ;;
                  match Fields inst !! propName with
                  | Some field => ret field
                  | None =>
                      classObj <- getClass (Class inst) ;;
                      match Methods classObj !! propName with
                      | Some method => ret (VBoundMethod instance method)
                      | None =>
                          fail ("property '" ++ propName
                                ++ "' not found on instance of " ++ clsName classObj)
                      end
                  end
              | _ =>
                  fail ("cannot access property '" ++ propName ++ "' on "
                        ++ typeName (Some obj))
              end
          end
      end
  end.

(** The loop of [evaluateCallExpression] over the arguments, [i] being the
    position of the first of [args]. *)
Fixpoint evaluateArguments (i : nat) (args : list Expression) : M (list Value) :=
  match args with
  | [] => ret []
  | NilExpression :: _ =>
      fail ("nil argument at position " ++ Go.Sprintf_d (Z.of_nat i)
            ++ " in call expression")
  | arg :: rest =>
      value <- evaluateExpression arg ;;
      values <- evaluateArguments (S i) rest ;;
      ret (value :: values)
  end.

(** [evaluateCallExpression]. *)
Definition evaluateCallExpression (Function : Expression)
    (Arguments : list Expression) : M Value :=
  match Function with
  | NilExpression => fail "nil function in call expression"
  | _ =>
      fn <- evaluateExpression Function ;;
      match fn with
      | VClass class => instantiateClass class Arguments
      | _ =>
          args <- evaluateArguments 0 Arguments ;;
          callFunction fn args
      end
  end.

(** [evaluateInfixExpression]. *)
Definition evaluateInfixExpression (Left : Expression) (Operator : string)
    (Right : Expression) : M Value :=
  match Left, Right with
  | NilExpression, _ => fail "nil left operand in infix expression"
  | _, NilExpression => fail "nil right operand in infix expression"
  | _, _ =>
      if String.eqb Operator "=" then
        match Left with
        | Identifier leftIdent =>
            right <- evaluateExpression Right ;;
            e <- getEnv ;;
            found <- EnvGet e leftIdent ;;
            match found with
            | None => fail ("variable no definida: " ++ leftIdent)
            | Some _ => EnvSet e leftIdent right ;;; ret right
            end
        | _ => fail "left side of assignment must be an identifier"
        end
      else
        left <- evaluateExpression Left ;;
        right <- evaluateExpression Right ;;
        lift (applyOperator Operator (Some left) (Some right))
  end.

(** [evaluatePrefixExpression]. *)
Definition evaluatePrefixExpression (Operator : string) (Right : Expression) : M Value :=
  match Right with
  | NilExpression => fail "nil right operand in prefix expression"
  | _ =>
      right <- evaluateExpression Right ;;
      if String.eqb Operator "!" then ret (VBoolean (negb (isTruthy (Some right))))
      else if String.eqb Operator "-" then
        match right with
        | VInteger num => ret (VInteger (Go.wrap64 (- num)))
        | _ => fail ("operador '-' no soportado para tipo " ++ typeName (Some right))
        end
      else fail ("operador prefijo no soportado: " ++ Operator)
  end.

(** The loop of the [HashLiteral] case over the pairs. *)
Fixpoint hashPairs (Pairs : list (Expression * Expression))
    (pairs : gmap string Value) : M (gmap string Value) :=
  match Pairs with
  | [] => ret pairs
  | (key, value) :: rest =>
      keyVal <- evaluateExpression key ;;
      match keyVal with
      | VString keyStr =>
          val <- evaluateExpression value ;;
          hashPairs rest (<[keyStr := val]> pairs)
      | _ => fail "hash key must be string"
      end
  end.

(** The type switch of [evaluateExpression]. *)
Definition expressionSwitch (exp : Expression) : M Value :=
  match exp with
  | NilExpression => fail "nil expression passed to evaluator"
  | Identifier name => evaluateIdentifier name
  | StringLiteral s => ret (VString s)
  | NumberLiteral (Float64 val) => ret (VFloat val)
  | NumberLiteral (Int64 val) => ret (VInteger val)
  | NumberLiteral OtherNumber => ret (VInteger 0)
  | BooleanLiteral b => ret (VBoolean b)
  | NullLiteral => ret VNull
  | CallExpression fn args => evaluateCallExpression fn args
  | MemberExpression obj prop => evaluateMemberExpression obj prop
  | ListLiteral Elements =>
      elements <- evaluateExpressions Elements ;;
      newList elements
  | HashLiteral Pairs =>
      pairs <- hashPairs Pairs ∅ ;;
      newHash pairs
  | IndexExpression Left Index =>
      left <- evaluateExpression Left ;;
      index <- evaluateExpression Index ;;
      indexValue left index
  | InfixExpression l op r => evaluateInfixExpression l op r
  | PrefixExpression op r => evaluatePrefixExpression op r
  | ThisExpression => evaluateThisExpression
  | ImportExpression name => evaluateImportStatement name
  | BlockExpression => fail "expresión no soportada: *ast.BlockExpression"
  | ClassInstantiation => fail "expresión no soportada: *ast.ClassInstantiation"
  end.

(** The type switch of [evaluateStatement]. *)
Definition statementSwitch (stmt : Statement) : M Value :=
  match stmt with
  | NilStatement => fail "nil statement"
  | VarStatement name value => evaluateVarStatement name value ;;; ret VNull
  | ExpressionStatement NilExpression => ret VNull
  | ExpressionStatement exp => evaluateExpression exp
  | FuncStatement name params body =>
      evaluateFuncStatement name params body ;;; ret VNull
  | ReturnStatement NilExpression => ret VNull
  | ReturnStatement value => evaluateExpression value
  | IfStatement cond consequence alt => evaluateIfStatement cond consequence alt
  | WhileStatement cond body =>
      evaluateWhileStatement (evaluateStatement (WhileStatement cond body)) cond body
  | ForInStatement ident iter body => evaluateForInStatement ident iter body
  | BreakStatement => evaluateBreakStatement
  | ContinueStatement => evaluateContinueStatement
  | ClassStatement name attrs meths => evaluateClassStatement name attrs meths
  | TryStatement tryBlock catch finally => evaluateTryStatement tryBlock catch finally
  | ThrowStatement exception => evaluateThrowStatement exception
  | ImportStatement name => evaluateImportStatement name
  | BlockStatement stmts => evaluateBlockStatement stmts
  | CatchClause _ _ => fail "sentencia no soportada: *ast.CatchClause"
  end.

End Steps.

(** ** Tying the knot

    [fuel] bounds the nesting of evaluation steps: a statement or expression
    is evaluated with one unit less than the construct that contains it, and
    each turn of a [while] loop with one less than the turn before.  A Go run
    that returns corresponds to every sufficiently large [fuel]. *)

Section Evaluator.
Context {lib : GoLib}.

Fixpoint evaluateStatement (fuel : nat) (stmt : Statement) : M Value :=
  match fuel with
  | 0 => timeout
  | S n => statementSwitch (evaluateStatement n) (evaluateExpression n) stmt
  end
with evaluateExpression (fuel : nat) (exp : Expression) : M Value :=
  match fuel with
  | 0 => timeout
  | S n => expressionSwitch (evaluateStatement n) (evaluateExpression n) exp
  end.

(** The loop of [EvaluateProgram] over the top-level statements. *)
Fixpoint programStatements (fuel : nat) (Statements : list Statement) : M unit :=
  match Statements with
  | [] => ret tt
  | stmt :: rest => evaluateStatement fuel stmt ;;; programStatements fuel rest
  end.

(** [EvaluateProgram]. *)
Definition EvaluateProgram (fuel : nat) (program : list Statement) : M unit :=
  programStatements fuel program ;;;
  e <- getEnv ;;
  mainFunc <- EnvGet e "main" ;;
  match mainFunc with
  | Some (VFunction fn) => callZyloFunction (evaluateStatement fuel) fn [] ;;; ret tt
  | _ => ret tt
  end.

End Evaluator.

(** [InitBuiltins]: the bindings of the root environment. *)
Definition InitBuiltins : gmap string Value :=
  <["divide" := VBuiltin builtin.divide]>
  (<["multiply" := VBuiltin builtin.multiply]>
  (<["subtract" := VBuiltin builtin.subtract]>
  (<["add" := VBuiltin builtin.add]>
  (<["null" := VNull]>
  (<["getInput" := VBuiltin builtin.getInput]>
  (<["zyloruntime" := VString "zyloruntime_namespace"]>
  (<["try" := VBuiltin builtin.try]>
  (<["zyloruntime.Split" := VBuiltin builtin.zyloruntime_Split]>
  (<["to_number" := VBuiltin builtin.to_number]>
  (<["split" := VBuiltin builtin.split]>
  (<["len" := VBuiltin builtin.len]>
  (<["string" := VBuiltin builtin.string]>
  (<["read.int" := VBuiltin builtin.read_int]>
  (<["read.line" := VBuiltin builtin.read_line]>
  (<["show.log" := VBuiltin builtin.show_log]> ∅))))))))))))))).

(** [NewEvaluator], reading the lines [input] from standard input. *)
Definition NewEvaluator (input : list string) : State :=
  {| env := 0;
     envs := [{| variables := InitBuiltins; parent := None |}];
     lists := []; hashes := []; classes := []; instances := [];
     stdin := input; stdout := [] |}.

(** ** Notions used to state the properties *)

(** [e.env.Get(name)] in a state. *)
Definition lookupVar (name : string) (st : State) : option Value :=
  lookupChain (length (envs st)) (envs st) (env st) name.

(** The state after [e.env.Set(name, value)]. *)
Definition writeVar (name : string) (value : Value) (st : State) : State :=
  set_envs (alter (bindVar name value) (env st) (envs st)) st.

(** The state in which the statements of a block start: a fresh environment,
    child of the current one, has become the current one. *)
Definition enterBlock (st : State) : State :=
  set_env (length (envs st))
    (set_envs (envs st ++ [{| variables := ∅; parent := Some (env st) |}]) st).

(** The current environment is an object of the store. *)
Definition validEnv (st : State) : Prop := env st < length (envs st).

(** The two control-flow sentinels. *)
Definition isSentinel (v : Value) : bool :=
  match v with
  | VBreak | VContinue => true
  | _ => false
  end.

(** [completes ev stmts st st']: evaluated in order from [st] by [ev], the
    statements [stmts] all return without an error and without a sentinel,
    and leave the state [st']. *)
Inductive completes (ev : Statement -> M Value) : list Statement -> State -> State -> Prop :=
| completes_nil st : completes ev [] st st
| completes_cons stmt rest st value st' st'' :
    ev stmt st = (Ok value, st') ->
    isSentinel value = false ->
    completes ev rest st' st'' ->
    completes ev (stmt :: rest) st st''.

(** A computation respects a relation between the state before and the state
    after when every run of it does, whatever its result. *)
Definition Respects (R : State -> State -> Prop) {A} (m : M A) : Prop :=
  forall st, R st (m st).2.

(** The current environment is the same before and after. *)
Definition sameEnv (st st' : State) : Prop := env st' = env st.

(** The store of environments only grows, and no environment changes its
    parent. *)
Definition envsKept (st st' : State) : Prop :=
  length (envs st) <= length (envs st') /\
  forall a scope, envs st !! a = Some scope ->
    exists scope', envs st' !! a = Some scope' /\ parent scope' = parent scope.

(** [stable m m']: whatever [m] returns, other than running out of fuel,
    [m'] returns too, with the same state. *)
Definition stable {A} (m m' : M A) : Prop :=
  forall st r st', m st = (r, st') -> r <> OutOfFuel -> m' st = (r, st').

(** [writes n stmt x v st st']: the statement [stmt] is a write of the
    variable [x], either [var x = init] or the assignment [x = rhs] to a
    variable that is defined, whose right-hand side, evaluated with fuel [n]
    from [st], has the value [v] and leaves the state [st']. *)
Inductive writes {lib : GoLib} (n : nat) : Statement -> string -> Value -> State -> State -> Prop :=
| writes_var x init st v st' :
    init <> NilExpression ->
    evaluateExpression n init st = (Ok v, st') ->
    writes n (VarStatement x init) x v st st'
| writes_assign x rhs st v st' old :
    rhs <> NilExpression ->
    evaluateExpression n rhs st = (Ok v, st') ->
    lookupVar x st' = Some old ->
    isSentinel v = false ->
    writes n (ExpressionStatement (InfixExpression (Identifier x) "=" rhs)) x v st st'.

(** The kinds of operands of the arithmetic operators. *)
Definition isString (v : Value) : bool :=
  match v with VString _ => true | _ => false end.

Definition isFloat (v : Value) : bool :=
  match v with VFloat _ => true | _ => false end.

Definition isNumeric (v : Value) : bool :=
  match v with VInteger _ | VFloat _ => true | _ => false end.

(** The numeric operand as a Float (an Integer is converted). *)
Definition toFloat (v : Value) : float :=
  match v with
  | VInteger n => Go.float64 n
  | VFloat f => f
  | _ => 0
  end.

(** A zero divisor: the Integer 0, or a Float that compares equal to 0. *)
Definition zeroDivisor (v : Value) : bool :=
  match v with
  | VInteger n => (n =? 0)%Z
  | VFloat f => Go.feq f 0
  | _ => false
  end.

(** The operands that [+] turns into text beside a String: a String is
    itself, an Integer is printed by [%d], a Float by [%g]; no other kind is. *)
Definition stringified {lib : GoLib} (v : Value) : option string :=
  match v with
  | VString s => Some s
  | VInteger n => Some (Go.Sprintf_d n)
  | VFloat f => Some (Sprintf_g f)
  | _ => None
  end.

(** ** Further notions: environments, calls, the store *)
(** Every environment of the store is younger than its parent: the chains
    of parents that [Environment.Get] follows are finite. *)
Definition olderParents (es : list Environment) : Prop :=
  forall (a : Addr) scope p, es !! a = Some scope -> parent scope = Some p -> p < a.

(** The state in which the statements of the body of a function start when
    it is called: the environment of the call, a new child of the
    environment the function was defined in, holds the parameters; the
    block of the body has then opened a child of it. *)
Definition callEntry (fn : ZyloFunction) (args : list Value) (st : State) : State :=
  let funcEnv := length (envs st) in
  enterBlock
    (set_env funcEnv
       (bindParameters funcEnv (fnParameters fn) args
          (NewChildEnvironment (fnEnv fn) st).2).2).

(** What an evaluation leaves of the objects of the store.  Every
    environment is still there, with the parent it had and with every name
    it had bound; every list is still there, with the elements it had, in
    their places, possibly followed by more; every hash, class and instance
    is still there and is as it was. *)
Definition storeKept (st st' : State) : Prop :=
  (forall (a : Addr) scope, envs st !! a = Some scope ->
     exists scope', envs st' !! a = Some scope' /\ parent scope' = parent scope /\
       forall x, is_Some (variables scope !! x) -> is_Some (variables scope' !! x)) /\
  (forall (l : Addr) items, lists st !! l = Some items ->
     exists more, lists st' !! l = Some (items ++ more)%list) /\
  (forall (h : Addr) pairs, hashes st !! h = Some pairs -> hashes st' !! h = Some pairs) /\
  (forall (c : Addr) cls, classes st !! c = Some cls -> classes st' !! c = Some cls) /\
  (forall (i : Addr) inst, instances st !! i = Some inst -> instances st' !! i = Some inst).

(** What it leaves of the console: the output is the one there was,
    possibly followed by more, and the input is what is left of the one
    there was. *)
Definition consoleKept (st st' : State) : Prop :=
  (exists more, stdout st' = (stdout st ++ more)%list) /\
  (exists read, stdin st = (read ++ stdin st')%list).

Definition allKept (st st' : State) : Prop := storeKept st st' /\ consoleKept st st'.

(** A value refers to objects of the store only: the list of a List value
    or of a list method, the hash, the class, the instance it points to, and
    the environment a function was defined in, are there. *)
Definition validValue (st : State) (v : Value) : Prop :=
  match v with
  | VList l => l < length (lists st)
  | VHash h => h < length (hashes st)
  | VFunction fn => fnEnv fn < length (envs st)
  | VBuiltin (builtin.List_Get l) => l < length (lists st)
  | VBuiltin (builtin.List_Append l) => l < length (lists st)
  | VBuiltin (builtin.List_Len l) => l < length (lists st)
  | VClass c => c < length (classes st)
  | VInstance i => i < length (instances st)
  | VBoundMethod i m => i < length (instances st) /\ fnEnv m < length (envs st)
  | _ => True
  end.

Definition validValues (st : State) (vs : list Value) : Prop :=
  Forall (validValue st) vs.

Definition validMap (st : State) (m : gmap string Value) : Prop :=
  forall x v, m !! x = Some v -> validValue st v.

(** A class object: its attribute values are valid, its methods were
    defined in environments of the store, and its constructor is its method
    named [init]. *)
Definition validClass (st : State) (cls : ZyloClass) : Prop :=
  validMap st (Attributes cls) /\
  (forall x f, Methods cls !! x = Some f -> fnEnv f < length (envs st)) /\
  InitMethod cls = Methods cls !! "init".

Definition validInstance (st : State) (inst : ZyloInstance) : Prop :=
  validMap st (Fields inst).

(** The well-formed states: the current environment is in the store, every
    environment is younger than its parent, every value held by an
    environment, a list, a hash or a class is valid, and every instance
    belongs to a class of the store, whose attributes are its fields. *)
Definition wellFormed (st : State) : Prop :=
  env st < length (envs st) /\
  olderParents (envs st) /\
  (forall (a : Addr) scope, envs st !! a = Some scope -> validMap st (variables scope)) /\
  (forall (l : Addr) items, lists st !! l = Some items -> validValues st items) /\
  (forall (h : Addr) pairs, hashes st !! h = Some pairs -> validMap st pairs) /\
  (forall (c : Addr) cls, classes st !! c = Some cls -> validClass st cls) /\
  (forall (i : Addr) inst, instances st !! i = Some inst ->
     exists cls, classes st !! Class inst = Some cls /\ Fields inst = Attributes cls).

(** No store has become shorter. *)
Definition sizesGrow (st st' : State) : Prop :=
  length (envs st) <= length (envs st') /\
  length (lists st) <= length (lists st') /\
  length (hashes st) <= length (hashes st') /\
  length (classes st) <= length (classes st') /\
  length (instances st) <= length (instances st').

(** [sound Q m st]: run from [st], the computation [m] leaves a well-formed
    state in which no store is shorter, and what it returns satisfies
    [Q]. *)
Definition sound {A} (Q : State -> A -> Prop) (m : M A) (st : State) : Prop :=
  wellFormed (m st).2 /\ sizesGrow st (m st).2 /\
  forall a, (m st).1 = Ok a -> Q (m st).2 a.

Definition noCondition {A} (st : State) (a : A) : Prop := True.

Definition validEnvAddr (st : State) (a : Addr) : Prop := a < length (envs st).

Definition validOption (st : State) (o : option Value) : Prop :=
  forall v, o = Some v -> validValue st v.

(** The values that hold no reference: what an operator returns. *)
Definition plainValue (v : Value) : Prop :=
  match v with
  | VInteger _ | VFloat _ | VString _ | VBoolean _ => True
  | _ => False
  end.

(** What an evaluation may write of the environments there are: the current
    one.  The current environment is the same afterwards, no environment is
    lost, and every other environment that was there is as it was. *)
Definition onlyCurrent (st st' : State) : Prop :=
  env st' = env st /\
  length (envs st) <= length (envs st') /\
  forall a : Addr, a < length (envs st) -> a <> env st -> envs st' !! a = envs st !! a.

(** ** Example programs

    The closed examples below are run with [plainLib], an instance of [GoLib]
    that answers every library call with an empty result.  None of them
    reaches a library call, and each is an instance of a theorem that holds
    for every [GoLib]. *)

Definition plainLib : GoLib := {|
  Sprintf_g := fun _ => "";
  Sprintf_v := fun _ => "";
  strings_Split := fun _ _ => [];
  strings_TrimSpace := fun s => s;
  strconv_Atoi := fun _ => None;
  strconv_ParseFloat := fun _ => None;
  range_string := fun _ => []
|}.

Definition int (n : Z) : Expression := NumberLiteral (Int64 n).

(** [var x = 0; if (true) { var x = 1 }]. *)
Definition ifWrites : list Statement :=
  [VarStatement "x" (int 0);
   IfStatement (BooleanLiteral true) [VarStatement "x" (int 1)] None].

(** [var x = 0; for e in [1, 2] { var x = e }]. *)
Definition forInWrites : list Statement :=
  [VarStatement "x" (int 0);
   ForInStatement "e" (ListLiteral [int 1; int 2]) [VarStatement "x" (Identifier "e")]].

(** [var i = 0; while (i < 3) { i = i + 1 }]. *)
Definition whileWrites : list Statement :=
  [VarStatement "i" (int 0);
   WhileStatement (InfixExpression (Identifier "i") "<" (int 3))
     [ExpressionStatement
        (InfixExpression (Identifier "i") "=" (InfixExpression (Identifier "i") "+" (int 1)))]].

(** [var x = 0; var i = 0; while (i < 2) { x = x + 10; i = i + 1 }]. *)
Definition midWrite : list Statement :=
  [VarStatement "x" (int 0);
   VarStatement "i" (int 0);
   WhileStatement (InfixExpression (Identifier "i") "<" (int 2))
     [ExpressionStatement
        (InfixExpression (Identifier "x") "=" (InfixExpression (Identifier "x") "+" (int 10)));
      ExpressionStatement
        (InfixExpression (Identifier "i") "=" (InfixExpression (Identifier "i") "+" (int 1)))]].

(** [var x = 0; var i = 0; while (i < 1) { if (true) { x = 5 } i = i + 1 }]. *)
Definition nestedWrite : list Statement :=
  [VarStatement "x" (int 0);
   VarStatement "i" (int 0);
   WhileStatement (InfixExpression (Identifier "i") "<" (int 1))
     [IfStatement (BooleanLiteral true)
        [ExpressionStatement (InfixExpression (Identifier "x") "=" (int 5))] None;
      ExpressionStatement
        (InfixExpression (Identifier "i") "=" (InfixExpression (Identifier "i") "+" (int 1)))]].


(** [try { nope } catch (e) { var caught = 1 } finally { var done = 1 }]. *)
Definition tryUndefined : Statement :=
  TryStatement (Some [ExpressionStatement (Identifier "nope")])
    (Some ("e", [VarStatement "caught" (int 1)]))
    (Some [VarStatement "done" (int 1)]).

(** [class C { var items = [] }  var a = C(); var b = C();
     a.items.Append(1); var n = b.items.Len()]. *)
Definition sharedDefault : list Statement :=
  [ClassStatement "C" [("items", ListLiteral [])] [];
   VarStatement "a" (CallExpression (Identifier "C") []);
   VarStatement "b" (CallExpression (Identifier "C") []);
   ExpressionStatement
     (CallExpression
        (MemberExpression (MemberExpression (Identifier "a") (Some "items")) (Some "Append"))
        [int 1]);
   VarStatement "n"
     (CallExpression
        (MemberExpression (MemberExpression (Identifier "b") (Some "items")) (Some "Len"))
        [])].

(** A root environment without the builtin bindings, as [NewEnvironment]
    makes it. *)
Definition bareEvaluator : State :=
  {| env := 0;
     envs := [{| variables := ∅; parent := None |}];
     lists := []; hashes := []; classes := []; instances := [];
     stdin := []; stdout := [] |}.

(** [instance.Fields[name]] for a value that is an instance. *)
Definition fieldOf (st : State) (instance : option Value) (name : string) : option Value :=
  match instance with
  | Some (VInstance i) =>
      match instances st !! i with
      | Some inst => Fields inst !! name
      | None => None
      end
  | _ => None
  end.

(** * Properties *)

(** ** Truthiness *)

(** On the kinds other than Null, [isTruthy] is as the specification says: a
    Boolean is its own value, an Integer is false exactly when it is zero, a
    String exactly when it is empty, every further kind is true; the [nil]
    interface value is false. *)
Lemma isTruthy_kinds (v : Value) :
  isTruthy None = false /\
  (forall b, v = VBoolean b -> isTruthy (Some v) = b) /\
  (forall n, v = VInteger n -> (isTruthy (Some v) = false <-> n = 0%Z)) /\
  (forall s, v = VString s -> (isTruthy (Some v) = false <-> s = "")) /\
  ((forall b, v <> VBoolean b) -> (forall n, v <> VInteger n) ->
   (forall s, v <> VString s) -> isTruthy (Some v) = true).
Proof.
  split; [reflexivity |].
  split; [intros b ->; reflexivity |].
  split.
  { intros n ->; simpl. destruct (Z.eqb_spec n 0) as [E | E]; simpl; split; intros E';
      first [exact E | reflexivity | discriminate | contradiction]. }
  split.
  { intros s ->; simpl. destruct s; simpl; split; intros E;
      first [reflexivity | discriminate]. }
  intros Hb Hn Hs. destruct v; try reflexivity.
  - exfalso; eapply Hb; reflexivity.
  - exfalso; eapply Hn; reflexivity.
  - exfalso; eapply Hs; reflexivity.
Qed.

(** C1 (the code at the failing input): the truthiness test answers true for
    the Null value; only Go's [nil], which is not a runtime value of the
    language, is tested for and answered false.  So [!null] is false, and
    [if (null) { ... }] evaluates its consequence. *)
Theorem isTruthy_Null {lib : GoLib} :
  isTruthy (Some VNull) = true /\
  isTruthy None = false /\
  (forall k st,
     evaluateExpression (2 + k) (PrefixExpression "!" NullLiteral) st
     = (Ok (VBoolean false), st)) /\
  (forall k consequence alt st,
     evaluateStatement (2 + k) (IfStatement NullLiteral consequence alt) st
     = evaluateBlockStatement (evaluateStatement (1 + k)) consequence st).
Proof. repeat split; reflexivity. Qed.

(** ** The binary operators *)

Section OperatorProperties.
Context {lib : GoLib}.

(** C6 (amended): [+] on two Integers is the Integer sum; on two numeric
    operands of which one is a Float it is the Float sum; beside a String, a
    String, Integer or Float operand is turned into text and concatenated in
    operand order; a String beside an operand of any other kind is the
    unsupported-operator error. *)
Theorem plus_numeric_or_text (l r : Value) :
  (forall a b, l = VInteger a -> r = VInteger b ->
     applyOperator "+" (Some l) (Some r) = Ok (VInteger (Go.wrap64 (a + b)))) /\
  (isNumeric l = true -> isNumeric r = true -> isFloat l || isFloat r = true ->
     applyOperator "+" (Some l) (Some r) = Ok (VFloat (toFloat l + toFloat r))) /\
  (isString l || isString r = true ->
     forall sl sr, stringified l = Some sl -> stringified r = Some sr ->
       applyOperator "+" (Some l) (Some r) = Ok (VString (sl ++ sr))) /\
  (isString l || isString r = true ->
     stringified l = None \/ stringified r = None ->
     applyOperator "+" (Some l) (Some r) = unsupportedOperator "+" l r).
Proof.
  repeat split.
  - intros a b -> ->. reflexivity.
  - destruct l, r; simpl; intros; try discriminate; reflexivity.
  - destruct l, r; simpl; intros Hs sl sr Hl Hr; try discriminate;
      injection Hl as <-; injection Hr as <-; reflexivity.
  - destruct l, r; simpl; intros Hs [Hn | Hn]; try discriminate; reflexivity.
Qed.

(** An infix expression other than an assignment applies its operator to the
    values of its operands, the left one evaluated first. *)
Lemma evaluateInfixExpression_operator evE Left op Right st l st1 r st2 :
  Left <> NilExpression -> Right <> NilExpression ->
  String.eqb op "=" = false ->
  evE Left st = (Ok l, st1) -> evE Right st1 = (Ok r, st2) ->
  evaluateInfixExpression evE Left op Right st
  = (applyOperator op (Some l) (Some r), st2).
Proof.
  intros HL HR Hop El Er. unfold evaluateInfixExpression.
  destruct Left; try congruence; destruct Right; try congruence;
    cbv beta iota; rewrite Hop; unfold bind, lift; rewrite El, Er; reflexivity.
Qed.

(** C7: [/] with a numeric dividend and a zero divisor, Integer or Float, is
    the division-by-zero error, both as an operator application and as the
    value of an infix expression whose operands evaluate to such values. *)
Theorem division_by_zero (l r : Value) :
  isNumeric l = true -> zeroDivisor r = true ->
  applyOperator "/" (Some l) (Some r) = Err divisionByZero /\
  forall evE Left Right st st1 st2,
    Left <> NilExpression -> Right <> NilExpression ->
    evE Left st = (Ok l, st1) -> evE Right st1 = (Ok r, st2) ->
    evaluateInfixExpression evE Left "/" Right st = (Err divisionByZero, st2).
Proof.
  intros Hl Hr.
  assert (Hop : applyOperator "/" (Some l) (Some r) = Err divisionByZero).
  { destruct l, r; simpl in *; try discriminate; rewrite Hr; reflexivity. }
  split; [exact Hop |].
  intros evE Left Right st st1 st2 HL HR El Er.
  rewrite (evaluateInfixExpression_operator evE Left "/" Right st l st1 r st2)
    by (assumption || reflexivity).
  rewrite Hop. reflexivity.
Qed.

(** C10: [==] on two Null values is false and [!=] is true, as operator
    applications and as the expressions [null == null] and [null != null];
    more generally Null compares equal to no value at all, on either side. *)
Theorem null_never_equal :
  applyOperator "==" (Some VNull) (Some VNull) = Ok (VBoolean false) /\
  applyOperator "!=" (Some VNull) (Some VNull) = Ok (VBoolean true) /\
  (forall k st,
     evaluateExpression (2 + k) (InfixExpression NullLiteral "==" NullLiteral) st
     = (Ok (VBoolean false), st) /\
     evaluateExpression (2 + k) (InfixExpression NullLiteral "!=" NullLiteral) st
     = (Ok (VBoolean true), st)) /\
  forall v,
    applyOperator "==" (Some VNull) (Some v) = Ok (VBoolean false) /\
    applyOperator "==" (Some v) (Some VNull) = Ok (VBoolean false) /\
    applyOperator "!=" (Some VNull) (Some v) = Ok (VBoolean true) /\
    applyOperator "!=" (Some v) (Some VNull) = Ok (VBoolean true).
Proof.
  repeat split; try reflexivity; destruct v; reflexivity.
Qed.

End OperatorProperties.

(** C6 (as stated, refuted): a String plus a Boolean is not a concatenation
    but an error. *)
Lemma plus_string_boolean_fails :
  applyOperator (lib := plainLib) "+" (Some (VString "a")) (Some (VBoolean true))
  = Err "operador '+' no soportado para tipos *evaluator.String y *evaluator.Boolean".
Proof. reflexivity. Qed.

(** ["a" + 1] is the String ["a1"]. *)
Lemma plus_text_witness :
  applyOperator (lib := plainLib) "+" (Some (VString "a")) (Some (VInteger 1))
  = Ok (VString "a1").
Proof.
  exact (proj1 (proj2 (proj2 (plus_numeric_or_text (VString "a") (VInteger 1))))
           eq_refl "a" "1" eq_refl eq_refl).
Defined.

(** [5.0 / 0.0] and [5 / 0], as operator applications and as expressions. *)
Lemma division_by_zero_witness :
  applyOperator (lib := plainLib) "/" (Some (VFloat 5)) (Some (VFloat 0)) = Err divisionByZero /\
  applyOperator (lib := plainLib) "/" (Some (VInteger 5)) (Some (VInteger 0)) = Err divisionByZero /\
  evaluateExpression (lib := plainLib) 2
    (InfixExpression (NumberLiteral (Float64 5)) "/" (NumberLiteral (Float64 0)))
    (NewEvaluator [])
  = (Err divisionByZero, NewEvaluator []) /\
  evaluateExpression (lib := plainLib) 2 (InfixExpression (int 5) "/" (int 0)) (NewEvaluator [])
  = (Err divisionByZero, NewEvaluator []).
Proof.
  split; [| split; [| split]].
  - exact (proj1 (division_by_zero (VFloat 5) (VFloat 0) eq_refl eq_refl)).
  - exact (proj1 (division_by_zero (VInteger 5) (VInteger 0) eq_refl eq_refl)).
  - apply (proj2 (division_by_zero (lib := plainLib) (VFloat 5) (VFloat 0) eq_refl eq_refl)
             (evaluateExpression (lib := plainLib) 1) (NumberLiteral (Float64 5)) (NumberLiteral (Float64 0))
             (NewEvaluator []) (NewEvaluator []) (NewEvaluator []));
      (discriminate || reflexivity).
  - apply (proj2 (division_by_zero (lib := plainLib) (VInteger 5) (VInteger 0) eq_refl eq_refl)
             (evaluateExpression (lib := plainLib) 1) (int 5) (int 0)
             (NewEvaluator []) (NewEvaluator []) (NewEvaluator []));
      (discriminate || reflexivity).
Defined.

(** ** What every evaluation respects

    A relation between states that is reflexive and transitive, that every
    primitive step of the evaluator respects, and that survives the
    switch-and-restore of the current environment, is respected by the
    evaluation of every statement and expression, whatever its result. *)

Section Frame.
Context {lib : GoLib}.
Variable R : State -> State -> Prop.
Hypothesis R_refl : forall st, R st st.
Hypothesis R_trans : forall st1 st2 st3, R st1 st2 -> R st2 st3 -> R st1 st3.
Hypothesis R_withEnv : forall A a (m : M A), Respects R m -> Respects R (withEnv a m).
Hypothesis R_EnvSet : forall e name value, Respects R (EnvSet e name value).
Hypothesis R_NewChildEnvironment : forall e, Respects R (NewChildEnvironment e).
Hypothesis R_set_lists : forall ls st, R st (set_lists ls st).
Hypothesis R_set_hashes : forall hs st, R st (set_hashes hs st).
Hypothesis R_set_classes : forall cs st, R st (set_classes cs st).
Hypothesis R_set_instances : forall ins st, R st (set_instances ins st).
Hypothesis R_set_console : forall i o st, R st (set_console i o st).

Lemma respects_ret A (a : A) : Respects R (ret a).
Proof. intros st. apply R_refl. Qed.

Lemma respects_fail A msg : Respects R (@fail A msg).
Proof. intros st. apply R_refl. Qed.

Lemma respects_timeout A : Respects R (@timeout A).
Proof. intros st. apply R_refl. Qed.

Lemma respects_lift A (r : Res A) : Respects R (lift r).
Proof. intros st. apply R_refl. Qed.

Lemma respects_bind A B (m : M A) (k : A -> M B) :
  Respects R m -> (forall a, Respects R (k a)) -> Respects R (bind m k).
Proof.
  intros Hm Hk st. unfold bind. specialize (Hm st).
  destruct (m st) as [[a | msg |] st']; simpl in *; try exact Hm.
  eapply R_trans; [exact Hm | apply Hk].
Qed.

Lemma respects_onError A (m : M A) (handler : string -> M A) :
  Respects R m -> (forall msg, Respects R (handler msg)) -> Respects R (onError m handler).
Proof.
  intros Hm Hh st. unfold onError. specialize (Hm st).
  destruct (m st) as [[a | msg |] st']; simpl in *; try exact Hm.
  eapply R_trans; [exact Hm | apply Hh].
Qed.

Lemma respects_getEnv : Respects R getEnv.
Proof. intros st. apply R_refl. Qed.

Lemma respects_EnvGet e name : Respects R (EnvGet e name).
Proof. intros st. apply R_refl. Qed.

Lemma respects_Items l : Respects R (Items l).
Proof. intros st. apply R_refl. Qed.

Lemma respects_getClass c : Respects R (getClass c).
Proof. intros st. apply R_refl. Qed.

Lemma respects_getInstance i : Respects R (getInstance i).
Proof. intros st. apply R_refl. Qed.

Lemma respects_setItems l items : Respects R (setItems l items).
Proof. intros st. apply R_set_lists. Qed.

Lemma respects_newList items : Respects R (newList items).
Proof. intros st. apply R_set_lists. Qed.

Lemma respects_newHash pairs : Respects R (newHash pairs).
Proof. intros st. apply R_set_hashes. Qed.

Lemma respects_newClass c : Respects R (newClass c).
Proof. intros st. apply R_set_classes. Qed.

Lemma respects_newInstance i : Respects R (newInstance i).
Proof. intros st. apply R_set_instances. Qed.

Lemma respects_Print ev : Respects R (fmtPrint ev).
Proof. intros st. apply R_set_console. Qed.

Lemma respects_ReadString : Respects R ReadString.
Proof.
  intros st. unfold ReadString. destruct (stdin st); simpl;
    [apply R_refl | apply R_set_console].
Qed.

Create HintDb respects.
#[local] Hint Resolve respects_ret respects_fail respects_timeout respects_lift
  respects_getEnv respects_EnvGet respects_Items respects_getClass
  respects_getInstance respects_setItems respects_newList respects_newHash
  respects_newClass respects_newInstance respects_Print respects_ReadString
  R_withEnv R_EnvSet R_NewChildEnvironment : respects.

Ltac respects :=
  repeat lazymatch goal with
  | |- Respects _ (bind _ _) => apply respects_bind; [| intros ?]
  | |- Respects _ (onError _ _) => apply respects_onError; [| intros ?]
  | |- Respects _ (match ?x with _ => _ end) => destruct x
  | |- _ => solve [eauto with respects]
  end.

Lemma respects_indexValue left index : Respects R (indexValue left index).
Proof. unfold indexValue. respects. Qed.

Lemma respects_evaluateImportStatement name : Respects R (evaluateImportStatement name).
Proof. unfold evaluateImportStatement. respects. Qed.

Lemma respects_evaluateIdentifier name : Respects R (evaluateIdentifier name).
Proof. unfold evaluateIdentifier. respects. Qed.

Lemma respects_evaluateThisExpression : Respects R evaluateThisExpression.
Proof. unfold evaluateThisExpression. respects. Qed.

Lemma respects_evaluateFuncStatement name params body :
  Respects R (evaluateFuncStatement name params body).
Proof. unfold evaluateFuncStatement. respects. Qed.

Lemma respects_bindParameters funcEnv params args :
  Respects R (bindParameters funcEnv params args).
Proof.
  revert args. induction params as [| p params IH]; intros [| a args]; simpl; respects.
Qed.

#[local] Hint Resolve respects_indexValue respects_evaluateImportStatement
  respects_evaluateIdentifier respects_evaluateThisExpression
  respects_evaluateFuncStatement respects_bindParameters : respects.

Section FrameSteps.
Variable evS : Statement -> M Value.
Variable evE : Expression -> M Value.
Hypothesis evS_respects : forall stmt, Respects R (evS stmt).
Hypothesis evE_respects : forall exp, Respects R (evE exp).

Lemma respects_evaluateVarStatement name value :
  Respects R (evaluateVarStatement evE name value).
Proof. unfold evaluateVarStatement. respects. Qed.

Lemma respects_blockStatements stmts last :
  Respects R (blockStatements evS stmts last).
Proof. revert last. induction stmts as [| s stmts IH]; intros last; simpl; respects. Qed.

Lemma respects_evaluateBlockStatement stmts :
  Respects R (evaluateBlockStatement evS stmts).
Proof.
  unfold evaluateBlockStatement. pose proof respects_blockStatements. respects.
Qed.

#[local] Hint Resolve respects_evaluateVarStatement respects_evaluateBlockStatement
  : respects.

Lemma respects_evaluateIfStatement cond consequence alt :
  Respects R (evaluateIfStatement evS evE cond consequence alt).
Proof. unfold evaluateIfStatement. respects. Qed.

Lemma respects_evaluateTryStatement tryBlock catch finally :
  Respects R (evaluateTryStatement evS tryBlock catch finally).
Proof. unfold evaluateTryStatement. respects. Qed.

Lemma respects_whileBody stmts : Respects R (whileBody evS stmts).
Proof. induction stmts as [| s stmts IH]; simpl; respects. Qed.

Lemma respects_evaluateWhileStatement again cond body :
  Respects R again -> Respects R (evaluateWhileStatement evS evE again cond body).
Proof.
  intros Hagain. unfold evaluateWhileStatement. pose proof respects_whileBody. respects.
Qed.

Lemma respects_forInElements ident body elements :
  Respects R (forInElements evS ident body elements).
Proof. induction elements as [| x elements IH]; simpl; respects. Qed.

Lemma respects_evaluateForInStatement ident iter body :
  Respects R (evaluateForInStatement evS evE ident iter body).
Proof.
  unfold evaluateForInStatement. pose proof respects_forInElements. respects.
Qed.

Lemma respects_classAttributes attrs attributes :
  Respects R (classAttributes evE attrs attributes).
Proof.
  revert attributes. induction attrs as [| [name init] attrs IH]; intros attributes;
    simpl; respects.
Qed.

Lemma respects_evaluateClassStatement name attrs meths :
  Respects R (evaluateClassStatement evE name attrs meths).
Proof.
  unfold evaluateClassStatement. pose proof respects_classAttributes. respects.
Qed.

Lemma respects_callZyloFunction fn args : Respects R (callZyloFunction evS fn args).
Proof. unfold callZyloFunction. respects. Qed.

Lemma respects_callBoundMethod instance method args :
  Respects R (callBoundMethod evS instance method args).
Proof. unfold callBoundMethod. respects. Qed.

Lemma respects_evaluateExpressions exps : Respects R (evaluateExpressions evE exps).
Proof. induction exps as [| e exps IH]; simpl; respects. Qed.

#[local] Hint Resolve respects_callZyloFunction respects_callBoundMethod
  respects_evaluateExpressions : respects.

Lemma respects_instantiateClass class args :
  Respects R (instantiateClass evS evE class args).
Proof. unfold instantiateClass. respects. Qed.

Lemma respects_callBuiltin f args : Respects R (callBuiltin evS f args).
Proof.
  destruct f; simpl; unfold splitBuiltin, operatorBuiltin; respects.
  intros st. destruct (readInt (stdin st) (stdout st)) as [[n input] output].
  apply R_set_console.
Qed.

#[local] Hint Resolve respects_instantiateClass respects_callBuiltin : respects.

Lemma respects_callFunction fn args : Respects R (callFunction evS fn args).
Proof. unfold callFunction. respects. Qed.

Lemma respects_evaluateMemberExpression object property :
  Respects R (evaluateMemberExpression evE object property).
Proof. unfold evaluateMemberExpression. respects. Qed.

Lemma respects_evaluateArguments i args : Respects R (evaluateArguments evE i args).
Proof. revert i. induction args as [| a args IH]; intros i; simpl; respects. Qed.

#[local] Hint Resolve respects_callFunction respects_evaluateArguments : respects.

Lemma respects_evaluateCallExpression fn args :
  Respects R (evaluateCallExpression evS evE fn args).
Proof. unfold evaluateCallExpression. respects. Qed.

Lemma respects_evaluateInfixExpression l op r :
  Respects R (evaluateInfixExpression evE l op r).
Proof. unfold evaluateInfixExpression. respects. Qed.

Lemma respects_evaluatePrefixExpression op r :
  Respects R (evaluatePrefixExpression evE op r).
Proof. unfold evaluatePrefixExpression. respects. Qed.

Lemma respects_hashPairs Pairs pairs : Respects R (hashPairs evE Pairs pairs).
Proof.
  revert pairs. induction Pairs as [| [k v] Pairs IH]; intros pairs; simpl; respects.
Qed.

Lemma respects_expressionSwitch exp : Respects R (expressionSwitch evS evE exp).
Proof.
  pose proof respects_evaluateCallExpression. pose proof respects_evaluateMemberExpression.
  pose proof respects_evaluateInfixExpression. pose proof respects_evaluatePrefixExpression.
  pose proof respects_hashPairs.
  unfold expressionSwitch. respects.
Qed.

Lemma respects_statementSwitch stmt : Respects R (statementSwitch evS evE stmt).
Proof.
  pose proof respects_evaluateIfStatement. pose proof respects_evaluateTryStatement.
  pose proof respects_evaluateWhileStatement. pose proof respects_evaluateForInStatement.
  pose proof respects_evaluateClassStatement.
  unfold statementSwitch, evaluateBreakStatement, evaluateContinueStatement,
    evaluateThrowStatement. respects.
Qed.

End FrameSteps.

(** Every statement and every expression, at every depth. *)
Lemma respects_evaluate fuel :
  (forall stmt, Respects R (evaluateStatement fuel stmt)) /\
  (forall exp, Respects R (evaluateExpression fuel exp)).
Proof.
  induction fuel as [| n [IHS IHE]]; split; intros; simpl.
  - apply respects_timeout.
  - apply respects_timeout.
  - apply respects_statementSwitch; assumption.
  - apply respects_expressionSwitch; assumption.
Qed.

End Frame.

(** *** The current environment is restored

    Whatever a statement or an expression does, and however it ends, the
    evaluator's current environment is afterwards the one it was before:
    every switch of [e.env] is undone by a deferred assignment. *)

Lemma withEnv_sameEnv A a (m : M A) : Respects sameEnv (withEnv a m).
Proof.
  intros st. unfold withEnv. destruct (m (set_env a st)) as [r st']. reflexivity.
Qed.

Lemma evaluate_sameEnv {lib : GoLib} fuel :
  (forall stmt, Respects sameEnv (evaluateStatement fuel stmt)) /\
  (forall exp, Respects sameEnv (evaluateExpression fuel exp)).
Proof.
  apply respects_evaluate;
    try (intros; first [reflexivity | intro; reflexivity]).
  - intros st1 st2 st3 H12 H23. unfold sameEnv in *. congruence.
  - intros A a m _. apply withEnv_sameEnv.
Qed.

Lemma evaluateStatement_env {lib : GoLib} fuel stmt st :
  env (evaluateStatement fuel stmt st).2 = env st.
Proof. apply (proj1 (evaluate_sameEnv fuel)). Qed.

Lemma evaluateExpression_env {lib : GoLib} fuel exp st :
  env (evaluateExpression fuel exp st).2 = env st.
Proof. apply (proj2 (evaluate_sameEnv fuel)). Qed.

(** *** Environments are never lost or re-parented *)

Lemma envsKept_refl st : envsKept st st.
Proof. split; [lia | eauto]. Qed.

Lemma envsKept_trans st1 st2 st3 : envsKept st1 st2 -> envsKept st2 st3 -> envsKept st1 st3.
Proof.
  intros [L12 P12] [L23 P23]. split; [lia |].
  intros a scope Ha. destruct (P12 a scope Ha) as (scope2 & H2 & E2).
  destruct (P23 a scope2 H2) as (scope3 & H3 & E3).
  exists scope3. split; [exact H3 | congruence].
Qed.

Lemma envsKept_same_envs st st' : envs st' = envs st -> envsKept st st'.
Proof. intros E. unfold envsKept. rewrite E. split; [lia | eauto]. Qed.

Lemma EnvSet_envsKept e name value : Respects envsKept (EnvSet e name value).
Proof.
  intros st. split; simpl.
  - rewrite length_alter. lia.
  - intros a scope Ha. destruct (decide (a = e)) as [-> | Hne].
    + exists (bindVar name value scope). split; [| reflexivity].
      rewrite list_lookup_alter_eq, Ha. reflexivity.
    + exists scope. split; [| reflexivity].
      rewrite list_lookup_alter_ne by congruence. exact Ha.
Qed.

Lemma NewChildEnvironment_envsKept e : Respects envsKept (NewChildEnvironment e).
Proof.
  intros st. split; simpl.
  - rewrite length_app. lia.
  - intros a scope Ha. exists scope. split; [| reflexivity].
    apply lookup_app_l_Some. exact Ha.
Qed.

Lemma withEnv_envsKept A a (m : M A) : Respects envsKept m -> Respects envsKept (withEnv a m).
Proof.
  intros Hm st. unfold withEnv. specialize (Hm (set_env a st)).
  destruct (m (set_env a st)) as [r st']. exact Hm.
Qed.

Lemma evaluate_envsKept {lib : GoLib} fuel :
  (forall stmt, Respects envsKept (evaluateStatement fuel stmt)) /\
  (forall exp, Respects envsKept (evaluateExpression fuel exp)).
Proof.
  apply respects_evaluate;
    try (intros; apply envsKept_same_envs; reflexivity).
  - apply envsKept_trans.
  - apply withEnv_envsKept.
  - apply EnvSet_envsKept.
  - apply NewChildEnvironment_envsKept.
Qed.

(** ** More fuel changes no result

    What an evaluation returns with some fuel, it returns with any larger
    fuel: the fuel only decides whether the model sees the run to its end. *)

Section Fuel.
Context {lib : GoLib}.

Lemma stable_refl A (m : M A) : stable m m.
Proof. intros st r st' H _. exact H. Qed.

Lemma stable_timeout A (m : M A) : stable timeout m.
Proof. intros st r st' H Hr. inversion H; subst. congruence. Qed.

Lemma stable_bind A B (m m' : M A) (k k' : A -> M B) :
  stable m m' -> (forall a, stable (k a) (k' a)) -> stable (bind m k) (bind m' k').
Proof.
  intros Hm Hk st r st' H Hr. unfold bind in *.
  destruct (m st) as [[a | msg |] st1] eqn:Em.
  - rewrite (Hm _ _ _ Em) by discriminate. eapply Hk; eassumption.
  - rewrite (Hm _ _ _ Em) by discriminate. exact H.
  - inversion H; subst. congruence.
Qed.

Lemma stable_onError A (m m' : M A) (h h' : string -> M A) :
  stable m m' -> (forall msg, stable (h msg) (h' msg)) ->
  stable (onError m h) (onError m' h').
Proof.
  intros Hm Hh st r st' H Hr. unfold onError in *.
  destruct (m st) as [[a | msg |] st1] eqn:Em.
  - rewrite (Hm _ _ _ Em) by discriminate. exact H.
  - rewrite (Hm _ _ _ Em) by discriminate. eapply Hh; eassumption.
  - inversion H; subst. congruence.
Qed.

Lemma stable_withEnv A a (m m' : M A) :
  stable m m' -> stable (withEnv a m) (withEnv a m').
Proof.
  intros Hm st r st' H Hr. unfold withEnv in *.
  destruct (m (set_env a st)) as [r1 st1] eqn:Em.
  inversion H; subst. rewrite (Hm _ _ _ Em) by exact Hr. reflexivity.
Qed.

Create HintDb stable.
#[local] Hint Resolve stable_refl stable_withEnv : stable.

Ltac stable :=
  repeat lazymatch goal with
  | |- stable (bind _ _) (bind _ _) => apply stable_bind; [| intros ?]
  | |- stable (onError _ _) (onError _ _) => apply stable_onError; [| intros ?]
  | |- stable (match ?x with _ => _ end) (match ?x with _ => _ end) => destruct x
  | |- _ => solve [eauto with stable]
  end.

Section FuelSteps.
Variables evS evS' : Statement -> M Value.
Variables evE evE' : Expression -> M Value.
Hypothesis evS_stable : forall stmt, stable (evS stmt) (evS' stmt).
Hypothesis evE_stable : forall exp, stable (evE exp) (evE' exp).

Lemma stable_evaluateVarStatement name value :
  stable (evaluateVarStatement evE name value) (evaluateVarStatement evE' name value).
Proof. unfold evaluateVarStatement. stable. Qed.

Lemma stable_blockStatements stmts last :
  stable (blockStatements evS stmts last) (blockStatements evS' stmts last).
Proof. revert last. induction stmts as [| s stmts IH]; intros last; simpl; stable. Qed.

Lemma stable_evaluateBlockStatement stmts :
  stable (evaluateBlockStatement evS stmts) (evaluateBlockStatement evS' stmts).
Proof. unfold evaluateBlockStatement. pose proof stable_blockStatements. stable. Qed.

#[local] Hint Resolve stable_evaluateVarStatement stable_evaluateBlockStatement : stable.

Lemma stable_evaluateIfStatement cond consequence alt :
  stable (evaluateIfStatement evS evE cond consequence alt)
         (evaluateIfStatement evS' evE' cond consequence alt).
Proof. unfold evaluateIfStatement. stable. Qed.

Lemma stable_evaluateTryStatement tryBlock catch finally :
  stable (evaluateTryStatement evS tryBlock catch finally)
         (evaluateTryStatement evS' tryBlock catch finally).
Proof. unfold evaluateTryStatement. stable. Qed.

Lemma stable_whileBody stmts : stable (whileBody evS stmts) (whileBody evS' stmts).
Proof. induction stmts as [| s stmts IH]; simpl; stable. Qed.

Lemma stable_evaluateWhileStatement again again' cond body :
  stable again again' ->
  stable (evaluateWhileStatement evS evE again cond body)
         (evaluateWhileStatement evS' evE' again' cond body).
Proof.
  intros Hagain. unfold evaluateWhileStatement. pose proof stable_whileBody. stable.
Qed.

Lemma stable_forInElements ident body elements :
  stable (forInElements evS ident body elements) (forInElements evS' ident body elements).
Proof. induction elements as [| x elements IH]; simpl; stable. Qed.

Lemma stable_evaluateForInStatement ident iter body :
  stable (evaluateForInStatement evS evE ident iter body)
         (evaluateForInStatement evS' evE' ident iter body).
Proof. unfold evaluateForInStatement. pose proof stable_forInElements. stable. Qed.

Lemma stable_classAttributes attrs attributes :
  stable (classAttributes evE attrs attributes) (classAttributes evE' attrs attributes).
Proof.
  revert attributes. induction attrs as [| [name init] attrs IH]; intros attributes;
    simpl; stable.
Qed.

Lemma stable_evaluateClassStatement name attrs meths :
  stable (evaluateClassStatement evE name attrs meths)
         (evaluateClassStatement evE' name attrs meths).
Proof. unfold evaluateClassStatement. pose proof stable_classAttributes. stable. Qed.

Lemma stable_callZyloFunction fn args :
  stable (callZyloFunction evS fn args) (callZyloFunction evS' fn args).
Proof. unfold callZyloFunction. stable. Qed.

Lemma stable_callBoundMethod instance method args :
  stable (callBoundMethod evS instance method args)
         (callBoundMethod evS' instance method args).
Proof. unfold callBoundMethod. stable. Qed.

Lemma stable_evaluateExpressions exps :
  stable (evaluateExpressions evE exps) (evaluateExpressions evE' exps).
Proof. induction exps as [| e exps IH]; simpl; stable. Qed.

#[local] Hint Resolve stable_callZyloFunction stable_callBoundMethod
  stable_evaluateExpressions : stable.

Lemma stable_instantiateClass class args :
  stable (instantiateClass evS evE class args) (instantiateClass evS' evE' class args).
Proof. unfold instantiateClass. stable. Qed.

Lemma stable_callBuiltin f args :
  stable (callBuiltin evS f args) (callBuiltin evS' f args).
Proof. destruct f; simpl; stable. Qed.

#[local] Hint Resolve stable_instantiateClass stable_callBuiltin : stable.

Lemma stable_callFunction fn args :
  stable (callFunction evS fn args) (callFunction evS' fn args).
Proof. unfold callFunction. stable. Qed.

Lemma stable_evaluateMemberExpression object property :
  stable (evaluateMemberExpression evE object property)
         (evaluateMemberExpression evE' object property).
Proof. unfold evaluateMemberExpression. stable. Qed.

Lemma stable_evaluateArguments i args :
  stable (evaluateArguments evE i args) (evaluateArguments evE' i args).
Proof. revert i. induction args as [| a args IH]; intros i; simpl; stable. Qed.

#[local] Hint Resolve stable_callFunction stable_evaluateArguments : stable.

Lemma stable_evaluateCallExpression fn args :
  stable (evaluateCallExpression evS evE fn args)
         (evaluateCallExpression evS' evE' fn args).
Proof. unfold evaluateCallExpression. stable. Qed.

Lemma stable_evaluateInfixExpression l op r :
  stable (evaluateInfixExpression evE l op r) (evaluateInfixExpression evE' l op r).
Proof. unfold evaluateInfixExpression. stable. Qed.

Lemma stable_evaluatePrefixExpression op r :
  stable (evaluatePrefixExpression evE op r) (evaluatePrefixExpression evE' op r).
Proof. unfold evaluatePrefixExpression. stable. Qed.

Lemma stable_hashPairs Pairs pairs :
  stable (hashPairs evE Pairs pairs) (hashPairs evE' Pairs pairs).
Proof.
  revert pairs. induction Pairs as [| [k v] Pairs IH]; intros pairs; simpl; stable.
Qed.

Lemma stable_expressionSwitch exp :
  stable (expressionSwitch evS evE exp) (expressionSwitch evS' evE' exp).
Proof.
  pose proof stable_evaluateCallExpression. pose proof stable_evaluateMemberExpression.
  pose proof stable_evaluateInfixExpression. pose proof stable_evaluatePrefixExpression.
  pose proof stable_hashPairs.
  unfold expressionSwitch. stable.
Qed.

Lemma stable_statementSwitch stmt :
  stable (statementSwitch evS evE stmt) (statementSwitch evS' evE' stmt).
Proof.
  pose proof stable_evaluateIfStatement. pose proof stable_evaluateTryStatement.
  pose proof stable_evaluateWhileStatement. pose proof stable_evaluateForInStatement.
  pose proof stable_evaluateClassStatement.
  unfold statementSwitch. stable.
Qed.

End FuelSteps.

Lemma evaluate_stable_step n :
  (forall stmt, stable (evaluateStatement n stmt) (evaluateStatement (S n) stmt)) /\
  (forall exp, stable (evaluateExpression n exp) (evaluateExpression (S n) exp)).
Proof.
  induction n as [| n [IHS IHE]]; split; intros.
  - apply stable_timeout.
  - apply stable_timeout.
  - apply (stable_statementSwitch _ _ _ _ IHS IHE).
  - apply (stable_expressionSwitch _ _ _ _ IHS IHE).
Qed.

Lemma stable_trans A (m1 m2 m3 : M A) : stable m1 m2 -> stable m2 m3 -> stable m1 m3.
Proof. intros H12 H23 st r st' H Hr. apply H23; [apply H12 |]; assumption. Qed.

Lemma evaluateStatement_more_fuel n m stmt :
  n <= m -> stable (evaluateStatement n stmt) (evaluateStatement m stmt).
Proof.
  induction 1 as [| m Hle IH]; [apply stable_refl |].
  eapply stable_trans; [exact IH | apply (proj1 (evaluate_stable_step m))].
Qed.

Lemma evaluateExpression_more_fuel n m exp :
  n <= m -> stable (evaluateExpression n exp) (evaluateExpression m exp).
Proof.
  induction 1 as [| m Hle IH]; [apply stable_refl |].
  eapply stable_trans; [exact IH | apply (proj2 (evaluate_stable_step m))].
Qed.

Lemma programStatements_more_fuel n m stmts :
  n <= m -> stable (programStatements n stmts) (programStatements m stmts).
Proof.
  intros Hle. induction stmts as [| s stmts IH]; simpl.
  - apply stable_refl.
  - apply stable_bind; [apply evaluateStatement_more_fuel; exact Hle | intros _; exact IH].
Qed.

End Fuel.

(** ** Blocks *)

(** [evaluateBlockStatement] in one equation: the statements run from the
    state in which a fresh child environment is current, and whatever they
    return is returned with the former environment current again. *)
Lemma evaluateBlockStatement_enter ev (stmts : Block) st :
  evaluateBlockStatement ev stmts st
  = (let (r, st') := blockStatements ev stmts VNull (enterBlock st) in
     (r, set_env (env st) st')).
Proof. reflexivity. Qed.

Lemma enterBlock_child st :
  env (enterBlock st) = length (envs st) /\
  envs st !! length (envs st) = None /\
  envs (enterBlock st) !! length (envs st)
  = Some {| variables := ∅; parent := Some (env st) |}.
Proof.
  split; [reflexivity |]. split.
  - apply lookup_ge_None_2. lia.
  - simpl. rewrite lookup_app_r by lia. rewrite Nat.sub_diag. reflexivity.
Qed.

Lemma enterBlock_envsKept st : envsKept st (enterBlock st).
Proof. apply (NewChildEnvironment_envsKept (env st) st). Qed.

Lemma blockStatements_envsKept {lib : GoLib} fuel stmts last :
  Respects envsKept (blockStatements (evaluateStatement fuel) stmts last).
Proof.
  apply respects_blockStatements.
  - apply envsKept_refl.
  - apply envsKept_trans.
  - apply (proj1 (evaluate_envsKept fuel)).
Qed.

(** C9: evaluating a Block statement creates a child environment of the
    current one, evaluates the block's statements with that child current,
    and on every exit path (any result: a value, a sentinel, an error) returns
    with the former environment current again; the child is still in the
    store, with the same parent, and no older environment is lost. *)
Theorem block_scope {lib : GoLib} fuel (stmts : Block) (st : State) :
  let child := length (envs st) in
  let result := evaluateStatement (S fuel) (BlockStatement stmts) st in
  result
  = (let (r, st') :=
       blockStatements (evaluateStatement fuel) stmts VNull (enterBlock st) in
     (r, set_env (env st) st')) /\
  env (enterBlock st) = child /\
  envs st !! child = None /\
  envs (enterBlock st) !! child = Some {| variables := ∅; parent := Some (env st) |} /\
  env result.2 = env st /\
  (exists scope, envs result.2 !! child = Some scope /\ parent scope = Some (env st)) /\
  envsKept st result.2.
Proof.
  intros child result.
  assert (Eq : result
               = (let (r, st') :=
                    blockStatements (evaluateStatement fuel) stmts VNull (enterBlock st) in
                  (r, set_env (env st) st'))) by reflexivity.
  destruct (enterBlock_child st) as (Hc & Hfresh & Hchild).
  pose proof (blockStatements_envsKept fuel stmts VNull (enterBlock st)) as Hk.
  split; [exact Eq |]. split; [exact Hc |]. split; [exact Hfresh |].
  split; [exact Hchild |].
  rewrite Eq.
  destruct (blockStatements (evaluateStatement fuel) stmts VNull (enterBlock st))
    as [r st']; simpl in *.
  split; [reflexivity |]. split.
  - destruct Hk as [_ Hp]. destruct (Hp _ _ Hchild) as (scope & Hs & Hpar).
    exists scope. split; [exact Hs | exact Hpar].
  - eapply envsKept_trans; [apply enterBlock_envsKept | exact Hk].
Qed.

(** ** Import *)

Lemma lookupVar_writeVar name value st :
  validEnv st -> lookupVar name (writeVar name value st) = Some value.
Proof.
  unfold validEnv, lookupVar, writeVar. intros Hv. simpl.
  rewrite length_alter.
  destruct (length (envs st)) as [| d] eqn:El; [lia |].
  destruct (lookup_lt_is_Some_2 (envs st) (env st)) as [scope Hs]; [lia |].
  simpl. rewrite list_lookup_alter_eq, Hs. simpl.
  rewrite lookup_insert_eq. reflexivity.
Qed.

(** C8: evaluating an import statement is [evaluateImportStatement]; an
    import of a name that is already bound in the environment is a silent
    no-op that leaves the state unchanged (this test comes first, as
    in the source); of the names that are not bound, only ["zyloruntime"]
    succeeds (it gets bound, in the current scope, to the module object) and
    every other one is the module-not-found error; a missing name is an
    error; importing is idempotent. *)
Theorem import_cases {lib : GoLib} (name : string) (st : State) :
  (forall fuel,
     evaluateStatement (S fuel) (ImportStatement (Some name)) st
     = evaluateImportStatement (Some name) st) /\
  (lookupVar name st <> None ->
     evaluateImportStatement (Some name) st = (Ok VNull, st)) /\
  (lookupVar name st = None -> name = "zyloruntime" ->
     evaluateImportStatement (Some name) st
     = (Ok VNull, writeVar name (VString "zyloruntime_module") st)) /\
  (lookupVar name st = None -> name <> "zyloruntime" ->
     evaluateImportStatement (Some name) st
     = (Err ("Module '" ++ name ++ "' not found"), st)) /\
  evaluateImportStatement None st = (Err "import statement has nil module name", st) /\
  (validEnv st ->
     (evaluateImportStatement (Some name) ;;; evaluateImportStatement (Some name)) st
     = evaluateImportStatement (Some name) st).
Proof.
  assert (Hbound : lookupVar name st <> None ->
                   evaluateImportStatement (Some name) st = (Ok VNull, st)).
  { intros Hb. unfold evaluateImportStatement, bind, getEnv, EnvGet.
    fold (lookupVar name st). destruct (lookupVar name st); [reflexivity | congruence]. }
  assert (Hmod : lookupVar name st = None -> name = "zyloruntime" ->
                 evaluateImportStatement (Some name) st
                 = (Ok VNull, writeVar name (VString "zyloruntime_module") st)).
  { intros Hn ->. unfold evaluateImportStatement, bind, getEnv, EnvGet.
    fold (lookupVar "zyloruntime" st). rewrite Hn. reflexivity. }
  assert (Hother : lookupVar name st = None -> name <> "zyloruntime" ->
                   evaluateImportStatement (Some name) st
                   = (Err ("Module '" ++ name ++ "' not found"), st)).
  { intros Hn Hne. unfold evaluateImportStatement, bind, getEnv, EnvGet.
    fold (lookupVar name st). rewrite Hn.
    destruct (String.eqb_spec name "zyloruntime"); [congruence | reflexivity]. }
  split; [reflexivity |].
  repeat split; try assumption.
  intros Hv. unfold bind at 1.
  destruct (lookupVar name st) as [v |] eqn:El.
  - rewrite Hbound by congruence. apply Hbound. congruence.
  - destruct (String.eqb_spec name "zyloruntime") as [E | E].
    + rewrite (Hmod eq_refl E). subst name.
      unfold evaluateImportStatement, bind, getEnv, EnvGet.
      fold (lookupVar "zyloruntime" (writeVar "zyloruntime" (VString "zyloruntime_module") st)).
      rewrite lookupVar_writeVar by exact Hv. reflexivity.
    + rewrite (Hother eq_refl E). reflexivity.
Qed.

(** The no-op covers every bound name: [import len] changes nothing in the
    initial environment, where [len] is bound. *)
Example import_bound_name_is_noop :
  evaluateImportStatement (Some "len") (NewEvaluator []) = (Ok VNull, NewEvaluator []).
Proof. vm_compute. reflexivity. Qed.

(** [import nosuch] fails, [import len] and [import zyloruntime] change
    nothing in the initial environment, and [import zyloruntime] binds the
    name in an environment without builtins. *)
Lemma import_cases_witness :
  evaluateImportStatement (Some "nosuch") (NewEvaluator [])
  = (Err "Module 'nosuch' not found", NewEvaluator []) /\
  evaluateImportStatement (Some "zyloruntime") (NewEvaluator [])
  = (Ok VNull, NewEvaluator []) /\
  evaluateImportStatement (Some "zyloruntime") bareEvaluator
  = (Ok VNull, writeVar "zyloruntime" (VString "zyloruntime_module") bareEvaluator).
Proof.
  split; [| split].
  - apply (proj1 (proj2 (proj2 (proj2
             (import_cases (lib := plainLib) "nosuch" (NewEvaluator [])))))).
    + vm_compute. reflexivity.
    + discriminate.
  - apply (proj1 (proj2 (import_cases (lib := plainLib) "zyloruntime" (NewEvaluator [])))).
    vm_compute. discriminate.
  - apply (proj1 (proj2 (proj2 (import_cases (lib := plainLib) "zyloruntime" bareEvaluator)))).
    + vm_compute. reflexivity.
    + reflexivity.
Defined.

(** ** Statement sequences *)

Open Scope list_scope.

(** The two loops over statements pass a completed prefix and go on with
    the rest from the state the prefix left. *)
Lemma blockStatements_app ev pre rest last st st1 :
  completes ev pre st st1 ->
  exists last',
    blockStatements ev (pre ++ rest) last st = blockStatements ev rest last' st1.
Proof.
  intros Hc. revert last.
  induction Hc as [st | stmt pre st value st' st'' Hev Hs Hc IH]; intros last.
  - exists last. reflexivity.
  - destruct (IH value) as [last' Hl]. exists last'.
    simpl. unfold bind. rewrite Hev.
    destruct value; simpl in Hs; try discriminate; exact Hl.
Qed.

Lemma whileBody_app ev pre rest st st1 :
  completes ev pre st st1 ->
  whileBody ev (pre ++ rest) st = whileBody ev rest st1.
Proof.
  induction 1 as [st | stmt pre st value st' st'' Hev Hs Hc IH].
  - reflexivity.
  - simpl. unfold bind. rewrite Hev.
    destruct value; simpl in Hs; try discriminate; exact IH.
Qed.


Lemma completes_sameEnv {lib : GoLib} fuel stmts st st' :
  completes (evaluateStatement fuel) stmts st st' -> env st' = env st.
Proof.
  induction 1 as [st | stmt pre st value st' st'' Hev Hs Hc IH].
  - reflexivity.
  - rewrite IH. pose proof (evaluateStatement_env fuel stmt st) as He.
    rewrite Hev in He. exact He.
Qed.

Lemma completes_envsKept {lib : GoLib} fuel stmts st st' :
  completes (evaluateStatement fuel) stmts st st' -> envsKept st st'.
Proof.
  induction 1 as [st | stmt pre st value st' st'' Hev Hs Hc IH].
  - apply envsKept_refl.
  - eapply envsKept_trans; [| exact IH].
    pose proof (proj1 (evaluate_envsKept fuel) stmt st) as He.
    rewrite Hev in He. exact He.
Qed.

(** A block whose statement [stmt], reached after a completed prefix, ends
    with an error or with a sentinel returns just that, from the state
    [stmt] left and with the former environment current; the statements
    after [stmt] are not evaluated. *)
Lemma block_stops_on_error ev pre stmt post st st1 msg st2 :
  completes ev pre (enterBlock st) st1 ->
  ev stmt st1 = (Err msg, st2) ->
  evaluateBlockStatement ev (pre ++ stmt :: post) st = (Err msg, set_env (env st) st2).
Proof.
  intros Hc Hev. rewrite evaluateBlockStatement_enter.
  destruct (blockStatements_app ev pre (stmt :: post) VNull _ _ Hc) as [last' ->].
  simpl. unfold bind. rewrite Hev. reflexivity.
Qed.


Lemma completes_more_fuel {lib : GoLib} n m stmts st st' :
  n <= m ->
  completes (evaluateStatement n) stmts st st' ->
  completes (evaluateStatement m) stmts st st'.
Proof.
  intros Hle. induction 1 as [st | stmt pre st value st' st'' Hev Hs Hc IH].
  - constructor.
  - econstructor; [| exact Hs | exact IH].
    apply (evaluateStatement_more_fuel n m stmt Hle _ _ _ Hev). discriminate.
Qed.

Lemma evaluateExpression_Ok_more_fuel {lib : GoLib} n m exp st v st' :
  n <= m ->
  evaluateExpression n exp st = (Ok v, st') ->
  evaluateExpression m exp st = (Ok v, st').
Proof.
  intros Hle Hev. apply (evaluateExpression_more_fuel n m exp Hle _ _ _ Hev). discriminate.
Qed.

(** ** Try and throw *)

(** C3 (amended): a try statement just evaluates its try block as a block,
    whatever its catch clause and finally block are; when a statement of the
    body produces an evaluation error, the try statement returns that very
    error, from the state that statement left (nothing is bound, no other
    statement runs); a throw statement does nothing and yields Null. *)
Theorem try_returns_the_error {lib : GoLib} n body catch finally st :
  (forall m,
     evaluateStatement m (TryStatement (Some body) catch finally) st
     = evaluateStatement m (BlockStatement body) st) /\
  (forall pre stmt post st1 msg st2,
     body = pre ++ stmt :: post ->
     completes (evaluateStatement n) pre (enterBlock st) st1 ->
     evaluateStatement n stmt st1 = (Err msg, st2) ->
     forall m, n < m ->
     evaluateStatement m (TryStatement (Some body) catch finally) st
     = (Err msg, set_env (env st) st2)) /\
  (forall exception m, 0 < m ->
     evaluateStatement m (ThrowStatement exception) st = (Ok VNull, st)).
Proof.
  split; [| split].
  - intros [| m]; reflexivity.
  - intros pre stmt post st1 msg st2 -> Hc Hev [| m] Hm; [lia |].
    change (evaluateBlockStatement (evaluateStatement m) (pre ++ stmt :: post) st
            = (Err msg, set_env (env st) st2)).
    eapply block_stops_on_error.
    + eapply completes_more_fuel; [| exact Hc]. lia.
    + apply (evaluateStatement_more_fuel n m stmt); [lia | exact Hev | discriminate].
  - intros exception [| m] Hm; [lia | reflexivity].
Qed.

(** C3 (as stated, refuted): the error of the body is the result of the try
    statement. *)
Lemma try_does_not_ignore_error :
  (evaluateStatement (lib := plainLib) 3 tryUndefined (NewEvaluator [])).1
  = Err "variable no definida: nope".
Proof. vm_compute. reflexivity. Qed.

Lemma try_returns_the_error_witness :
  evaluateStatement (lib := plainLib) 3 tryUndefined (NewEvaluator [])
  = (Err "variable no definida: nope", set_env 0 (enterBlock (NewEvaluator []))).
Proof.
  apply (proj1 (proj2 (try_returns_the_error (lib := plainLib) 2
                         [ExpressionStatement (Identifier "nope")]
                         (Some ("e", [VarStatement "caught" (int 1)]))
                         (Some [VarStatement "done" (int 1)]) (NewEvaluator [])))
           [] (ExpressionStatement (Identifier "nope")) []
           (enterBlock (NewEvaluator []))).
  - reflexivity.
  - constructor.
  - vm_compute. reflexivity.
  - lia.
Defined.

(** ** Break and continue *)




(** ** The scope of loop and branch bodies *)

(** A [var] statement binds its variable in the current environment. *)
Lemma var_statement {lib : GoLib} n x init st v st' :
  init <> NilExpression ->
  evaluateExpression n init st = (Ok v, st') ->
  evaluateStatement (S n) (VarStatement x init) st = (Ok VNull, writeVar x v st').
Proof.
  intros Hi Hev.
  change (bind (evaluateVarStatement (evaluateExpression n) x init) (fun _ => ret VNull) st
          = (Ok VNull, writeVar x v st')).
  unfold evaluateVarStatement, bind.
  destruct init; try congruence; rewrite Hev; reflexivity.
Qed.

Lemma evaluateExpression_envsKept {lib : GoLib} fuel exp st :
  envsKept st (evaluateExpression fuel exp st).2.
Proof. apply (proj2 (evaluate_envsKept fuel)). Qed.

(** One element of a for-in loop: the loop variable is bound in the current
    environment, then the body is evaluated as a block. *)
Lemma forInElements_cons ev ident body element rest st :
  forInElements ev ident body (element :: rest) st
  = match evaluateBlockStatement ev body (writeVar ident element st) with
    | (Ok VBreak, st') => (Ok tt, st')
    | (Ok _, st') => forInElements ev ident body rest st'
    | (Err msg, st') => (Err msg, st')
    | (OutOfFuel, st') => (OutOfFuel, st')
    end.
Proof.
  simpl. unfold bind at 1 2 3. simpl.
  change (set_envs (alter (bindVar ident element) (env st) (envs st)) st)
    with (writeVar ident element st).
  destruct (evaluateBlockStatement ev body (writeVar ident element st)) as [[v | msg |] st'];
    try reflexivity.
  destruct v; reflexivity.
Qed.

(** An assignment to a defined variable binds it in the current
    environment, and its value is the value assigned. *)
Lemma assign_statement {lib : GoLib} n x rhs st v st' old :
  rhs <> NilExpression ->
  evaluateExpression n rhs st = (Ok v, st') ->
  lookupVar x st' = Some old ->
  evaluateStatement (S (S n))
    (ExpressionStatement (InfixExpression (Identifier x) "=" rhs)) st
  = (Ok v, writeVar x v st').
Proof.
  intros Hr Hev Hl.
  change (evaluateInfixExpression (evaluateExpression n) (Identifier x) "=" rhs st
          = (Ok v, writeVar x v st')).
  unfold evaluateInfixExpression.
  destruct rhs; try congruence; cbn [String.eqb Ascii.eqb Bool.eqb];
    unfold bind, getEnv, EnvGet; rewrite Hev; fold (lookupVar x st'); rewrite Hl;
    reflexivity.
Qed.

(** A write, evaluated with enough fuel, returns an ordinary value and
    leaves the state in which the current environment binds the variable. *)
Lemma writes_statement {lib : GoLib} n stmt x v st st' :
  writes n stmt x v st st' ->
  forall m, n + 1 < m ->
  exists r, evaluateStatement m stmt st = (Ok r, writeVar x v st') /\ isSentinel r = false.
Proof.
  intros [x' init st0 v0 st0' Hi Hev | x' rhs st0 v0 st0' old Hr Hev Hl Hs] m Hm.
  - destruct m as [| m]; [lia |]. exists VNull. split; [| reflexivity].
    apply var_statement; [exact Hi |].
    eapply evaluateExpression_Ok_more_fuel; [| exact Hev]. lia.
  - destruct m as [| [| m]]; try lia. exists v0. split; [| exact Hs].
    eapply assign_statement; [exact Hr | | exact Hl].
    eapply evaluateExpression_Ok_more_fuel; [| exact Hev]. lia.
Qed.

Lemma writes_frame {lib : GoLib} n stmt x v st st' :
  writes n stmt x v st st' -> env st' = env st /\ envsKept st st'.
Proof.
  intros [x' init st0 v0 st0' Hi Hev | x' rhs st0 v0 st0' old Hr Hev Hl Hs].
  - pose proof (evaluateExpression_env n init st0) as E.
    pose proof (evaluateExpression_envsKept n init st0) as K.
    rewrite Hev in E, K. split; assumption.
  - pose proof (evaluateExpression_env n rhs st0) as E.
    pose proof (evaluateExpression_envsKept n rhs st0) as K.
    rewrite Hev in E, K. split; assumption.
Qed.

(** A block that ends with [var x = init]: the write goes to the child
    environment of the block, and the environment in which the block was
    entered keeps the bindings it had before the write. *)
Lemma block_write_stays_in_child {lib : GoLib} n pre x init st st2 v st3 :
  init <> NilExpression ->
  validEnv st ->
  completes (evaluateStatement (S n)) pre (enterBlock st) st2 ->
  evaluateExpression n init st2 = (Ok v, st3) ->
  evaluateBlockStatement (evaluateStatement (S n)) (pre ++ [VarStatement x init]) st
  = (Ok VNull, set_env (env st) (writeVar x v st3)) /\
  env st3 = length (envs st) /\
  envs st !! env st3 = None /\
  lookupVar x (writeVar x v st3) = Some v /\
  envs (writeVar x v st3) !! env st = envs st3 !! env st.
Proof.
  intros Hi Hv Hpre Hinit.
  assert (E2 : env st2 = length (envs st)).
  { rewrite (completes_sameEnv _ _ _ _ Hpre). reflexivity. }
  assert (E3 : env st3 = length (envs st)).
  { pose proof (evaluateExpression_env n init st2) as E. rewrite Hinit in E.
    simpl in E. congruence. }
  assert (K : length (envs st) < length (envs st3)).
  { pose proof (completes_envsKept _ _ _ _ Hpre) as [K2 _].
    pose proof (evaluateExpression_envsKept n init st2) as [K3 _].
    rewrite Hinit in K3. simpl in K2, K3. rewrite length_app in K2. simpl in K2. lia. }
  split; [| split; [| split; [| split]]].
  - rewrite evaluateBlockStatement_enter.
    destruct (blockStatements_app (evaluateStatement (S n)) pre [VarStatement x init]
                VNull _ _ Hpre) as [last' ->].
    cbn [blockStatements]. unfold bind.
    rewrite (var_statement n x init st2 v st3 Hi Hinit). reflexivity.
  - exact E3.
  - rewrite E3. apply lookup_ge_None_2. lia.
  - apply lookupVar_writeVar. unfold validEnv. lia.
  - unfold writeVar, validEnv in *. simpl.
    apply list_lookup_alter_ne. lia.
Qed.

(** C2 (as stated, refuted): after [var x = 0; if (true) { var x = 1 }], and
    after [var x = 0; for e in [1, 2] { var x = e }], [x] is still 0 in the
    enclosing scope (and [e] is 2 there). *)
Lemma if_and_for_bodies_use_child_scope :
  (programStatements (lib := plainLib) 4 ifWrites (NewEvaluator [])).1 = Ok tt /\
  lookupVar "x" (programStatements (lib := plainLib) 4 ifWrites (NewEvaluator [])).2
  = Some (VInteger 0) /\
  (programStatements (lib := plainLib) 4 forInWrites (NewEvaluator [])).1 = Ok tt /\
  lookupVar "x" (programStatements (lib := plainLib) 4 forInWrites (NewEvaluator [])).2
  = Some (VInteger 0) /\
  lookupVar "e" (programStatements (lib := plainLib) 4 forInWrites (NewEvaluator [])).2
  = Some (VInteger 2).
Proof. vm_compute. repeat split; reflexivity. Qed.

(** The whole program [var i = 0; while (i < 3) { i = i + 1 }] ends, with [i]
    equal to 3 in the scope of the loop, and allocates no environment. *)
Example whileWrites_runs :
  (programStatements (lib := plainLib) 7 whileWrites (NewEvaluator [])).1 = Ok tt /\
  lookupVar "i" (programStatements (lib := plainLib) 7 whileWrites (NewEvaluator [])).2
  = Some (VInteger 3) /\
  length (envs (programStatements (lib := plainLib) 7 whileWrites (NewEvaluator [])).2) = 1.
Proof. vm_compute. repeat split; reflexivity. Qed.

(** ** Class attribute defaults *)

(** Instantiating a class without constructor allocates an instance whose
    field map is the attribute map of the class: each field holds the very
    value, and so the very list address, that the class holds. *)
Lemma instantiateClass_copies_references evS evE class args st classObj :
  classes st !! class = Some classObj ->
  InitMethod classObj = None ->
  instantiateClass evS evE class args st
  = (Ok (VInstance (length (instances st))),
     set_instances
       (instances st ++ [{| Class := class; Fields := Attributes classObj |}]) st).
Proof.
  intros Hc Hi. unfold instantiateClass, bind, getClass, newInstance.
  rewrite Hc. simpl. rewrite Hi. reflexivity.
Qed.

(** [List.Append] writes the list object its closure holds. *)
Lemma List_Append_writes {lib : GoLib} evS list v st :
  callBuiltin evS (builtin.List_Append list) [v] st
  = (Ok VNull, set_lists (<[list := default [] (lists st !! list) ++ [v]]> (lists st)) st).
Proof. reflexivity. Qed.

(** C4 (the code at the failing input): after
    [class C { var items = [] }  var a = C(); var b = C(); a.items.Append(1)]
    the program has run to its end (with any fuel from 6 on), [a] and [b] are
    two instances, the field [items] of [a] and of [b] is one and the same
    list, which now holds 1, and [b.items.Len()] is 1. *)
Theorem default_list_is_shared {lib : GoLib} k :
  let run := programStatements (6 + k) sharedDefault (NewEvaluator []) in
  run.1 = Ok tt /\
  fieldOf run.2 (lookupVar "a" run.2) "items" = Some (VList 0) /\
  fieldOf run.2 (lookupVar "b" run.2) "items" = Some (VList 0) /\
  lookupVar "a" run.2 <> lookupVar "b" run.2 /\
  lists run.2 !! 0 = Some [VInteger 1] /\
  lookupVar "n" run.2 = Some (VInteger 1).
Proof.
  intros run.
  assert (E : run = programStatements 6 sharedDefault (NewEvaluator [])).
  { apply (programStatements_more_fuel 6 (6 + k) sharedDefault); [lia | |].
    - apply surjective_pairing.
    - vm_compute. discriminate. }
  rewrite E. vm_compute. repeat split; try reflexivity. discriminate.
Qed.
(** ** More on the operators *)

Section MoreOperators.
Context {lib : GoLib}.

(** X1: [==] and [!=] never fail on two values, they return Booleans, and the
    one is the negation of the other; values of two different kinds, other
    than an Integer beside a Float, are never equal. *)
Theorem equality_is_total_and_negated (l r : Value) :
  exists b,
    applyOperator "==" (Some l) (Some r) = Ok (VBoolean b) /\
    applyOperator "!=" (Some l) (Some r) = Ok (VBoolean (negb b)) /\
    (typeName (Some l) <> typeName (Some r) ->
     isNumeric l && isNumeric r = false -> b = false).
Proof.
  destruct l, r; eexists; (split; [reflexivity | split; [reflexivity |]]);
    intros Hk Hn; first [reflexivity | discriminate Hn | exfalso; apply Hk; reflexivity].
Qed.

(** X2: on two numeric operands the ordering operators return Booleans, with
    [l < r] the same as [r > l] and [l <= r] the same as [r >= l], and on
    two Integers [<=] is the negation of [>]; with an operand of any other
    kind (a String, a Boolean, Null, ...) each of them is the
    unsupported-operator error. *)
Theorem ordering_needs_numbers (l r : Value) :
  (isNumeric l && isNumeric r = true ->
     (exists b, applyOperator "<" (Some l) (Some r) = Ok (VBoolean b) /\
                applyOperator ">" (Some r) (Some l) = Ok (VBoolean b)) /\
     (exists b, applyOperator "<=" (Some l) (Some r) = Ok (VBoolean b) /\
                applyOperator ">=" (Some r) (Some l) = Ok (VBoolean b))) /\
  (forall a b, l = VInteger a -> r = VInteger b ->
     exists c, applyOperator ">" (Some l) (Some r) = Ok (VBoolean c) /\
               applyOperator "<=" (Some l) (Some r) = Ok (VBoolean (negb c))) /\
  (isNumeric l && isNumeric r = false ->
     forall op, In op ["<"; ">"; "<="; ">="] ->
       applyOperator op (Some l) (Some r) = unsupportedOperator op l r).
Proof.
  split; [| split].
  - destruct l, r; simpl; intros Hn; try discriminate Hn;
      (split; eexists; (split; [reflexivity |])); unfold Go.fgt, Go.fge, Go.flt, Go.fle;
      try reflexivity.
    + rewrite Z.gtb_ltb. reflexivity.
    + rewrite Z.geb_leb. reflexivity.
  - intros a b -> ->. eexists. split; [reflexivity |]. simpl.
    rewrite Z.gtb_ltb, Z.leb_antisym. reflexivity.
  - intros Hn op Hop. simpl in Hop.
    destruct Hop as [<- | [<- | [<- | [<- | []]]]];
      destruct l, r; simpl in Hn; try discriminate Hn; reflexivity.
Qed.



(** X3: [&&] and [||] are not short-circuit operators: both operands are
    evaluated, the left one first, and the value is the Boolean conjunction
    or disjunction of their truthiness; an error of the right operand is the
    result of the expression, whatever the left operand is. *)
Theorem logic_operators_evaluate_both_operands evE Left Right st l st1 :
  Left <> NilExpression -> Right <> NilExpression ->
  evE Left st = (Ok l, st1) ->
  (forall r st2, evE Right st1 = (Ok r, st2) ->
     evaluateInfixExpression evE Left "&&" Right st
     = (Ok (VBoolean (isTruthy (Some l) && isTruthy (Some r))), st2) /\
     evaluateInfixExpression evE Left "||" Right st
     = (Ok (VBoolean (isTruthy (Some l) || isTruthy (Some r))), st2)) /\
  (forall msg st2, evE Right st1 = (Err msg, st2) ->
     evaluateInfixExpression evE Left "&&" Right st = (Err msg, st2) /\
     evaluateInfixExpression evE Left "||" Right st = (Err msg, st2)).
Proof.
  intros HL HR El. split.
  - intros r st2 Er.
    rewrite !(evaluateInfixExpression_operator evE Left _ Right st l st1 r st2)
      by (assumption || reflexivity).
    unfold applyOperator. simpl String.eqb. cbv iota.
    destruct (isTruthy (Some l)); split; reflexivity.
  - intros msg st2 Er.
    assert (H : forall op, String.eqb op "=" = false ->
                evaluateInfixExpression evE Left op Right st = (Err msg, st2)).
    { intros op Hop. unfold evaluateInfixExpression.
      destruct Left; try congruence; destruct Right; try congruence;
        cbv beta iota; rewrite Hop; unfold bind; rewrite El, Er; reflexivity. }
    split; apply H; reflexivity.
Qed.

End MoreOperators.

(** ["a" < "b"] is an error: the ordering operators do not compare Strings. *)
Lemma ordering_needs_numbers_witness :
  applyOperator (lib := plainLib) "<" (Some (VString "a")) (Some (VString "b"))
  = Err "operador '<' no soportado para tipos *evaluator.String y *evaluator.String".
Proof.
  apply (proj2 (proj2 (ordering_needs_numbers (lib := plainLib) (VString "a") (VString "b")))
           eq_refl "<").
  left. reflexivity.
Defined.

(** [false && (1 / 0)] is the division error, not [false]. *)
Lemma logic_operators_evaluate_both_operands_witness :
  evaluateExpression (lib := plainLib) 3
    (InfixExpression (BooleanLiteral false) "&&" (InfixExpression (int 1) "/" (int 0)))
    (NewEvaluator [])
  = (Err divisionByZero, NewEvaluator []).
Proof.
  apply (proj2 (logic_operators_evaluate_both_operands (lib := plainLib)
                  (evaluateExpression (lib := plainLib) 2)
                  (BooleanLiteral false) (InfixExpression (int 1) "/" (int 0))
                  (NewEvaluator []) (VBoolean false) (NewEvaluator [])
                  ltac:(discriminate) ltac:(discriminate) eq_refl)
           divisionByZero (NewEvaluator []) eq_refl).
Defined.

(** *** Integer arithmetic *)

Ltac int64 :=
  change (2 ^ 63)%Z with 9223372036854775808%Z in *;
  change (2 ^ 64)%Z with 18446744073709551616%Z in *.

Lemma wrap64_range z : (- 2 ^ 63 <= Go.wrap64 z < 2 ^ 63)%Z.
Proof.
  unfold Go.wrap64. pose proof (Z.mod_pos_bound (z + 2 ^ 63) (2 ^ 64) eq_refl).
  int64. generalize dependent ((z + 9223372036854775808) mod 18446744073709551616)%Z.
  intros. lia.
Qed.

Lemma wrap64_small z : (- 2 ^ 63 <= z < 2 ^ 63)%Z -> Go.wrap64 z = z.
Proof. intros H. unfold Go.wrap64. int64. rewrite Z.mod_small by lia. lia. Qed.

Lemma wrap64_add_wrap64 x y : Go.wrap64 (Go.wrap64 x + y) = Go.wrap64 (x + y).
Proof.
  unfold Go.wrap64.
  replace ((x + 2 ^ 63) mod 2 ^ 64 - 2 ^ 63 + y + 2 ^ 63)%Z
    with ((x + 2 ^ 63) mod 2 ^ 64 + y)%Z by lia.
  rewrite Zplus_mod_idemp_l. f_equal. f_equal. lia.
Qed.

Lemma wrap64_opp_wrap64 x : Go.wrap64 (- Go.wrap64 x) = Go.wrap64 (- x).
Proof.
  unfold Go.wrap64.
  replace (- ((x + 2 ^ 63) mod 2 ^ 64 - 2 ^ 63) + 2 ^ 63)%Z
    with (2 ^ 64 - (x + 2 ^ 63) mod 2 ^ 64)%Z by (int64; lia).
  rewrite Zminus_mod_idemp_r. f_equal. f_equal. int64. lia.
Qed.

(** X4: the Integer operators [+], [-] and [*] are those of [int64]: the
    result is always within the 64-bit range, it is the exact sum, difference
    or product whenever that fits, and adding back what was subtracted gives
    the first operand again, also when the subtraction has wrapped around. *)
Theorem integer_arithmetic_is_int64 {lib : GoLib} (a b : Z) :
  exists s d p,
    applyOperator "+" (Some (VInteger a)) (Some (VInteger b)) = Ok (VInteger s) /\
    applyOperator "-" (Some (VInteger a)) (Some (VInteger b)) = Ok (VInteger d) /\
    applyOperator "*" (Some (VInteger a)) (Some (VInteger b)) = Ok (VInteger p) /\
    (- 2 ^ 63 <= s < 2 ^ 63)%Z /\ (- 2 ^ 63 <= d < 2 ^ 63)%Z /\ (- 2 ^ 63 <= p < 2 ^ 63)%Z /\
    ((- 2 ^ 63 <= a + b < 2 ^ 63)%Z -> s = (a + b)%Z) /\
    ((- 2 ^ 63 <= a - b < 2 ^ 63)%Z -> d = (a - b)%Z) /\
    ((- 2 ^ 63 <= a * b < 2 ^ 63)%Z -> p = (a * b)%Z) /\
    ((- 2 ^ 63 <= a < 2 ^ 63)%Z ->
     applyOperator "+" (Some (VInteger d)) (Some (VInteger b)) = Ok (VInteger a)).
Proof.
  exists (Go.wrap64 (a + b)), (Go.wrap64 (a - b)), (Go.wrap64 (a * b)).
  repeat split; try apply wrap64_range; try apply wrap64_small.
  intros Ha. change (Ok (VInteger (Go.wrap64 (Go.wrap64 (a - b) + b))) = Ok (VInteger a)).
  rewrite wrap64_add_wrap64. replace (a - b + b)%Z with a by lia.
  rewrite wrap64_small by exact Ha. reflexivity.
Qed.

(** [MaxInt64 + 1]: the sum wraps around to [MinInt64]. *)
Lemma integer_arithmetic_is_int64_witness :
  exists s d p,
    applyOperator (lib := plainLib) "+" (Some (VInteger (2 ^ 63 - 1))) (Some (VInteger 1))
    = Ok (VInteger s) /\
    applyOperator (lib := plainLib) "-" (Some (VInteger (2 ^ 63 - 1))) (Some (VInteger 1))
    = Ok (VInteger d) /\
    applyOperator (lib := plainLib) "*" (Some (VInteger (2 ^ 63 - 1))) (Some (VInteger 1))
    = Ok (VInteger p) /\
    (- 2 ^ 63 <= s < 2 ^ 63)%Z /\ (- 2 ^ 63 <= d < 2 ^ 63)%Z /\ (- 2 ^ 63 <= p < 2 ^ 63)%Z /\
    ((- 2 ^ 63 <= 2 ^ 63 - 1 + 1 < 2 ^ 63)%Z -> s = (2 ^ 63 - 1 + 1)%Z) /\
    ((- 2 ^ 63 <= 2 ^ 63 - 1 - 1 < 2 ^ 63)%Z -> d = (2 ^ 63 - 1 - 1)%Z) /\
    ((- 2 ^ 63 <= (2 ^ 63 - 1) * 1 < 2 ^ 63)%Z -> p = ((2 ^ 63 - 1) * 1)%Z) /\
    ((- 2 ^ 63 <= 2 ^ 63 - 1 < 2 ^ 63)%Z ->
     applyOperator (lib := plainLib) "+" (Some (VInteger d)) (Some (VInteger 1))
     = Ok (VInteger (2 ^ 63 - 1))).
Proof. exact (integer_arithmetic_is_int64 (lib := plainLib) (2 ^ 63 - 1) 1). Defined.

(** X5: the quotient of two Integers, the divisor not zero, is rounded
    toward zero: the remainder is smaller than the divisor in absolute value
    and has the sign of the dividend; the one quotient that does not fit,
    [MinInt64 / -1], wraps around to [MinInt64]. *)
Theorem integer_division_truncates {lib : GoLib} (a b : Z) :
  b <> 0%Z ->
  (- 2 ^ 63 <= a < 2 ^ 63)%Z ->
  exists q,
    applyOperator "/" (Some (VInteger a)) (Some (VInteger b)) = Ok (VInteger q) /\
    (- 2 ^ 63 <= q < 2 ^ 63)%Z /\
    (~ (a = (- 2 ^ 63)%Z /\ b = (-1)%Z) ->
     (Z.abs (a - q * b) < Z.abs b)%Z /\ (0 <= (a - q * b) * a)%Z) /\
    (a = (- 2 ^ 63)%Z -> b = (-1)%Z -> q = (- 2 ^ 63)%Z).
Proof.
  intros Hb Ha. exists (Go.wrap64 (Z.quot a b)). split; [| split; [| split]].
  - simpl. destruct (Z.eqb_spec b 0); [contradiction | reflexivity].
  - apply wrap64_range.
  - intros Hov.
    pose proof (Z.quot_rem' a b) as E.
    pose proof (Z.rem_bound_abs a b Hb) as Hr.
    pose proof (Z.rem_sign_mul a b Hb) as Hs.
    assert (Hq : (- 2 ^ 63 <= Z.quot a b < 2 ^ 63)%Z).
    { destruct (Z.eq_dec (Z.abs b) 1%Z) as [E1 | N1].
      - assert (b = 1 \/ b = -1)%Z as [-> | ->] by lia.
        + rewrite Z.quot_1_r. exact Ha.
        + change (-1)%Z with (Z.opp 1). rewrite Z.quot_opp_r, Z.quot_1_r by lia.
          change (Z.opp 1) with (-1)%Z in Hov. int64. lia.
      - destruct (Z.eq_dec a 0%Z) as [-> | Na]; [rewrite Z.quot_0_l by lia; int64; lia |].
        pose proof (Z.quot_abs a b Hb) as Habs.
        assert (Z.abs a ÷ Z.abs b < Z.abs a)%Z by (apply Z.quot_lt; lia).
        int64. lia. }
    rewrite wrap64_small by exact Hq.
    replace (a - a ÷ b * b)%Z with (Z.rem a b) by lia. split; [exact Hr | exact Hs].
  - intros -> ->. reflexivity.
Qed.

(** [-7 / 2] is [-3], with remainder [-1]. *)
Lemma integer_division_truncates_witness :
  exists q,
    applyOperator (lib := plainLib) "/" (Some (VInteger (-7))) (Some (VInteger 2))
    = Ok (VInteger q) /\
    (- 2 ^ 63 <= q < 2 ^ 63)%Z /\
    (~ ((-7)%Z = (- 2 ^ 63)%Z /\ 2%Z = (-1)%Z) ->
     (Z.abs (-7 - q * 2) < Z.abs 2)%Z /\ (0 <= (-7 - q * 2) * -7)%Z) /\
    ((-7)%Z = (- 2 ^ 63)%Z -> 2%Z = (-1)%Z -> q = (- 2 ^ 63)%Z).
Proof. apply (integer_division_truncates (-7) 2); [discriminate | lia]. Defined.

(** *** The prefix operators *)

Lemma evaluateExpression_Ok_not_nil {lib : GoLib} n exp st v st' :
  evaluateExpression n exp st = (Ok v, st') -> exp <> NilExpression.
Proof. intros E ->. destruct n; discriminate E. Qed.

Lemma evaluatePrefixExpression_operand evE op exp st v st' :
  exp <> NilExpression ->
  evE exp st = (Ok v, st') ->
  evaluatePrefixExpression evE op exp st
  = (if String.eqb op "!" then ret (VBoolean (negb (isTruthy (Some v))))
     else if String.eqb op "-" then
       match v with
       | VInteger num => ret (VInteger (Go.wrap64 (- num)))
       | _ => fail ("operador '-' no soportado para tipo " ++ typeName (Some v))%string
       end
     else fail ("operador prefijo no soportado: " ++ op)%string) st'.
Proof.
  intros Hn E. unfold evaluatePrefixExpression.
  destruct exp; try congruence; unfold bind; rewrite E; reflexivity.
Qed.

Lemma evaluateExpression_prefix {lib : GoLib} n op exp st :
  evaluateExpression (S n) (PrefixExpression op exp) st
  = evaluatePrefixExpression (evaluateExpression n) op exp st.
Proof. reflexivity. Qed.

(** X6: [!e] is the Boolean negation of the truthiness of [e], so [!!e] is
    its truthiness; [-e] is defined on Integers only (a Float operand is an
    error), and [-(-e)] is [e] again for every [int64], [MinInt64], which is
    its own negative, included. *)
Theorem prefix_operators {lib : GoLib} n exp st v st' :
  evaluateExpression n exp st = (Ok v, st') ->
  evaluateExpression (S n) (PrefixExpression "!" exp) st
  = (Ok (VBoolean (negb (isTruthy (Some v)))), st') /\
  evaluateExpression (S (S n)) (PrefixExpression "!" (PrefixExpression "!" exp)) st
  = (Ok (VBoolean (isTruthy (Some v))), st') /\
  (forall i, v = VInteger i -> (- 2 ^ 63 <= i < 2 ^ 63)%Z ->
     evaluateExpression (S (S n)) (PrefixExpression "-" (PrefixExpression "-" exp)) st
     = (Ok (VInteger i), st')) /\
  ((forall i, v <> VInteger i) ->
     evaluateExpression (S n) (PrefixExpression "-" exp) st
     = (Err ("operador '-' no soportado para tipo " ++ typeName (Some v))%string, st')).
Proof.
  intros E. pose proof (evaluateExpression_Ok_not_nil n exp st v st' E) as Hn.
  assert (Hnot : evaluateExpression (S n) (PrefixExpression "!" exp) st
                 = (Ok (VBoolean (negb (isTruthy (Some v)))), st')).
  { rewrite evaluateExpression_prefix.
    rewrite (evaluatePrefixExpression_operand _ "!" exp st v st' Hn E). reflexivity. }
  split; [exact Hnot | split; [| split]].
  - rewrite evaluateExpression_prefix.
    rewrite (evaluatePrefixExpression_operand (evaluateExpression (S n)) "!"
               (PrefixExpression "!" exp) st _ st' ltac:(discriminate) Hnot).
    simpl. rewrite Bool.negb_involutive. reflexivity.
  - intros i -> Hi.
    assert (Hneg : evaluateExpression (S n) (PrefixExpression "-" exp) st
                   = (Ok (VInteger (Go.wrap64 (- i))), st')).
    { rewrite evaluateExpression_prefix.
      rewrite (evaluatePrefixExpression_operand _ "-" exp st _ st' Hn E). reflexivity. }
    rewrite evaluateExpression_prefix.
    rewrite (evaluatePrefixExpression_operand (evaluateExpression (S n)) "-"
               (PrefixExpression "-" exp) st _ st' ltac:(discriminate) Hneg).
    simpl. rewrite wrap64_opp_wrap64, Z.opp_involutive, wrap64_small by exact Hi.
    reflexivity.
  - intros Hv.
    rewrite evaluateExpression_prefix.
    rewrite (evaluatePrefixExpression_operand _ "-" exp st v st' Hn E).
    destruct v; try reflexivity. exfalso. exact (Hv _ eq_refl).
Qed.

(** [-(-MinInt64)] is [MinInt64], and [-1.5] is an error. *)
Lemma prefix_operators_witness :
  evaluateExpression (lib := plainLib) 3
    (PrefixExpression "-" (PrefixExpression "-" (int (- 2 ^ 63)))) (NewEvaluator [])
  = (Ok (VInteger (- 2 ^ 63)), NewEvaluator []) /\
  evaluateExpression (lib := plainLib) 2
    (PrefixExpression "-" (NumberLiteral (Float64 1.5))) (NewEvaluator [])
  = (Err "operador '-' no soportado para tipo *evaluator.Float", NewEvaluator []).
Proof.
  split.
  - apply (proj1 (proj2 (proj2 (prefix_operators (lib := plainLib) 1 (int (- 2 ^ 63))
                                  (NewEvaluator []) _ _ eq_refl)))
             (- 2 ^ 63)%Z eq_refl).
    split; [reflexivity | reflexivity].
  - apply (proj2 (proj2 (proj2 (prefix_operators (lib := plainLib) 1
                                  (NumberLiteral (Float64 1.5))
                                  (NewEvaluator []) _ _ eq_refl)))).
    intros i. discriminate.
Defined.

(** ** Indexing and the list methods *)

Lemma String_get_in_range (s : string) (i : nat) :
  i < String.length s -> exists b, String.get i s = Some b.
Proof.
  revert i. induction s as [| c s IH]; intros i Hi; simpl in *; [lia |].
  destruct i as [| i]; [eauto |]. apply IH. lia.
Qed.

(** X7: [left[index]] on a List, with an Integer index, is the element at
    that position when [0 <= index < len], and the error [index out of
    bounds] for every other index, a negative one included; it is what the
    list method [Get] returns too.  On a String it is, within the same
    bounds, the String made of the byte at that position, read as a code
    point (so one or two bytes long).  No index expression changes the
    state. *)
Theorem index_is_bounds_checked {lib : GoLib} evS (i : Z) (st : State) :
  (forall l,
     let items := default [] (lists st !! l) in
     indexValue (VList l) (VInteger i) st
     = callBuiltin evS (builtin.List_Get l) [VInteger i] st /\
     ((0 <= i < Z.of_nat (length items))%Z ->
      exists item, items !! Z.to_nat i = Some item /\
                   indexValue (VList l) (VInteger i) st = (Ok item, st)) /\
     ((i < 0 \/ Z.of_nat (length items) <= i)%Z ->
      indexValue (VList l) (VInteger i) st = (Err "index out of bounds", st))) /\
  (forall s,
     ((0 <= i < Z.of_nat (String.length s))%Z ->
      exists b, String.get (Z.to_nat i) s = Some b /\
                indexValue (VString s) (VInteger i) st
                = (Ok (VString (Go.string_of_byte b)), st) /\
                1 <= String.length (Go.string_of_byte b) <= 2) /\
     ((i < 0 \/ Z.of_nat (String.length s) <= i)%Z ->
      indexValue (VString s) (VInteger i) st = (Err "index out of bounds", st))).
Proof.
  split.
  - intros l items. split; [reflexivity | split].
    + intros Hi. destruct (lookup_lt_is_Some_2 items (Z.to_nat i)) as [item Hitem]; [lia |].
      exists item. split; [exact Hitem |].
      unfold indexValue, bind, Items. fold items.
      destruct (Z.ltb_spec i 0); [lia |]. destruct (Z.leb_spec (Z.of_nat (length items)) i); [lia |].
      simpl. rewrite Hitem. reflexivity.
    + intros Hi. unfold indexValue, bind, Items. fold items.
      destruct (Z.ltb_spec i 0); [reflexivity |].
      destruct (Z.leb_spec (Z.of_nat (length items)) i); [reflexivity | lia].
  - intros s. split.
    + intros Hi. destruct (String_get_in_range s (Z.to_nat i)) as [b Hb]; [lia |].
      exists b. split; [exact Hb | split].
      * unfold indexValue.
        destruct (Z.ltb_spec i 0); [lia |].
        destruct (Z.leb_spec (Z.of_nat (String.length s)) i); [lia |].
        simpl. unfold Go.byte_at. rewrite Hb. reflexivity.
      * unfold Go.string_of_byte. destruct (N_of_ascii b <? 128)%N; simpl; lia.
    + intros Hi. unfold indexValue.
      destruct (Z.ltb_spec i 0); [reflexivity |].
      destruct (Z.leb_spec (Z.of_nat (String.length s)) i); [reflexivity | lia].
Qed.

(** On the list [[10, 20]]: the indices 2 and -1 are out of bounds. *)
Lemma index_is_bounds_checked_witness :
  let st := set_lists [[VInteger 10; VInteger 20]] (NewEvaluator []) in
  indexValue (VList 0) (VInteger 2) st = (Err "index out of bounds", st) /\
  indexValue (VList 0) (VInteger (-1)) st = (Err "index out of bounds", st).
Proof.
  intros st. split.
  - apply (proj2 (proj2 (proj1 (index_is_bounds_checked (lib := plainLib)
                                  (evaluateStatement (lib := plainLib) 0) 2 st) 0))).
    right. simpl. lia.
  - apply (proj2 (proj2 (proj1 (index_is_bounds_checked (lib := plainLib)
                                  (evaluateStatement (lib := plainLib) 0) (-1) st) 0))).
    left. lia.
Defined.


(** X8: after [list.Append(v)] on a list of [n] elements, [list.Len()] and
    [len(list)] are [n + 1], [list.Get(n)] is [v], every element that was
    in the list is still at its position, and no other list has changed. *)
Theorem append_then_get_and_len {lib : GoLib} evS l v st items :
  lists st !! l = Some items ->
  exists st',
    callBuiltin evS (builtin.List_Append l) [v] st = (Ok VNull, st') /\
    callBuiltin evS (builtin.List_Len l) [] st'
    = (Ok (VInteger (Z.of_nat (length items) + 1)), st') /\
    callBuiltin evS builtin.len [VList l] st'
    = (Ok (VInteger (Z.of_nat (length items) + 1)), st') /\
    callBuiltin evS (builtin.List_Get l) [VInteger (Z.of_nat (length items))] st'
    = (Ok v, st') /\
    (forall i item, items !! i = Some item ->
       callBuiltin evS (builtin.List_Get l) [VInteger (Z.of_nat i)] st' = (Ok item, st')) /\
    (forall l', l' <> l -> lists st' !! l' = lists st !! l').
Proof.
  intros Hl. eexists. split; [reflexivity |].
  assert (Hnew : lists (set_lists (<[l := default [] (lists st !! l) ++ [v]]> (lists st)) st) !! l
                 = Some (items ++ [v])).
  { simpl. rewrite Hl. simpl. apply list_lookup_insert_eq. eapply lookup_lt_Some, Hl. }
  assert (Hget : forall i item, (items ++ [v]) !! i = Some item ->
            callBuiltin evS (builtin.List_Get l) [VInteger (Z.of_nat i)]
              (set_lists (<[l := default [] (lists st !! l) ++ [v]]> (lists st)) st)
            = (Ok item, set_lists (<[l := default [] (lists st !! l) ++ [v]]> (lists st)) st)).
  { intros i item Hi. unfold callBuiltin, bind, Items. rewrite Hnew.
    change (default [] (Some (items ++ [v]))) with (items ++ [v]).
    pose proof (lookup_lt_Some _ _ _ Hi) as Hlt.
    assert (E1 : (Z.of_nat i <? 0)%Z = false) by lia.
    assert (E2 : (Z.of_nat (length (items ++ [v])) <=? Z.of_nat i)%Z = false) by lia.
    rewrite E1, E2. simpl. rewrite Nat2Z.id, Hi. reflexivity. }
  repeat split.
  - unfold callBuiltin, bind, Items. rewrite Hnew.
    change (default [] (Some (items ++ [v]))) with (items ++ [v]). rewrite length_app.
    replace (Z.of_nat (length items + length [v])) with (Z.of_nat (length items) + 1)%Z
      by (simpl length; lia).
    reflexivity.
  - unfold callBuiltin, bind, Items. rewrite Hnew.
    change (default [] (Some (items ++ [v]))) with (items ++ [v]). rewrite length_app.
    replace (Z.of_nat (length items + length [v])) with (Z.of_nat (length items) + 1)%Z
      by (simpl length; lia).
    reflexivity.
  - apply Hget. rewrite lookup_app_r by lia. rewrite Nat.sub_diag. reflexivity.
  - intros i item Hi. apply Hget. apply lookup_app_l_Some. exact Hi.
  - intros l' Hne. simpl. apply list_lookup_insert_ne. congruence.
Qed.

(** On the empty list: [Append(7)], then [Len()] is 1 and [Get(0)] is 7. *)
Lemma append_then_get_and_len_witness :
  let st := set_lists [[]] (NewEvaluator []) in
  exists st',
    callBuiltin (lib := plainLib) (evaluateStatement (lib := plainLib) 0)
      (builtin.List_Append 0) [VInteger 7] st = (Ok VNull, st') /\
    callBuiltin (lib := plainLib) (evaluateStatement (lib := plainLib) 0)
      (builtin.List_Len 0) [] st' = (Ok (VInteger 1), st') /\
    callBuiltin (lib := plainLib) (evaluateStatement (lib := plainLib) 0)
      (builtin.List_Get 0) [VInteger 0] st' = (Ok (VInteger 7), st').
Proof.
  intros st.
  destruct (append_then_get_and_len (lib := plainLib)
              (evaluateStatement (lib := plainLib) 0) 0 (VInteger 7) st [] eq_refl)
    as (st' & Ha & Hlen & _ & Hget & _).
  exists st'. split; [exact Ha | split; [exact Hlen | exact Hget]].
Defined.

(** ** Environments *)

(** A lookup that has found a value finds it again in a store that was
    extended, with any larger bound on the length of the chain. *)
Lemma lookupChain_Some_mono d d' es es' (e : Addr) x v :
  (forall (a : Addr) scope, es !! a = Some scope -> variables scope !! x = None ->
     exists scope', es' !! a = Some scope' /\ variables scope' !! x = None /\
                    parent scope' = parent scope) ->
  (forall (a : Addr) scope w, es !! a = Some scope -> variables scope !! x = Some w ->
     exists scope', es' !! a = Some scope' /\ variables scope' !! x = Some w) ->
  d <= d' ->
  lookupChain d es e x = Some v -> lookupChain d' es' e x = Some v.
Proof.
  intros Hnone Hsome. revert d' e. induction d as [| d IH]; intros d' e Hd; [discriminate |].
  destruct d' as [| d']; [lia |]. cbn [lookupChain].
  destruct (es !! e) as [scope |] eqn:Ee; [| discriminate].
  destruct (variables scope !! x) as [w |] eqn:Ex.
  - intros [= ->]. destruct (Hsome e scope v Ee Ex) as (scope' & -> & ->). reflexivity.
  - destruct (Hnone e scope Ee Ex) as (scope' & -> & -> & ->).
    destruct (parent scope) as [p |]; [| discriminate]. apply IH. lia.
Qed.

(** In a store whose parents are older, a chain that starts below the bound
    is followed to its end. *)
Lemma lookupChain_enough es x d d' (e : Addr) :
  olderParents es -> e < d -> e < d' -> lookupChain d es e x = lookupChain d' es e x.
Proof.
  intros Hop. revert d' e. induction d as [| d IH]; intros d' e Hd Hd'; [lia |].
  destruct d' as [| d']; [lia |]. cbn [lookupChain].
  destruct (es !! e) as [scope |] eqn:Ee; [| reflexivity].
  destruct (variables scope !! x); [reflexivity |].
  destruct (parent scope) as [p |] eqn:Ep; [| reflexivity].
  pose proof (Hop e scope p Ee Ep). apply IH; lia.
Qed.

(** What is looked up from an environment depends on the environments that
    are not younger than it only. *)
Lemma lookupChain_older es es' x d (e : Addr) :
  olderParents es ->
  (forall a : Addr, a <= e -> es' !! a = es !! a) ->
  lookupChain d es' e x = lookupChain d es e x.
Proof.
  intros Hop. revert e. induction d as [| d IH]; intros e Hsame; [reflexivity |].
  cbn [lookupChain]. rewrite (Hsame e) by lia.
  destruct (es !! e) as [scope |] eqn:Ee; [| reflexivity].
  destruct (variables scope !! x); [reflexivity |].
  destruct (parent scope) as [p |] eqn:Ep; [| reflexivity].
  pose proof (Hop e scope p Ee Ep). apply IH. intros a Ha. apply Hsame. lia.
Qed.

Lemma EnvSet_Get_same (e : Addr) x v st :
  e < length (envs st) -> (EnvGet e x (EnvSet e x v st).2).1 = Ok (Some v).
Proof.
  intros He. unfold EnvGet, EnvSet. simpl. rewrite length_alter.
  destruct (lookup_lt_is_Some_2 _ _ He) as [scope Hs].
  destruct (length (envs st)) as [| n]; [lia |]. cbn [lookupChain].
  rewrite list_lookup_alter_eq, Hs. simpl. rewrite lookup_insert_eq. reflexivity.
Qed.

Lemma EnvSet_Get_other_name (e : Addr) x v st (e' : Addr) y :
  y <> x -> (EnvGet e' y (EnvSet e x v st).2).1 = (EnvGet e' y st).1.
Proof.
  intros Hy. unfold EnvGet, EnvSet. simpl. rewrite length_alter. f_equal.
  generalize (length (envs st)). intros d. revert e'.
  induction d as [| d IH]; intros e'; [reflexivity |]. cbn [lookupChain].
  unfold Addr in *. destruct (decide (e' = e)) as [-> | Hne].
  - rewrite list_lookup_alter_eq. destruct (envs st !! e) as [scope |]; [| reflexivity].
    simpl. rewrite lookup_insert_ne by congruence.
    destruct (variables scope !! y); [reflexivity |].
    destruct (parent scope); [apply IH | reflexivity].
  - rewrite list_lookup_alter_ne by congruence.
    destruct (envs st !! e') as [scope |]; [| reflexivity].
    destruct (variables scope !! y); [reflexivity |].
    destruct (parent scope); [apply IH | reflexivity].
Qed.

Lemma EnvSet_Get_older (e : Addr) x v st (e' : Addr) y :
  olderParents (envs st) -> e' < e ->
  (EnvGet e' y (EnvSet e x v st).2).1 = (EnvGet e' y st).1.
Proof.
  intros Hop He'. unfold EnvGet, EnvSet. simpl. rewrite length_alter. f_equal.
  apply lookupChain_older; [exact Hop |].
  intros a Ha. apply list_lookup_alter_ne. lia.
Qed.

(** X9: [Set] followed by [Get] of the same name on the same environment
    returns the value that was set; a [Get] of any other name, from any
    environment, returns what it returned before; and, in a store whose
    parents are older than their children, so does a [Get] of any name from
    an older environment: a binding is never seen from an enclosing scope. *)
Theorem Set_then_Get (e : Addr) x v st :
  let st' := (EnvSet e x v st).2 in
  (e < length (envs st) -> (EnvGet e x st').1 = Ok (Some v)) /\
  (forall (e' : Addr) y, y <> x -> (EnvGet e' y st').1 = (EnvGet e' y st).1) /\
  (olderParents (envs st) ->
   forall (e' : Addr) y, e' < e -> (EnvGet e' y st').1 = (EnvGet e' y st).1).
Proof.
  intros st'. split; [| split].
  - apply EnvSet_Get_same.
  - intros e' y. apply EnvSet_Get_other_name.
  - intros Hop e' y. apply EnvSet_Get_older. exact Hop.
Qed.

(** In the root environment of a new evaluator: after [x] is set to 1, [x]
    reads 1 and [len] is still the builtin. *)
Lemma Set_then_Get_witness :
  let st' := (EnvSet 0 "x" (VInteger 1) (NewEvaluator [])).2 in
  (EnvGet 0 "x" st').1 = Ok (Some (VInteger 1)) /\
  (EnvGet 0 "len" st').1 = (EnvGet 0 "len" (NewEvaluator [])).1.
Proof.
  pose proof (Set_then_Get 0 "x" (VInteger 1) (NewEvaluator [])) as (H1 & H2 & _).
  split; [apply H1; simpl; lia | apply H2; discriminate].
Defined.

(** X10: a new child environment is the youngest object of the store, which
    keeps its parents older than their children; every name reads from the
    child as it reads from the parent, and from every older environment as
    before; after a [Set] in the child the name reads as set from the child,
    and as before from the parent: the child shadows, the parent is not
    written. *)
Theorem child_environment_inherits_and_shadows (p : Addr) st :
  olderParents (envs st) -> p < length (envs st) ->
  let c := length (envs st) in
  let st' := (NewChildEnvironment p st).2 in
  (NewChildEnvironment p st).1 = Ok c /\
  olderParents (envs st') /\
  (forall y, (EnvGet c y st').1 = (EnvGet p y st).1) /\
  (forall (e : Addr) y, e < c -> (EnvGet e y st').1 = (EnvGet e y st).1) /\
  (forall x v,
     (EnvGet c x (EnvSet c x v st').2).1 = Ok (Some v) /\
     forall y, (EnvGet p y (EnvSet c x v st').2).1 = (EnvGet p y st).1).
Proof.
  intros Hop Hp c st'.
  assert (Hop' : olderParents (envs st')).
  { intros a scope q Ha Hq. unfold st' in Ha. simpl in Ha.
    destruct (lookup_app_Some (envs st) [{| variables := ∅; parent := Some p |}] a scope)
      as [[Hl | [Hge Hr]] _]; [exact Ha | apply (Hop a scope q Hl Hq) |].
    destruct (a - length (envs st)) as [| k] eqn:Ek; [| destruct k; discriminate Hr].
    injection Hr as <-. simpl in Hq. injection Hq as <-. lia. }
  assert (Hold : forall (e : Addr) y, e < c ->
            lookupChain (length (envs st')) (envs st') e y
            = lookupChain (length (envs st)) (envs st) e y).
  { intros e y He. unfold st'. simpl. rewrite length_app. simpl.
    rewrite (lookupChain_older (envs st) _ y _ e Hop).
    - apply lookupChain_enough; [exact Hop | fold c; lia | fold c; lia].
    - intros a Ha. apply lookup_app_l. fold c. lia. }
  split; [reflexivity | split; [exact Hop' | split; [| split]]].
  - intros y. unfold EnvGet. simpl. f_equal. rewrite length_app. simpl.
    rewrite Nat.add_1_r. simpl. rewrite list_lookup_middle by reflexivity. simpl.
    rewrite lookup_empty.
    transitivity (lookupChain (length (envs st')) (envs st') p y).
    + unfold st'. simpl. rewrite length_app. simpl.
      apply lookupChain_enough; [exact Hop' | fold c; lia | fold c; lia].
    + apply Hold. exact Hp.
  - intros e y He. unfold EnvGet. simpl. f_equal. apply (Hold e y He).
  - intros x v.
    split.
    + apply EnvSet_Get_same. unfold st'. simpl. rewrite length_app. simpl. fold c. lia.
    + intros y. rewrite (EnvSet_Get_older c x v st' p y Hop' Hp). unfold EnvGet. simpl.
      f_equal. apply (Hold p y Hp).
Qed.

Lemma olderParents_NewEvaluator input : olderParents (envs (NewEvaluator input)).
Proof.
  intros a scope p Ha Hp. destruct a as [| a]; simpl in Ha.
  - injection Ha as <-. discriminate Hp.
  - rewrite lookup_nil in Ha. discriminate Ha.
Qed.

(** In a child of the root environment of a new evaluator [len] is the
    builtin; after [len] is set to Null in the child it is Null there and
    still the builtin in the root. *)
Lemma child_environment_inherits_and_shadows_witness :
  let st' := (NewChildEnvironment 0 (NewEvaluator [])).2 in
  (EnvGet 1 "len" st').1 = (EnvGet 0 "len" (NewEvaluator [])).1 /\
  (EnvGet 1 "len" (EnvSet 1 "len" VNull st').2).1 = Ok (Some VNull) /\
  (EnvGet 0 "len" (EnvSet 1 "len" VNull st').2).1 = (EnvGet 0 "len" (NewEvaluator [])).1.
Proof.
  intros st'.
  destruct (child_environment_inherits_and_shadows 0 (NewEvaluator [])
              (olderParents_NewEvaluator []) ltac:(simpl; lia))
    as (_ & _ & Hchild & _ & Hset).
  split; [apply Hchild | split; [apply (Hset "len" VNull) | apply (Hset "len" VNull)]].
Defined.

(** ** Calls *)

Lemma set_envs_same st : set_envs (envs st) st = st.
Proof. destruct st; reflexivity. Qed.

(** What the loop over the parameters leaves in the environment of the
    call. *)
Lemma bindParameters_scope (funcEnv : Addr) params args st scope :
  envs st !! funcEnv = Some scope ->
  exists es' scope',
    bindParameters funcEnv params args st = (Ok tt, set_envs es' st) /\
    length es' = length (envs st) /\
    (forall a : Addr, a <> funcEnv -> es' !! a = envs st !! a) /\
    es' !! funcEnv = Some scope' /\
    parent scope' = parent scope /\
    (NoDup params -> forall i p a, params !! i = Some p -> args !! i = Some a ->
       variables scope' !! p = Some a) /\
    (forall y, y ∉ take (length args) params ->
       variables scope' !! y = variables scope !! y).
Proof.
  unfold Addr in *. revert args st scope.
  induction params as [| p params IH]; intros args st scope Hs.
  - exists (envs st), scope. destruct args; simpl; rewrite set_envs_same;
      repeat split; auto; intros _ i q a Hq; rewrite lookup_nil in Hq; discriminate.
  - destruct args as [| a args].
    + exists (envs st), scope. simpl. rewrite set_envs_same.
      repeat split; auto. intros _ i q b _ Hb. rewrite lookup_nil in Hb. discriminate.
    + destruct (IH args (set_envs (alter (bindVar p a) funcEnv (envs st)) st)
                  (bindVar p a scope)) as (es' & scope' & Hb & Hlen & Hother & Hs' & Hp & Hpos & Hfree).
      { simpl. rewrite list_lookup_alter_eq, Hs. reflexivity. }
      exists es', scope'. cbn [bindParameters]. unfold bind, EnvSet. unfold Addr in *. rewrite Hb.
      cbn [envs set_envs] in Hlen. rewrite length_alter in Hlen.
      cbn [envs set_envs] in Hother. cbn [parent bindVar] in Hp.
      cbn [variables bindVar] in Hfree. cbn [length take].
      repeat split; auto.
      * intros b Hne. rewrite Hother by exact Hne. apply list_lookup_alter_ne. congruence.
      * intros Hnd i q b Hq Hb'. apply NoDup_cons in Hnd as [Hnot Hnd].
        destruct i as [| i]; simpl in *.
        -- injection Hq as <-. injection Hb' as <-.
           rewrite Hfree; [apply lookup_insert_eq |].
           intros Hin. apply Hnot. apply elem_of_take in Hin as (j & Hj & _).
           eapply list_elem_of_lookup_2. exact Hj.
        -- eapply Hpos; eauto.
      * intros y Hy. apply not_elem_of_cons in Hy as [Hne Hy].
        rewrite Hfree by exact Hy. apply lookup_insert_ne. congruence.
Qed.

(** Arguments beyond the last parameter are not looked at. *)
Lemma bindParameters_take funcEnv params args :
  bindParameters funcEnv params (take (length params) args)
  = bindParameters funcEnv params args.
Proof.
  revert args. induction params as [| p params IH]; intros [| a args]; simpl;
    try reflexivity. rewrite IH. reflexivity.
Qed.

(** A call runs the statements of the body from [callEntry] and restores
    the current environment of the caller. *)
Lemma callZyloFunction_entry ev fn args st :
  callZyloFunction ev fn args st
  = (let (r, st') := blockStatements ev (fnBody fn) VNull (callEntry fn args st) in
     (r, set_env (env st) st')).
Proof.
  destruct (bindParameters_scope (length (envs st)) (fnParameters fn) args
              (NewChildEnvironment (fnEnv fn) st).2
              {| variables := ∅; parent := Some (fnEnv fn) |})
    as (es' & scope' & Hb & _).
  { simpl. apply list_lookup_middle. reflexivity. }
  unfold callZyloFunction, callEntry, bind. cbn [NewChildEnvironment fst snd].
  simpl in Hb. rewrite Hb. cbn [snd].
  unfold withEnv, evaluateBlockStatement, bind, getEnv, NewChildEnvironment, withEnv. simpl.
  unfold enterBlock. simpl.
  destruct (blockStatements ev (fnBody fn) VNull _) as [r st']. reflexivity.
Qed.

(** The environments of [callEntry]: the one of the block of the body, whose
    parent is the one of the call, whose parent is the one the function was
    defined in; the older environments are those of the caller's store. *)
Lemma callEntry_envs fn args st :
  exists scope',
    env (callEntry fn args st) = S (length (envs st)) /\
    length (envs (callEntry fn args st)) = S (S (length (envs st))) /\
    envs (callEntry fn args st) !! S (length (envs st))
    = Some {| variables := ∅; parent := Some (length (envs st)) |} /\
    envs (callEntry fn args st) !! length (envs st) = Some scope' /\
    parent scope' = Some (fnEnv fn) /\
    (forall a : Addr, a < length (envs st) ->
       envs (callEntry fn args st) !! a = envs st !! a) /\
    (NoDup (fnParameters fn) -> forall i p a,
       fnParameters fn !! i = Some p -> args !! i = Some a ->
       variables scope' !! p = Some a) /\
    (forall y, y ∉ take (length args) (fnParameters fn) -> variables scope' !! y = None).
Proof.
  destruct (bindParameters_scope (length (envs st)) (fnParameters fn) args
              (NewChildEnvironment (fnEnv fn) st).2
              {| variables := ∅; parent := Some (fnEnv fn) |})
    as (es' & scope' & Hb & Hlen & Hother & Hs' & Hp & Hpos & Hfree).
  { simpl. apply list_lookup_middle. reflexivity. }
  exists scope'. unfold callEntry. rewrite Hb. simpl in *.
  rewrite length_app in Hlen. simpl in Hlen.
  unfold Addr in *.
  repeat split.
  - lia.
  - rewrite length_app. simpl. lia.
  - rewrite lookup_app_r by lia. replace (S (length (envs st)) - length es') with 0 by lia.
    reflexivity.
  - rewrite lookup_app_l by lia. exact Hs'.
  - exact Hp.
  - intros a Ha. rewrite lookup_app_l by lia. rewrite Hother by lia.
    apply lookup_app_l. exact Ha.
  - exact Hpos.
  - intros y Hy. rewrite Hfree by exact Hy. apply lookup_empty.
Qed.

(** A name is looked up, at the start of the body, in the environment of
    the call and then from the environment the function was defined in. *)
Lemma callEntry_lookup fn args st y :
  exists scope',
    envs (callEntry fn args st) !! length (envs st) = Some scope' /\
    (forall a : Addr, a < length (envs st) ->
       envs (callEntry fn args st) !! a = envs st !! a) /\
    (NoDup (fnParameters fn) -> forall i p a,
       fnParameters fn !! i = Some p -> args !! i = Some a ->
       variables scope' !! p = Some a) /\
    (forall y, y ∉ take (length args) (fnParameters fn) -> variables scope' !! y = None) /\
    lookupVar y (callEntry fn args st)
    = match variables scope' !! y with
      | Some value => Some value
      | None => lookupChain (length (envs st)) (envs (callEntry fn args st)) (fnEnv fn) y
      end.
Proof.
  destruct (callEntry_envs fn args st)
    as (scope' & Henv & Hlen & Hblock & Hcall & Hparent & Hold & Hpos & Hfree).
  exists scope'. repeat split; try assumption.
  unfold lookupVar. remember (callEntry fn args st) as entry eqn:E. clear E.
  rewrite Henv, Hlen. cbn [lookupChain]. unfold Addr in *. rewrite Hblock. cbn [variables parent].
  rewrite lookup_empty, Hcall, Hparent. reflexivity.
Qed.

(** The binding of the parameters does not look at the current
    environment. *)
Lemma bindParameters_set_env funcEnv params args a st :
  bindParameters funcEnv params args (set_env a st)
  = (Ok tt, set_env a (bindParameters funcEnv params args st).2).
Proof.
  revert args st. induction params as [| p params IH]; intros [| arg args] st;
    try reflexivity.
  cbn [bindParameters]. unfold bind, EnvSet. cbv beta iota.
  change (set_envs (alter (bindVar p arg) funcEnv (envs (set_env a st))) (set_env a st))
    with (set_env a (set_envs (alter (bindVar p arg) funcEnv (envs st)) st)).
  apply IH.
Qed.

Lemma callEntry_set_env fn args a st : callEntry fn args (set_env a st) = callEntry fn args st.
Proof.
  unfold callEntry.
  change (NewChildEnvironment (fnEnv fn) (set_env a st)).2
    with (set_env a (NewChildEnvironment (fnEnv fn) st).2).
  change (length (envs (set_env a st))) with (length (envs st)).
  rewrite bindParameters_set_env. reflexivity.
Qed.

(** X11: a call never fails for the number of its arguments: it runs the
    body in a new environment in which the parameters (when they are
    distinct) are bound by position to the arguments there are; the
    arguments beyond the last parameter are dropped, and a parameter beyond
    the last argument is left unbound in that environment.  A bound method
    is called in the same way, with [this] as one more, first, parameter,
    bound to the instance. *)
Theorem call_binds_by_position ev fn args st :
  callZyloFunction ev fn args st
  = (let (r, st') := blockStatements ev (fnBody fn) VNull (callEntry fn args st) in
     (r, set_env (env st) st')) /\
  callZyloFunction ev fn (take (length (fnParameters fn)) args) st
  = callZyloFunction ev fn args st /\
  (NoDup (fnParameters fn) ->
   forall i p,
     fnParameters fn !! i = Some p ->
     (forall a, args !! i = Some a -> lookupVar p (callEntry fn args st) = Some a) /\
     (args !! i = None ->
      exists scope,
        envs (callEntry fn args st) !! length (envs st) = Some scope /\
        variables scope !! p = None)) /\
  (forall instance,
     callBoundMethod ev instance fn args st
     = callZyloFunction ev
         {| fnName := fnName fn; fnParameters := "this" :: fnParameters fn;
            fnBody := fnBody fn; fnEnv := fnEnv fn |}
         (VInstance instance :: args) st).
Proof.
  split; [apply callZyloFunction_entry | split; [| split]].
  - unfold callZyloFunction, bind, NewChildEnvironment. cbv beta iota.
    rewrite bindParameters_take. reflexivity.
  - intros Hnd i p Hp.
    destruct (callEntry_lookup fn args st p) as (scope' & Hcall & Hold & Hpos & Hfree & Hget).
    split.
    + intros a Ha. rewrite Hget, (Hpos Hnd i p a Hp Ha). reflexivity.
    + intros Ha. exists scope'. split; [exact Hcall |]. apply Hfree.
      intros Hin. apply elem_of_take in Hin as (j & Hj & Hlt).
      apply lookup_ge_None in Ha.
      assert (i = j) by (eapply NoDup_lookup; eauto). lia.
  - intros instance. reflexivity.
Qed.

(** [f(1, 2)] for [func f(a) { a }] returns 1. *)
Lemma call_binds_by_position_witness :
  let fn := {| fnName := "f"; fnParameters := ["a"];
               fnBody := [ExpressionStatement (Identifier "a")]; fnEnv := 0 |} in
  lookupVar "a" (callEntry fn [VInteger 1; VInteger 2] (NewEvaluator [])) = Some (VInteger 1) /\
  callZyloFunction (evaluateStatement (lib := plainLib) 2) fn [VInteger 1; VInteger 2]
    (NewEvaluator [])
  = callZyloFunction (evaluateStatement (lib := plainLib) 2) fn [VInteger 1] (NewEvaluator []).
Proof.
  intros fn.
  pose proof (call_binds_by_position (evaluateStatement (lib := plainLib) 2) fn
                [VInteger 1; VInteger 2] (NewEvaluator [])) as (_ & Htake & Hpos & _).
  split.
  - apply (proj1 (Hpos ltac:(repeat constructor; set_solver) 0 "a" eq_refl)). reflexivity.
  - symmetry. exact Htake.
Defined.

(** X12: functions are lexically scoped.  A call does not depend on the
    current environment of its caller, which it only restores; a name that
    is not a bound parameter is looked up, at the start of the body, from
    the environment the function was defined in: it reads what it reads
    there, and in a store whose parents are older than their children it is
    undefined when it is undefined there. *)
Theorem call_is_lexically_scoped ev fn args st :
  (forall a,
     callZyloFunction ev fn args (set_env a st)
     = (let (r, st') := callZyloFunction ev fn args st in (r, set_env a st'))) /\
  (forall y v,
     y ∉ take (length args) (fnParameters fn) ->
     (EnvGet (fnEnv fn) y st).1 = Ok (Some v) ->
     lookupVar y (callEntry fn args st) = Some v) /\
  (olderParents (envs st) -> fnEnv fn < length (envs st) ->
   forall y,
     y ∉ take (length args) (fnParameters fn) ->
     Ok (lookupVar y (callEntry fn args st)) = (EnvGet (fnEnv fn) y st).1).
Proof.
  split; [| split].
  - intros a. rewrite !callZyloFunction_entry.
    rewrite callEntry_set_env.
    destruct (blockStatements ev (fnBody fn) VNull (callEntry fn args st)) as [r st'].
    reflexivity.
  - intros y v Hy Hget.
    destruct (callEntry_lookup fn args st y) as (scope' & Hcall & Hold & Hpos & Hfree & ->).
    rewrite (Hfree y Hy).
    unfold EnvGet in Hget. simpl in Hget. injection Hget as Hget.
    eapply lookupChain_Some_mono; [| | | exact Hget]; [| | lia].
    + intros a scope Ha Hx. exists scope. rewrite Hold by (eapply lookup_lt_Some; eauto). auto.
    + intros a scope w Ha Hx. exists scope. rewrite Hold by (eapply lookup_lt_Some; eauto). auto.
  - intros Hop Hvalid y Hy.
    destruct (callEntry_lookup fn args st y) as (scope' & Hcall & Hold & Hpos & Hfree & ->).
    rewrite (Hfree y Hy). unfold EnvGet. cbn [fst]. f_equal.
    apply lookupChain_older; [exact Hop |]. intros a Ha. apply Hold. lia.
Qed.

(** A function defined in the root environment reads [len] there, whatever
    the current environment of its caller. *)
Lemma call_is_lexically_scoped_witness :
  let fn := {| fnName := "f"; fnParameters := []; fnBody := []; fnEnv := 0 |} in
  lookupVar "len" (callEntry fn [] (NewEvaluator [])) = Some (VBuiltin builtin.len).
Proof.
  intros fn.
  apply (proj1 (proj2 (call_is_lexically_scoped (evaluateStatement (lib := plainLib) 0)
                         fn [] (NewEvaluator [])))).
  - simpl. apply not_elem_of_nil.
  - reflexivity.
Defined.


(** ** More on statements *)

(** X13: [return] does not leave the block it stands in: a return statement
    is evaluated as the expression statement of its value, the statements
    after it are evaluated too, and the value of a block, so of a function
    call, is the result of its last statement. *)
Theorem return_does_not_leave_the_block {lib : GoLib} n :
  (forall value st,
     evaluateStatement (S n) (ReturnStatement value) st
     = evaluateStatement (S n) (ExpressionStatement value) st) /\
  (forall pre stmt st st1 r st2,
     completes (evaluateStatement n) pre (enterBlock st) st1 ->
     evaluateStatement n stmt st1 = (r, st2) ->
     evaluateBlockStatement (evaluateStatement n) (pre ++ [stmt]) st
     = (r, set_env (env st) st2)) /\
  (forall value rest st v st1,
     evaluateExpression n value (enterBlock st) = (Ok v, st1) ->
     isSentinel v = false ->
     evaluateBlockStatement (evaluateStatement (S n)) (ReturnStatement value :: rest) st
     = (let (r, st') := blockStatements (evaluateStatement (S n)) rest v st1 in
        (r, set_env (env st) st'))).
Proof.
  split; [| split].
  - intros value st. destruct value; reflexivity.
  - intros pre stmt st st1 r st2 Hpre Hstmt.
    rewrite evaluateBlockStatement_enter.
    destruct (blockStatements_app (evaluateStatement n) pre [stmt] VNull _ _ Hpre)
      as [last' ->].
    cbn [blockStatements]. unfold bind. rewrite Hstmt.
    destruct r as [v | msg |]; [destruct v |..]; reflexivity.
  - intros value rest st v st1 Hv Hs.
    rewrite evaluateBlockStatement_enter. cbn [blockStatements]. unfold bind at 1.
    assert (E : evaluateStatement (S n) (ReturnStatement value) (enterBlock st) = (Ok v, st1)).
    { pose proof (evaluateExpression_Ok_not_nil n value _ _ _ Hv) as Hn.
      destruct value; try congruence; exact Hv. }
    rewrite E. destruct v; simpl in Hs; try discriminate; reflexivity.
Qed.

(** The block [{ return 1; return 2 }] has the value 2. *)
Lemma return_does_not_leave_the_block_witness :
  evaluateBlockStatement (evaluateStatement (lib := plainLib) 2)
    [ReturnStatement (int 1); ReturnStatement (int 2)] (NewEvaluator [])
  = (Ok (VInteger 2), set_env 0 (enterBlock (NewEvaluator []))).
Proof.
  apply (proj1 (proj2 (return_does_not_leave_the_block (lib := plainLib) 2))
           [ReturnStatement (int 1)] (ReturnStatement (int 2)) (NewEvaluator [])
           (enterBlock (NewEvaluator [])) (Ok (VInteger 2)) (enterBlock (NewEvaluator []))).
  - econstructor; [reflexivity | reflexivity | constructor].
  - reflexivity.
Defined.

(** X14: an assignment needs a defined identifier on its left: when the
    right side has been evaluated and the name is not defined in any
    enclosing scope, the result is the error [variable no definida] (the
    effects of the right side stay); when it is defined, the name is bound in
    the current environment and the value of the assignment is the value
    assigned; with any other expression on the left (a member, an index, ...)
    the assignment is an error and the right side is not evaluated. *)
Theorem assignment_needs_a_defined_identifier {lib : GoLib} n rhs st v st' :
  evaluateExpression n rhs st = (Ok v, st') ->
  (forall x, lookupVar x st' = None ->
     evaluateExpression (S n) (InfixExpression (Identifier x) "=" rhs) st
     = (Err ("variable no definida: " ++ x)%string, st')) /\
  (forall x old, lookupVar x st' = Some old ->
     evaluateExpression (S n) (InfixExpression (Identifier x) "=" rhs) st
     = (Ok v, writeVar x v st')) /\
  (forall target st0,
     target <> NilExpression -> (forall x, target <> Identifier x) ->
     evaluateExpression (S n) (InfixExpression target "=" rhs) st0
     = (Err "left side of assignment must be an identifier", st0)).
Proof.
  intros E. pose proof (evaluateExpression_Ok_not_nil n rhs st v st' E) as Hn.
  split; [| split].
  - intros x Hx. change (evaluateInfixExpression (evaluateExpression n) (Identifier x) "=" rhs st
                         = (Err ("variable no definida: " ++ x)%string, st')).
    unfold evaluateInfixExpression. destruct rhs; try congruence;
      cbn [String.eqb Ascii.eqb Bool.eqb]; cbv iota; unfold bind; rewrite E;
      unfold getEnv, EnvGet; fold (lookupVar x st'); rewrite Hx; reflexivity.
  - intros x old Hx. change (evaluateInfixExpression (evaluateExpression n) (Identifier x) "=" rhs st
                             = (Ok v, writeVar x v st')).
    unfold evaluateInfixExpression. destruct rhs; try congruence;
      cbn [String.eqb Ascii.eqb Bool.eqb]; cbv iota; unfold bind; rewrite E;
      unfold getEnv, EnvGet; fold (lookupVar x st'); rewrite Hx; reflexivity.
  - intros target st0 Ht Hid.
    change (evaluateInfixExpression (evaluateExpression n) target "=" rhs st0
            = (Err "left side of assignment must be an identifier", st0)).
    unfold evaluateInfixExpression.
    destruct target; try congruence; try (exfalso; eapply Hid; reflexivity);
      destruct rhs; try congruence; reflexivity.
Qed.

(** In a new evaluator [nope = 1] is an error, and so is [len.x = 1]. *)
Lemma assignment_needs_a_defined_identifier_witness :
  evaluateExpression (lib := plainLib) 2
    (InfixExpression (Identifier "nope") "=" (int 1)) (NewEvaluator [])
  = (Err "variable no definida: nope", NewEvaluator []) /\
  evaluateExpression (lib := plainLib) 2
    (InfixExpression (MemberExpression (Identifier "len") (Some "x")) "=" (int 1))
    (NewEvaluator [])
  = (Err "left side of assignment must be an identifier", NewEvaluator []).
Proof.
  pose proof (assignment_needs_a_defined_identifier (lib := plainLib) 1 (int 1)
                (NewEvaluator []) (VInteger 1) (NewEvaluator []) eq_refl) as (H1 & _ & H3).
  split.
  - apply (H1 "nope"). reflexivity.
  - apply H3; [discriminate | intros x; discriminate].
Defined.

Lemma programStatements_app {lib : GoLib} fuel pre rest st st1 :
  programStatements fuel pre st = (Ok tt, st1) ->
  programStatements fuel (pre ++ rest) st = programStatements fuel rest st1.
Proof.
  revert st. induction pre as [| s pre IH]; intros st H.
  - injection H as <-. reflexivity.
  - simpl in *. unfold bind in *.
    destruct (evaluateStatement fuel s st) as [[v | msg |] st0]; try discriminate.
    apply IH. exact H.
Qed.

(** X15: a program is evaluated statement by statement and stops at the
    first statement that fails, whose error is the result: the statements
    after it are not evaluated and [main] is not called.  When all
    statements have been evaluated and the name [main] is then bound to a
    function, that function is called without arguments and its error, if
    any, is the result; a [main] that is bound to anything else, or is not
    bound, is ignored. *)
Theorem program_stops_at_the_first_error {lib : GoLib} fuel pre st st1 :
  programStatements fuel pre st = (Ok tt, st1) ->
  (forall stmt post msg st2,
     evaluateStatement fuel stmt st1 = (Err msg, st2) ->
     EvaluateProgram fuel (pre ++ stmt :: post) st = (Err msg, st2)) /\
  (forall fn,
     lookupVar "main" st1 = Some (VFunction fn) ->
     EvaluateProgram fuel pre st
     = (let (r, st2) := callZyloFunction (evaluateStatement fuel) fn [] st1 in
        (match r with Ok _ => Ok tt | Err msg => Err msg | OutOfFuel => OutOfFuel end,
         st2))) /\
  ((forall fn, lookupVar "main" st1 <> Some (VFunction fn)) ->
   EvaluateProgram fuel pre st = (Ok tt, st1)).
Proof.
  intros Hpre. split; [| split].
  - intros stmt post msg st2 Hstmt. unfold EvaluateProgram, bind at 1.
    rewrite (programStatements_app fuel pre (stmt :: post) st st1 Hpre).
    cbn [programStatements]. unfold bind at 1. rewrite Hstmt. reflexivity.
  - intros fn Hmain. unfold EvaluateProgram, bind at 1. rewrite Hpre.
    unfold bind, getEnv, EnvGet. fold (lookupVar "main" st1). rewrite Hmain.
    destruct (callZyloFunction (evaluateStatement fuel) fn [] st1) as [[v | msg |] st2];
      reflexivity.
  - intros Hmain. unfold EvaluateProgram, bind at 1. rewrite Hpre.
    unfold bind, getEnv, EnvGet. fold (lookupVar "main" st1).
    destruct (lookupVar "main" st1) as [[] |] eqn:E; try reflexivity.
    exfalso. eapply Hmain. reflexivity.
Qed.

(** [var x = 1; nope; var y = 2] stops at [nope]: [y] is never bound. *)
Lemma program_stops_at_the_first_error_witness :
  EvaluateProgram (lib := plainLib) 2
    [VarStatement "x" (int 1); ExpressionStatement (Identifier "nope");
     VarStatement "y" (int 2)] (NewEvaluator [])
  = (Err "variable no definida: nope", writeVar "x" (VInteger 1) (NewEvaluator [])).
Proof.
  apply (proj1 (program_stops_at_the_first_error (lib := plainLib) 2
                  [VarStatement "x" (int 1)] (NewEvaluator [])
                  (writeVar "x" (VInteger 1) (NewEvaluator [])) eq_refl)
           (ExpressionStatement (Identifier "nope")) [VarStatement "y" (int 2)]).
  reflexivity.
Defined.

(** X16: a Continue value ends the current turn of a [while] loop: the
    statements of the body after the one that returned it are skipped, and
    the loop goes on with the next evaluation of its condition. *)
Theorem continue_starts_the_next_turn {lib : GoLib} n cond pre stmt post st cv st1 st2 st3 :
  evaluateExpression n cond st = (Ok cv, st1) ->
  isTruthy (Some cv) = true ->
  completes (evaluateStatement n) pre st1 st2 ->
  evaluateStatement n stmt st2 = (Ok VContinue, st3) ->
  forall m, n <= m ->
  evaluateStatement (S m) (WhileStatement cond (pre ++ stmt :: post)) st
  = evaluateStatement m (WhileStatement cond (pre ++ stmt :: post)) st3.
Proof.
  intros Hcond Hcv Hpre Hstmt m Hm.
  change (evaluateWhileStatement (evaluateStatement m) (evaluateExpression m)
            (evaluateStatement m (WhileStatement cond (pre ++ stmt :: post)))
            cond (pre ++ stmt :: post) st
          = evaluateStatement m (WhileStatement cond (pre ++ stmt :: post)) st3).
  unfold evaluateWhileStatement, bind at 1.
  rewrite (evaluateExpression_Ok_more_fuel n m cond st cv st1) by assumption.
  rewrite Hcv. cbn [negb]. unfold bind.
  rewrite (whileBody_app (evaluateStatement m) pre (stmt :: post) st1 st2)
    by (eapply completes_more_fuel; [| exact Hpre]; lia).
  cbn [whileBody]. unfold bind.
  rewrite (evaluateStatement_more_fuel n m stmt Hm st2 (Ok VContinue) st3 Hstmt)
    by discriminate.
  reflexivity.
Qed.

(** [while (true) { continue; var i = 5 }]: the turn ends at [continue]. *)
Lemma continue_starts_the_next_turn_witness :
  evaluateStatement (lib := plainLib) 2
    (WhileStatement (BooleanLiteral true) [ContinueStatement; VarStatement "i" (int 5)])
    (NewEvaluator [])
  = evaluateStatement (lib := plainLib) 1
      (WhileStatement (BooleanLiteral true) [ContinueStatement; VarStatement "i" (int 5)])
      (NewEvaluator []).
Proof.
  apply (continue_starts_the_next_turn (lib := plainLib) 1 (BooleanLiteral true) []
           ContinueStatement [VarStatement "i" (int 5)] (NewEvaluator [])
           (VBoolean true) (NewEvaluator []) (NewEvaluator []) (NewEvaluator [])
           eq_refl eq_refl (completes_nil _ _) eq_refl 1 (le_n 1)).
Defined.

(** X17: the builtin [try(f, g)], unlike the [try] statement, handles
    errors: it calls [f] without arguments and returns what [f] returns;
    when the call of [f] fails it calls [g] with the error message as a
    String, and then returns Null, or fails with the error of [g]. *)
Theorem try_builtin_catches {lib : GoLib} ev f g st :
  (forall v st1,
     callZyloFunction ev f [] st = (Ok v, st1) ->
     callBuiltin ev builtin.try [VFunction f; VFunction g] st = (Ok v, st1)) /\
  (forall msg st1,
     callZyloFunction ev f [] st = (Err msg, st1) ->
     (forall v st2,
        callZyloFunction ev g [VString msg] st1 = (Ok v, st2) ->
        callBuiltin ev builtin.try [VFunction f; VFunction g] st = (Ok VNull, st2)) /\
     (forall msg2 st2,
        callZyloFunction ev g [VString msg] st1 = (Err msg2, st2) ->
        callBuiltin ev builtin.try [VFunction f; VFunction g] st = (Err msg2, st2))).
Proof.
  split.
  - intros v st1 Hf. cbn [callBuiltin]. unfold onError. rewrite Hf. reflexivity.
  - intros msg st1 Hf. split.
    + intros v st2 Hg. cbn [callBuiltin]. unfold onError, bind. rewrite Hf, Hg. reflexivity.
    + intros msg2 st2 Hg. cbn [callBuiltin]. unfold onError, bind. rewrite Hf, Hg.
      reflexivity.
Qed.

(** [try(f, g)] for [func f() { nope }] and [func g(e) { }]: the error of
    [f] is caught and the value is Null. *)
Lemma try_builtin_catches_witness :
  let f := {| fnName := "f"; fnParameters := [];
              fnBody := [ExpressionStatement (Identifier "nope")]; fnEnv := 0 |} in
  let g := {| fnName := "g"; fnParameters := ["e"]; fnBody := []; fnEnv := 0 |} in
  (callBuiltin (lib := plainLib) (evaluateStatement (lib := plainLib) 2) builtin.try
     [VFunction f; VFunction g] (NewEvaluator [])).1
  = Ok VNull.
Proof.
  intros f g.
  destruct (try_builtin_catches (lib := plainLib) (evaluateStatement (lib := plainLib) 2)
              f g (NewEvaluator [])) as [_ H].
  edestruct H as [H1 _]; [reflexivity |].
  erewrite H1; [reflexivity | reflexivity].
Defined.


(** ** The current environment, once more *)

Lemma programStatements_env {lib : GoLib} fuel stmts st :
  env (programStatements fuel stmts st).2 = env st.
Proof.
  revert st. induction stmts as [| s stmts IH]; intros st; [reflexivity |].
  cbn [programStatements]. unfold bind.
  pose proof (evaluateStatement_env fuel s st) as E.
  destruct (evaluateStatement fuel s st) as [[v | msg |] st1]; simpl in *; try exact E.
  rewrite IH. exact E.
Qed.

Lemma callFunction_sameEnv {lib : GoLib} fuel fn args :
  Respects sameEnv (callFunction (evaluateStatement fuel) fn args).
Proof.
  apply respects_callFunction;
    try (intros; first [reflexivity | intro; reflexivity]).
  - intros st1 st2 st3 H12 H23. unfold sameEnv in *. congruence.
  - intros A a m _. apply withEnv_sameEnv.
  - apply (proj1 (evaluate_sameEnv fuel)).
Qed.

(** X18: whatever is evaluated, and however it ends, with a value, an error
    or a sentinel, the evaluator's current environment is afterwards the one
    it was before: a statement, an expression, the call of any function
    value, a whole program. *)
Theorem evaluation_restores_the_current_environment {lib : GoLib} fuel st :
  (forall stmt, env (evaluateStatement fuel stmt st).2 = env st) /\
  (forall exp, env (evaluateExpression fuel exp st).2 = env st) /\
  (forall fn args, env (callFunction (evaluateStatement fuel) fn args st).2 = env st) /\
  (forall program, env (EvaluateProgram fuel program st).2 = env st).
Proof.
  split; [| split; [| split]].
  - intros stmt. apply evaluateStatement_env.
  - intros exp. apply evaluateExpression_env.
  - intros fn args. apply callFunction_sameEnv.
  - intros program. unfold EvaluateProgram, bind.
    pose proof (programStatements_env fuel program st) as E.
    destruct (programStatements fuel program st) as [[[] | msg |] st1]; simpl in *;
      try exact E.
    destruct (lookupChain (length (envs st1)) (envs st1) (env st1) "main") as [[] |];
      try exact E.
    pose proof (callFunction_sameEnv fuel (VFunction fn) [] st1) as E1.
    unfold sameEnv, callFunction in E1.
    destruct (callZyloFunction (evaluateStatement fuel) fn [] st1) as [[v | msg |] st2];
      simpl in *; congruence.
Qed.

(** ** The input builtins *)

(** The lines that [read.int] rejects are answered one by one. *)
Lemma readInt_rejected {lib : GoLib} bad rest output :
  Forall (fun line => strconv_Atoi (strings_TrimSpace line) = None) bad ->
  readInt (bad ++ rest) output
  = readInt rest
      (output ++ concat (map (fun _ =>
         [Prompt; Message "❌ Error: no es un número válido, por favor intenta de nuevo."])
         bad)).
Proof.
  intros Hbad. revert output. induction Hbad as [| line bad Hline Hbad IH]; intros output.
  - simpl. rewrite app_nil_r. reflexivity.
  - cbn [app readInt]. rewrite Hline, IH. cbn [map concat]. rewrite <- app_assoc.
    reflexivity.
Qed.

(** X19: [read.int] does not fail and returns an Integer, whatever its
    arguments: it prompts, reads a line and, as long as the line read is not
    an integer (after trimming), writes the error message and starts again;
    it returns the first integer read, leaving the lines after it in the
    input, or 0, after a warning, when the input ends first. *)
Theorem read_int_asks_until_an_integer_is_read {lib : GoLib} evS args st :
  let retry :=
    [Prompt; Message "❌ Error: no es un número válido, por favor intenta de nuevo."] in
  let rejected := fun line => strconv_Atoi (strings_TrimSpace line) = None in
  (forall bad line rest n,
     stdin st = bad ++ line :: rest ->
     Forall rejected bad ->
     strconv_Atoi (strings_TrimSpace line) = Some n ->
     callBuiltin evS builtin.read_int args st
     = (Ok (VInteger n),
        set_console rest (stdout st ++ concat (map (fun _ => retry) bad) ++ [Prompt]) st)) /\
  (Forall rejected (stdin st) ->
   callBuiltin evS builtin.read_int args st
   = (Ok (VInteger 0),
      set_console []
        (stdout st ++ concat (map (fun _ => retry) (stdin st))
           ++ [Prompt; Message "⚠️  No se pudo leer entrada, usando 0 por defecto"]) st)).
Proof.
  intros retry rejected. split.
  - intros bad line rest n Hin Hbad Hline. cbn [callBuiltin]. rewrite Hin.
    rewrite (readInt_rejected bad (line :: rest) (stdout st) Hbad).
    cbn [readInt]. rewrite Hline. rewrite <- app_assoc. reflexivity.
  - intros Hbad. cbn [callBuiltin].
    rewrite <- (app_nil_r (stdin st)) at 1.
    rewrite (readInt_rejected (stdin st) [] (stdout st) Hbad).
    cbn [readInt]. rewrite <- app_assoc. reflexivity.
Qed.

(** With a library that takes no line for an integer, [read.int] on the
    input [abc] rejects the line and returns 0. *)
Lemma read_int_asks_until_an_integer_is_read_witness :
  callBuiltin (lib := plainLib) (evaluateStatement (lib := plainLib) 0) builtin.read_int []
    (NewEvaluator ["abc"])
  = (Ok (VInteger 0),
     set_console []
       [Prompt; Message "❌ Error: no es un número válido, por favor intenta de nuevo.";
        Prompt; Message "⚠️  No se pudo leer entrada, usando 0 por defecto"]
       (NewEvaluator ["abc"])).
Proof.
  apply (proj2 (read_int_asks_until_an_integer_is_read (lib := plainLib)
                  (evaluateStatement (lib := plainLib) 0) [] (NewEvaluator ["abc"]))).
  repeat constructor.
Defined.


(** ** What every evaluation keeps of the store

    The relations of the section [Frame] do not look at the objects of the
    store.  For one that does, it is enough that the steps that write the
    store respect it: the allocations, the one update of a list, which
    appends an element, and the reads and writes of the console. *)

Section StoreFrame.
Context {lib : GoLib}.
Variable R : State -> State -> Prop.
Hypothesis R_refl : forall st, R st st.
Hypothesis R_trans : forall st1 st2 st3, R st1 st2 -> R st2 st3 -> R st1 st3.
Hypothesis R_withEnv : forall A a (m : M A), Respects R m -> Respects R (withEnv a m).
Hypothesis R_EnvSet : forall e name value, Respects R (EnvSet e name value).
Hypothesis R_NewChildEnvironment : forall e, Respects R (NewChildEnvironment e).
Hypothesis R_newList : forall items, Respects R (newList items).
Hypothesis R_append : forall l arg st,
  R st (set_lists (<[l := default [] (lists st !! l) ++ [arg]]> (lists st)) st).
Hypothesis R_newHash : forall pairs, Respects R (newHash pairs).
Hypothesis R_newClass : forall c, Respects R (newClass c).
Hypothesis R_newInstance : forall i, Respects R (newInstance i).
Hypothesis R_fmtPrint : forall ev, Respects R (fmtPrint ev).
Hypothesis R_ReadString : Respects R ReadString.
Hypothesis R_readInt : forall st,
  R st (set_console (readInt (stdin st) (stdout st)).1.2
          (readInt (stdin st) (stdout st)).2 st).

Section StoreFrameSteps.
Variable evS : Statement -> M Value.
Variable evE : Expression -> M Value.
Hypothesis evS_respects : forall stmt, Respects R (evS stmt).
Hypothesis evE_respects : forall exp, Respects R (evE exp).

Create HintDb kept.
#[local] Hint Resolve respects_ret respects_fail respects_timeout respects_lift
  respects_getEnv respects_EnvGet respects_Items respects_getClass
  respects_getInstance respects_indexValue respects_evaluateImportStatement
  respects_evaluateIdentifier respects_evaluateThisExpression
  respects_evaluateFuncStatement respects_bindParameters
  respects_evaluateVarStatement respects_evaluateBlockStatement
  respects_evaluateIfStatement respects_evaluateTryStatement
  respects_evaluateWhileStatement respects_evaluateForInStatement
  respects_classAttributes respects_callZyloFunction respects_callBoundMethod
  respects_evaluateExpressions respects_evaluateMemberExpression
  respects_evaluateArguments respects_evaluateInfixExpression
  respects_evaluatePrefixExpression respects_hashPairs
  R_refl R_trans R_withEnv R_EnvSet R_NewChildEnvironment R_newList R_newHash
  R_newClass R_newInstance R_fmtPrint R_ReadString evS_respects evE_respects : kept.

Ltac kept :=
  repeat lazymatch goal with
  | |- Respects _ (bind _ _) => apply (respects_bind R R_trans); [| intros ?]
  | |- Respects _ (onError _ _) => apply (respects_onError R R_trans); [| intros ?]
  | |- Respects _ (match ?x with _ => _ end) => destruct x
  | |- _ => solve [eauto 6 with kept]
  end.

Lemma kept_evaluateClassStatement name attrs meths :
  Respects R (evaluateClassStatement evE name attrs meths).
Proof. unfold evaluateClassStatement. kept. Qed.

Lemma kept_instantiateClass class args :
  Respects R (instantiateClass evS evE class args).
Proof. unfold instantiateClass. kept. Qed.

Lemma kept_callBuiltin f args : Respects R (callBuiltin evS f args).
Proof.
  destruct f; cbn [callBuiltin]; unfold splitBuiltin, operatorBuiltin;
    try solve [kept].
  - intros st. destruct (readInt (stdin st) (stdout st)) as [[n input] output] eqn:E.
    pose proof (R_readInt st) as H. rewrite E in H. exact H.
  - destruct args as [| arg [| ? ?]]; try solve [kept].
    intros st. apply R_append.
Qed.

#[local] Hint Resolve kept_evaluateClassStatement kept_instantiateClass
  kept_callBuiltin : kept.

Lemma kept_callFunction fn args : Respects R (callFunction evS fn args).
Proof. unfold callFunction. kept. Qed.

#[local] Hint Resolve kept_callFunction : kept.

Lemma kept_evaluateCallExpression fn args :
  Respects R (evaluateCallExpression evS evE fn args).
Proof. unfold evaluateCallExpression. kept. Qed.

#[local] Hint Resolve kept_evaluateCallExpression : kept.

Lemma kept_expressionSwitch exp : Respects R (expressionSwitch evS evE exp).
Proof. unfold expressionSwitch. kept. Qed.

Lemma kept_statementSwitch stmt : Respects R (statementSwitch evS evE stmt).
Proof.
  unfold statementSwitch, evaluateBreakStatement, evaluateContinueStatement,
    evaluateThrowStatement. kept.
Qed.

End StoreFrameSteps.

(** Every statement and every expression, at every depth. *)
Lemma kept_evaluate fuel :
  (forall stmt, Respects R (evaluateStatement fuel stmt)) /\
  (forall exp, Respects R (evaluateExpression fuel exp)).
Proof.
  induction fuel as [| n [IHS IHE]]; split; intros; simpl.
  - apply respects_timeout. exact R_refl.
  - apply respects_timeout. exact R_refl.
  - apply kept_statementSwitch; assumption.
  - apply kept_expressionSwitch; assumption.
Qed.

End StoreFrame.

(** *** Nothing is lost from the store *)

Ltac unchanged :=
  first
    [ assumption
    | reflexivity
    | let H := fresh in
      intros ? ? H; eexists; split; [exact H | split; [reflexivity | auto]]
    | let H := fresh in
      intros ? ? H; exists []; rewrite app_nil_r; exact H
    | auto; fail
    | exists []; rewrite ?app_nil_r; reflexivity ].

Lemma allKept_refl st : allKept st st.
Proof. repeat split; unchanged. Qed.

Lemma allKept_trans st1 st2 st3 : allKept st1 st2 -> allKept st2 st3 -> allKept st1 st3.
Proof.
  intros ((E12 & L12 & H12 & C12 & I12) & [o1 O12] & [i1 S12])
         ((E23 & L23 & H23 & C23 & I23) & [o2 O23] & [i2 S23]).
  repeat split; auto.
  - intros a scope Ha. destruct (E12 a scope Ha) as (scope2 & H2 & P2 & V2).
    destruct (E23 a scope2 H2) as (scope3 & H3 & P3 & V3).
    exists scope3. repeat split; [exact H3 | congruence | auto].
  - intros l items Hl. destruct (L12 l items Hl) as [more2 H2].
    destruct (L23 l _ H2) as [more3 H3].
    exists (more2 ++ more3). rewrite H3, app_assoc. reflexivity.
  - exists (o1 ++ o2). rewrite O23, O12, app_assoc. reflexivity.
  - exists (i1 ++ i2). rewrite S12, S23, app_assoc. reflexivity.
Qed.

Lemma withEnv_allKept A a (m : M A) : Respects allKept m -> Respects allKept (withEnv a m).
Proof.
  intros Hm st. unfold withEnv. specialize (Hm (set_env a st)).
  destruct (m (set_env a st)) as [r st']. exact Hm.
Qed.

Lemma EnvSet_allKept e name value : Respects allKept (EnvSet e name value).
Proof.
  intros st. repeat split; try unchanged. simpl.
  intros a scope Ha. unfold Addr in *. destruct (decide (a = e)) as [-> | Hne].
  - exists (bindVar name value scope). rewrite list_lookup_alter_eq, Ha.
    repeat split. intros x Hx. simpl.
    destruct (decide (x = name)) as [-> | Hn];
      [rewrite lookup_insert_eq; eauto | rewrite lookup_insert_ne by congruence; exact Hx].
  - exists scope. rewrite list_lookup_alter_ne by congruence. auto.
Qed.

Lemma NewChildEnvironment_allKept e : Respects allKept (NewChildEnvironment e).
Proof.
  intros st. repeat split; try unchanged. simpl.
  intros a scope Ha. exists scope. split; [apply lookup_app_l_Some; exact Ha | auto].
Qed.

Lemma newList_allKept items : Respects allKept (newList items).
Proof.
  intros st. repeat split; try unchanged. simpl.
  intros l old Hl. exists []. rewrite app_nil_r. apply lookup_app_l_Some. exact Hl.
Qed.

Lemma append_allKept (l : Addr) arg st :
  allKept st (set_lists (<[l := default [] (lists st !! l) ++ [arg]]> (lists st)) st).
Proof.
  repeat split; try unchanged. simpl.
  intros l' items Hl. unfold Addr in *. destruct (decide (l' = l)) as [-> | Hne].
  - exists [arg]. rewrite Hl. simpl. apply list_lookup_insert_eq. eapply lookup_lt_Some, Hl.
  - exists []. rewrite app_nil_r, list_lookup_insert_ne by congruence. exact Hl.
Qed.

Lemma newHash_allKept pairs : Respects allKept (newHash pairs).
Proof.
  intros st. repeat split; try unchanged. simpl.
  intros h old Hh. apply lookup_app_l_Some. exact Hh.
Qed.

Lemma newClass_allKept c : Respects allKept (newClass c).
Proof.
  intros st. repeat split; try unchanged. simpl.
  intros a old Ha. apply lookup_app_l_Some. exact Ha.
Qed.

Lemma newInstance_allKept i : Respects allKept (newInstance i).
Proof.
  intros st. repeat split; try unchanged. simpl.
  intros a old Ha. apply lookup_app_l_Some. exact Ha.
Qed.

Lemma fmtPrint_allKept ev : Respects allKept (fmtPrint ev).
Proof. intros st. repeat split; try unchanged. simpl. eauto. Qed.

Lemma ReadString_allKept : Respects allKept ReadString.
Proof.
  intros st. unfold ReadString. destruct (stdin st) as [| line rest] eqn:E.
  - apply allKept_refl.
  - repeat split; try unchanged. simpl. exists [line]. rewrite E. reflexivity.
Qed.

(** The loop of [read.int] consumes lines from the front of the input and
    writes at the end of the output. *)
Lemma readInt_console {lib : GoLib} input output :
  (exists more, (readInt input output).2 = output ++ more) /\
  (exists read, input = read ++ (readInt input output).1.2).
Proof.
  revert output. induction input as [| line rest IH]; intros output.
  - simpl. split; [eauto | exists []; reflexivity].
  - cbn [readInt]. destruct (strconv_Atoi (strings_TrimSpace line)) as [n |].
    + simpl. split; [eauto | exists [line]; reflexivity].
    + destruct (IH (output ++ [Prompt;
                      Message "❌ Error: no es un número válido, por favor intenta de nuevo."]))
        as [[more Hm] [read Hr]].
      split.
      * eexists. rewrite Hm, <- app_assoc. reflexivity.
      * exists (line :: read). simpl. f_equal. exact Hr.
Qed.

Lemma readInt_allKept {lib : GoLib} st :
  allKept st (set_console (readInt (stdin st) (stdout st)).1.2
                  (readInt (stdin st) (stdout st)).2 st).
Proof.
  destruct (readInt_console (stdin st) (stdout st)) as [Ho Hi].
  repeat split; try unchanged.
Qed.

Lemma evaluate_allKept {lib : GoLib} fuel :
  (forall stmt, Respects allKept (evaluateStatement fuel stmt)) /\
  (forall exp, Respects allKept (evaluateExpression fuel exp)).
Proof.
  apply kept_evaluate.
  - apply allKept_refl.
  - apply allKept_trans.
  - apply withEnv_allKept.
  - apply EnvSet_allKept.
  - apply NewChildEnvironment_allKept.
  - apply newList_allKept.
  - apply append_allKept.
  - apply newHash_allKept.
  - apply newClass_allKept.
  - apply newInstance_allKept.
  - apply fmtPrint_allKept.
  - apply ReadString_allKept.
  - apply readInt_allKept.
Qed.

(** X20: evaluation never frees or overwrites an object of the store.  After
    any statement or expression, however it ends, every environment is
    still there with the same parent and with every name it had bound (there
    is no way to undefine a variable); every list is still there and begins
    with the elements it had (the only update of a list appends); every
    hash, class and instance is exactly as it was (nothing writes a field of
    an instance or an entry of a hash). *)
Theorem evaluation_keeps_the_store {lib : GoLib} fuel st :
  (forall stmt, storeKept st (evaluateStatement fuel stmt st).2) /\
  (forall exp, storeKept st (evaluateExpression fuel exp st).2).
Proof.
  split.
  - intros stmt. apply (proj1 (evaluate_allKept fuel)).
  - intros exp. apply (proj2 (evaluate_allKept fuel)).
Qed.

(** X21: the console is used from front to back: after any statement or
    expression the output is the output there was, followed by what was
    written, and the input is the input there was, without the lines that
    were read. *)
Theorem evaluation_appends_output_and_consumes_input {lib : GoLib} fuel st :
  (forall stmt, consoleKept st (evaluateStatement fuel stmt st).2) /\
  (forall exp, consoleKept st (evaluateExpression fuel exp st).2).
Proof.
  split.
  - intros stmt. apply (proj1 (evaluate_allKept fuel)).
  - intros exp. apply (proj2 (evaluate_allKept fuel)).
Qed.

(** ** Well-formed states

    Every state that the evaluator reaches from a new one is well formed: no
    value points outside the store, the chains of environments are finite,
    and the instances are those of the classes. *)

Lemma sizesGrow_refl st : sizesGrow st st.
Proof. unfold sizesGrow. lia. Qed.

Lemma sizesGrow_trans st1 st2 st3 : sizesGrow st1 st2 -> sizesGrow st2 st3 -> sizesGrow st1 st3.
Proof. unfold sizesGrow. lia. Qed.

Lemma validValue_mono st st' v : sizesGrow st st' -> validValue st v -> validValue st' v.
Proof.
  unfold sizesGrow. intros Hg Hv. destruct v as [| | | | | | | | f | | | | |];
    try destruct f; simpl in *; lia.
Qed.

Lemma validValues_mono st st' vs : sizesGrow st st' -> validValues st vs -> validValues st' vs.
Proof.
  intros Hg Hv. eapply Forall_impl; [exact Hv |]. intros v. apply validValue_mono. exact Hg.
Qed.

Lemma validMap_mono st st' m : sizesGrow st st' -> validMap st m -> validMap st' m.
Proof. intros Hg Hm x v Hx. eapply validValue_mono; eauto. Qed.

Lemma validClass_mono st st' cls : sizesGrow st st' -> validClass st cls -> validClass st' cls.
Proof.
  intros Hg (Ha & Hm & Hi). split; [eapply validMap_mono; eauto | split; [| exact Hi]].
  intros x f Hf. specialize (Hm x f Hf). unfold sizesGrow in Hg. lia.
Qed.

(** A state is well formed when it was obtained from a well-formed state by
    adding valid objects or replacing objects by valid ones. *)
Lemma wellFormed_update st st' :
  wellFormed st -> sizesGrow st st' ->
  env st' < length (envs st') ->
  (forall (a : Addr) scope, envs st' !! a = Some scope ->
     envs st !! a = Some scope \/
     (validMap st' (variables scope) /\ forall p, parent scope = Some p -> p < a)) ->
  (forall (l : Addr) items, lists st' !! l = Some items ->
     lists st !! l = Some items \/ validValues st' items) ->
  (forall (h : Addr) pairs, hashes st' !! h = Some pairs ->
     hashes st !! h = Some pairs \/ validMap st' pairs) ->
  (forall (c : Addr) cls, classes st' !! c = Some cls ->
     classes st !! c = Some cls \/ validClass st' cls) ->
  (forall (c : Addr) cls, classes st !! c = Some cls -> classes st' !! c = Some cls) ->
  (forall (i : Addr) inst, instances st' !! i = Some inst ->
     instances st !! i = Some inst \/
     exists cls, classes st' !! Class inst = Some cls /\ Fields inst = Attributes cls) ->
  wellFormed st'.
Proof.
  intros (We & Wp & Wv & Wl & Wh & Wc & Wi) Hg He HE HL HH HC HCk HI.
  split; [| split; [| split; [| split; [| split; [| split]]]]].
  - exact He.
  - intros a scope p Ha Hp. destruct (HE a scope Ha) as [Hold | [_ Hnew]]; eauto.
  - intros a scope Ha. destruct (HE a scope Ha) as [Hold | [Hnew _]]; [| exact Hnew].
    eapply validMap_mono; eauto.
  - intros l items Hl. destruct (HL l items Hl) as [Hold | Hnew]; [| exact Hnew].
    eapply validValues_mono; eauto.
  - intros h pairs Hh. destruct (HH h pairs Hh) as [Hold | Hnew]; [| exact Hnew].
    eapply validMap_mono; eauto.
  - intros c cls Hc. destruct (HC c cls Hc) as [Hold | Hnew]; [| exact Hnew].
    eapply validClass_mono; eauto.
  - intros i inst Hi. destruct (HI i inst Hi) as [Hold | Hnew]; [| exact Hnew].
    destruct (Wi i inst Hold) as (cls & Hcls & Hf). exists cls. eauto.
Qed.

Lemma wellFormed_set_env a st :
  wellFormed st -> a < length (envs st) -> wellFormed (set_env a st).
Proof. intros (We & W) Ha. split; [exact Ha | exact W]. Qed.

Lemma wellFormed_set_console i o st : wellFormed st -> wellFormed (set_console i o st).
Proof. intros W. exact W. Qed.

(** *** The primitive steps *)

Lemma sound_ret A (Q : State -> A -> Prop) a st :
  wellFormed st -> Q st a -> sound Q (ret a) st.
Proof.
  intros W H. split; [exact W | split; [apply sizesGrow_refl |]].
  intros b [= <-]. exact H.
Qed.

Lemma sound_fail A (Q : State -> A -> Prop) msg st : wellFormed st -> sound Q (fail msg) st.
Proof. intros W. split; [exact W | split; [apply sizesGrow_refl | discriminate]]. Qed.

Lemma sound_timeout A (Q : State -> A -> Prop) st : wellFormed st -> sound Q timeout st.
Proof. intros W. split; [exact W | split; [apply sizesGrow_refl | discriminate]]. Qed.

Lemma sound_lift A (Q : State -> A -> Prop) (r : Res A) st :
  wellFormed st -> (forall a, r = Ok a -> Q st a) -> sound Q (lift r) st.
Proof. intros W H. split; [exact W | split; [apply sizesGrow_refl | exact H]]. Qed.

Lemma sound_bind A B (Q : State -> A -> Prop) (Q' : State -> B -> Prop) m k st :
  sound Q m st ->
  (forall a st1, wellFormed st1 -> sizesGrow st st1 -> Q st1 a -> sound Q' (k a) st1) ->
  sound Q' (bind m k) st.
Proof.
  intros (W & G & HQ) Hk. unfold sound, bind.
  destruct (m st) as [[a | msg |] st1]; simpl in *.
  - destruct (Hk a st1 W G (HQ a eq_refl)) as (W2 & G2 & HQ2).
    split; [exact W2 | split; [eapply sizesGrow_trans; eauto | exact HQ2]].
  - split; [exact W | split; [exact G | discriminate]].
  - split; [exact W | split; [exact G | discriminate]].
Qed.

Lemma sound_onError A (Q : State -> A -> Prop) m handler st :
  sound Q m st ->
  (forall msg st1, wellFormed st1 -> sizesGrow st st1 -> sound Q (handler msg) st1) ->
  sound Q (onError m handler) st.
Proof.
  intros (W & G & HQ) Hh. unfold sound, onError.
  destruct (m st) as [[a | msg |] st1]; simpl in *.
  - split; [exact W | split; [exact G | exact HQ]].
  - destruct (Hh msg st1 W G) as (W2 & G2 & HQ2).
    split; [exact W2 | split; [eapply sizesGrow_trans; eauto | exact HQ2]].
  - split; [exact W | split; [exact G | discriminate]].
Qed.

Lemma sound_weaken A (Q Q' : State -> A -> Prop) m st :
  sound Q m st -> (forall st' a, Q st' a -> Q' st' a) -> sound Q' m st.
Proof. intros (W & G & HQ) H. split; [exact W | split; [exact G | eauto]]. Qed.

Lemma sound_getEnv st : wellFormed st -> sound validEnvAddr getEnv st.
Proof. intros W. apply sound_ret; [exact W | apply W]. Qed.

Lemma lookupChain_valid st d es (e : Addr) x v :
  (forall (a : Addr) scope, es !! a = Some scope -> validMap st (variables scope)) ->
  lookupChain d es e x = Some v -> validValue st v.
Proof.
  intros Hv. revert e. induction d as [| d IH]; intros e; [discriminate |].
  cbn [lookupChain]. destruct (es !! e) as [scope |] eqn:Ee; [| discriminate].
  destruct (variables scope !! x) as [w |] eqn:Ex.
  - intros [= <-]. eapply Hv; eauto.
  - destruct (parent scope); [apply IH | discriminate].
Qed.

Lemma sound_EnvGet e name st : wellFormed st -> sound validOption (EnvGet e name) st.
Proof.
  intros W. apply sound_ret; [exact W |]. intros v Hv.
  eapply lookupChain_valid; [| exact Hv]. apply W.
Qed.

Lemma sound_EnvSet (e : Addr) name value st :
  wellFormed st -> validValue st value -> sound noCondition (EnvSet e name value) st.
Proof.
  intros W Hv.
  assert (G : sizesGrow st (EnvSet e name value st).2).
  { unfold sizesGrow. simpl. rewrite length_alter. lia. }
  split; [| split; [exact G | intros; exact I]].
  apply (wellFormed_update st); simpl; auto.
  - rewrite length_alter. apply W.
  - intros a scope Ha. unfold Addr in *. destruct (decide (a = e)) as [-> | Hne].
    + rewrite list_lookup_alter_eq in Ha.
      destruct (envs st !! e) as [old |] eqn:Eo; [| discriminate].
      injection Ha as <-. right. split.
      * intros x v. simpl. destruct (decide (x = name)) as [-> | Hn].
        -- rewrite lookup_insert_eq. intros [= <-]. eapply validValue_mono; eauto.
        -- rewrite lookup_insert_ne by congruence. intros Hx.
           destruct W as (_ & _ & Wv & _). eapply validValue_mono; [exact G |].
           apply (Wv e old Eo x v Hx).
      * simpl. destruct W as (_ & Wp & _). intros p. apply (Wp e old p Eo).
    + rewrite list_lookup_alter_ne in Ha by congruence. left. exact Ha.
Qed.

Lemma sound_NewChildEnvironment (e : Addr) st :
  wellFormed st -> e < length (envs st) -> sound validEnvAddr (NewChildEnvironment e) st.
Proof.
  intros W He.
  assert (G : sizesGrow st (NewChildEnvironment e st).2).
  { unfold sizesGrow. simpl. rewrite length_app. simpl. lia. }
  split; [| split; [exact G |]].
  - apply (wellFormed_update st); simpl; auto.
    + rewrite length_app. destruct W as (We & _). simpl. lia.
    + intros a scope Ha. apply lookup_app_Some in Ha as [Ha | [Hge Ha]]; [left; exact Ha |].
      right. destruct (a - length (envs st)) as [| k] eqn:Ek; [| destruct k; discriminate Ha].
      injection Ha as <-. split.
      * intros x v Hx. simpl in Hx. rewrite lookup_empty in Hx. discriminate.
      * simpl. intros p [= <-]. lia.
  - intros a [= <-]. unfold validEnvAddr. simpl. rewrite length_app. simpl. lia.
Qed.

Lemma sound_withEnv (a : Addr) (m : M Value) st :
  wellFormed st -> a < length (envs st) ->
  (wellFormed (set_env a st) -> sound validValue m (set_env a st)) ->
  sound validValue (withEnv a m) st.
Proof.
  intros W Ha Hm. destruct (Hm (wellFormed_set_env a st W Ha)) as (W1 & G1 & HQ1).
  unfold sound, withEnv. destruct (m (set_env a st)) as [r st1]. simpl in *.
  split; [| split; [exact G1 | exact HQ1]].
  apply wellFormed_set_env; [exact W1 |].
  destruct W as (We & _). unfold sizesGrow in G1. simpl in G1. lia.
Qed.

Lemma sound_Items l st : wellFormed st -> sound validValues (Items l) st.
Proof.
  intros W. apply sound_ret; [exact W |]. unfold validValues.
  destruct (lists st !! l) as [items |] eqn:E; simpl; [| constructor].
  destruct W as (_ & _ & _ & Wl & _). apply (Wl l items E).
Qed.

Lemma sound_newList items st :
  wellFormed st -> validValues st items -> sound validValue (newList items) st.
Proof.
  intros W Hv.
  assert (G : sizesGrow st (newList items st).2).
  { unfold sizesGrow. simpl. rewrite length_app. simpl. lia. }
  split; [| split; [exact G |]].
  - apply (wellFormed_update st); simpl; auto; [apply W |].
    intros l old Hl. apply lookup_app_Some in Hl as [Hl | [Hge Hl]]; [left; exact Hl |].
    right. destruct (l - length (lists st)) as [| k]; [| destruct k; discriminate Hl].
    injection Hl as <-. eapply validValues_mono; eauto.
  - intros a [= <-]. simpl. rewrite length_app. simpl. lia.
Qed.

Lemma sound_setItems (l : Addr) items st :
  wellFormed st -> validValues st items -> sound noCondition (setItems l items) st.
Proof.
  intros W Hv.
  assert (G : sizesGrow st (setItems l items st).2).
  { unfold sizesGrow. simpl. rewrite length_insert. lia. }
  split; [| split; [exact G | intros; exact I]].
  apply (wellFormed_update st); simpl; auto; [apply W |].
  intros l' old Hl. unfold Addr in *. destruct (decide (l' = l)) as [-> | Hne].
  - right. apply list_lookup_insert_Some in Hl as [(_ & <- & _) | [Hne _]]; [| congruence].
    eapply validValues_mono; eauto.
  - left. rewrite list_lookup_insert_ne in Hl by congruence. exact Hl.
Qed.

Lemma sound_newHash pairs st :
  wellFormed st -> validMap st pairs -> sound validValue (newHash pairs) st.
Proof.
  intros W Hv.
  assert (G : sizesGrow st (newHash pairs st).2).
  { unfold sizesGrow. simpl. rewrite length_app. simpl. lia. }
  split; [| split; [exact G |]].
  - apply (wellFormed_update st); simpl; auto; [apply W |].
    intros h old Hh. apply lookup_app_Some in Hh as [Hh | [Hge Hh]]; [left; exact Hh |].
    right. destruct (h - length (hashes st)) as [| k]; [| destruct k; discriminate Hh].
    injection Hh as <-. eapply validMap_mono; eauto.
  - intros a [= <-]. simpl. rewrite length_app. simpl. lia.
Qed.

Lemma sound_newClass c st :
  wellFormed st -> validClass st c -> sound validValue (newClass c) st.
Proof.
  intros W Hv.
  assert (G : sizesGrow st (newClass c st).2).
  { unfold sizesGrow. simpl. rewrite length_app. simpl. lia. }
  split; [| split; [exact G |]].
  - apply (wellFormed_update st); simpl; auto; [apply W | |].
    + intros a old Ha. apply lookup_app_Some in Ha as [Ha | [Hge Ha]]; [left; exact Ha |].
      right. destruct (a - length (classes st)) as [| k]; [| destruct k; discriminate Ha].
      injection Ha as <-. eapply validClass_mono; eauto.
    + intros a old Ha. apply lookup_app_l_Some. exact Ha.
  - intros a [= <-]. simpl. rewrite length_app. simpl. lia.
Qed.

Lemma sound_fmtPrint ev st : wellFormed st -> sound noCondition (fmtPrint ev) st.
Proof.
  intros W. split; [exact W | split; [unfold sizesGrow; simpl; lia | intros; exact I]].
Qed.

Lemma sound_ReadString st : wellFormed st -> sound noCondition ReadString st.
Proof.
  intros W. unfold sound, ReadString. destruct (stdin st);
    (split; [exact W | split; [unfold sizesGrow; simpl; lia | intros; exact I]]).
Qed.

(** *** The steps of the evaluator *)

Lemma numericCases_plain op f g l r v :
  (forall a b, plainValue (f a b)) -> (forall a b, plainValue (g a b)) ->
  numericCases op f g l r = Ok v -> plainValue v.
Proof.
  intros Hf Hg. destruct l, r; simpl; try discriminate; intros [= <-]; auto.
Qed.

(** An operator returns an Integer, a Float, a String or a Boolean. *)
Lemma applyOperator_plain {lib : GoLib} op l r v :
  applyOperator op l r = Ok v -> plainValue v.
Proof.
  unfold applyOperator. destruct l as [l |], r as [r |]; try discriminate.
  repeat match goal with
  | |- (if String.eqb ?a ?b then _ else _) = _ -> _ => destruct (String.eqb a b)
  end;
  try (apply numericCases_plain; intros; exact I);
  try (destruct l, r; simpl; try discriminate;
       repeat match goal with |- context [if ?b then _ else _] => destruct b end;
       try discriminate; intros [= <-]; exact I).
Qed.

Lemma plainValue_valid st v : plainValue v -> validValue st v.
Proof. destruct v; simpl; intros H; try exact I; contradiction. Qed.

Lemma validOption_Some st v : validOption st (Some v) -> validValue st v.
Proof. intros H. apply H. reflexivity. Qed.

Lemma validValues_lookup st vs (i : nat) v :
  validValues st vs -> vs !! i = Some v -> validValue st v.
Proof. intros H Hi. eapply Forall_lookup_1; eauto. Qed.

Lemma validValues_cons st v vs :
  validValues st (v :: vs) <-> validValue st v /\ validValues st vs.
Proof. apply Forall_cons. Qed.

Lemma validValues_nil st : validValues st [].
Proof. constructor. Qed.

Lemma validValues_strings st ss : validValues st (map VString ss).
Proof. apply Forall_forall. intros v Hv. apply list_elem_of_fmap in Hv as (s & -> & _). exact I. Qed.

Lemma validValues_app st vs ws :
  validValues st vs -> validValues st ws -> validValues st (vs ++ ws).
Proof. intros Hv Hw. apply Forall_app. split; assumption. Qed.

Lemma validValues_one st v : validValue st v -> validValues st [v].
Proof. intros Hv. apply validValues_cons. split; [exact Hv | constructor]. Qed.

Lemma validValues_cons_2 st v vs :
  validValue st v -> validValues st vs -> validValues st (v :: vs).
Proof. intros Hv Hvs. apply validValues_cons. split; assumption. Qed.

Lemma validOption_None st : validOption st None.
Proof. intros v Hv. discriminate. Qed.

Lemma validClass_method st cls x f :
  validClass st cls -> Methods cls !! x = Some f -> fnEnv f < length (envs st).
Proof. intros (_ & Hm & _). apply Hm. Qed.

Lemma validClass_init st cls f :
  validClass st cls -> InitMethod cls = Some f -> fnEnv f < length (envs st).
Proof. intros (_ & Hm & Hi) Hf. rewrite Hi in Hf. eapply Hm. exact Hf. Qed.

Lemma validInstance_field st inst x v :
  validInstance st inst -> Fields inst !! x = Some v -> validValue st v.
Proof. intros H. apply H. Qed.

Lemma validMap_lookup st (m : gmap string Value) x v :
  validMap st m -> m !! x = Some v -> validValue st v.
Proof. intros H. apply H. Qed.

Lemma validValue_BoundMethod st i m :
  validValue st (VInstance i) -> fnEnv m < length (envs st) ->
  validValue st (VBoundMethod i m).
Proof. intros Hi Hm. split; assumption. Qed.

Lemma sound_applyOperator {lib : GoLib} op l r st :
  wellFormed st -> sound validValue (lift (applyOperator op l r)) st.
Proof.
  intros W. apply sound_lift; [exact W |]. intros v Hv.
  apply plainValue_valid. eapply applyOperator_plain. exact Hv.
Qed.

Lemma sound_getClass c st : wellFormed st -> sound validClass (getClass c) st.
Proof.
  intros W. apply sound_ret; [exact W |].
  destruct (classes st !! c) as [cls |] eqn:E; simpl.
  - destruct W as (_ & _ & _ & _ & _ & Wc & _). apply (Wc c cls E).
  - split; [| split; [| reflexivity]]; intros x v Hx; simpl in Hx;
      rewrite lookup_empty in Hx; discriminate.
Qed.

Lemma sound_getInstance i st : wellFormed st -> sound validInstance (getInstance i) st.
Proof.
  intros W. apply sound_ret; [exact W |].
  destruct (instances st !! i) as [inst |] eqn:E; simpl.
  - destruct W as (_ & _ & _ & _ & _ & Wc & Wi).
    destruct (Wi i inst E) as (cls & Hcls & Hf). unfold validInstance. rewrite Hf.
    apply (Wc _ cls Hcls).
  - intros x v Hx. simpl in Hx. rewrite lookup_empty in Hx. discriminate.
Qed.

Lemma validEnvAddr_mono st st' a : sizesGrow st st' -> validEnvAddr st a -> validEnvAddr st' a.
Proof. unfold sizesGrow, validEnvAddr. lia. Qed.

Lemma validOption_mono st st' o : sizesGrow st st' -> validOption st o -> validOption st' o.
Proof. intros Hg H v Hv. eapply validValue_mono; eauto. Qed.

(** What is known of the values at hand is carried over to a state in which
    no store is shorter. *)
Ltac forward Hg :=
  repeat match goal with
  | H : validValue ?st ?v |- _ =>
      lazymatch type of Hg with sizesGrow st _ => apply (validValue_mono _ _ _ Hg) in H end
  | H : validValues ?st ?vs |- _ =>
      lazymatch type of Hg with sizesGrow st _ => apply (validValues_mono _ _ _ Hg) in H end
  | H : validMap ?st ?m |- _ =>
      lazymatch type of Hg with sizesGrow st _ => apply (validMap_mono _ _ _ Hg) in H end
  | H : validClass ?st ?c |- _ =>
      lazymatch type of Hg with sizesGrow st _ => apply (validClass_mono _ _ _ Hg) in H end
  | H : validEnvAddr ?st ?a |- _ =>
      lazymatch type of Hg with sizesGrow st _ => apply (validEnvAddr_mono _ _ _ Hg) in H end
  | H : validOption ?st ?o |- _ =>
      lazymatch type of Hg with sizesGrow st _ => apply (validOption_mono _ _ _ Hg) in H end
  | H : validInstance ?st ?i |- _ =>
      lazymatch type of Hg with sizesGrow st _ => apply (validMap_mono _ _ _ Hg) in H end
  end.

Create HintDb sound.
#[local] Hint Resolve sound_ret sound_fail sound_timeout sound_getEnv sound_EnvGet
  sound_EnvSet sound_NewChildEnvironment sound_Items sound_newList sound_setItems
  sound_newHash sound_newClass sound_fmtPrint sound_ReadString
  validOption_Some validValues_strings plainValue_valid validValues_lookup
  validValues_nil validValues_app validValues_one validValues_cons_2 validOption_None
  validClass_method validClass_init validInstance_field validMap_lookup
  validValue_BoundMethod sound_applyOperator sound_getClass sound_getInstance : sound.
#[local] Hint Extern 1 (validValue _ _) => exact I : sound.
#[local] Hint Extern 1 (noCondition _ _) => exact I : sound.
#[local] Hint Extern 3 (validValue _ _) =>
  unfold validEnvAddr, sizesGrow in *; simpl in *; lia : sound.
#[local] Hint Extern 3 (_ < _) =>
  unfold validEnvAddr, sizesGrow in *; simpl in *; lia : sound.

Ltac split_values :=
  repeat match goal with
  | H : validValues _ (_ :: _) |- _ => apply validValues_cons in H as [? ?]
  end.

(** The condition on what a computation returns, by the type of it. *)
Ltac post_of A :=
  lazymatch A with
  | Value => constr:(validValue)
  | list Value => constr:(validValues)
  | gmap string Value => constr:(validMap)
  | option Value => constr:(validOption)
  | Addr => constr:(validEnvAddr)
  | ZyloClass => constr:(validClass)
  | ZyloInstance => constr:(validInstance)
  | _ => constr:(@noCondition A)
  end.

Ltac sound_step :=
  lazymatch goal with
  | |- sound _ (@bind ?A _ _ _) _ =>
      let Q := post_of A in
      eapply (sound_bind A _ Q); [| let Hg := fresh "Hg" in intros ? ? ? Hg ?; forward Hg]
  | |- sound _ (onError _ _) _ =>
      eapply sound_onError; [| let Hg := fresh "Hg" in intros ? ? ? Hg; forward Hg]
  | |- sound _ (match ?x with _ => _ end) _ =>
      first [is_var x; destruct x | destruct x eqn:?]; split_values
  end.

Ltac sounds := split_values; repeat first [sound_step | solve [eauto 4 with sound]].

Lemma sound_indexValue left index st :
  wellFormed st -> validValue st left -> sound validValue (indexValue left index) st.
Proof.
  intros W Hl. unfold indexValue. destruct left; sounds.
Qed.

Lemma sound_evaluateImportStatement name st :
  wellFormed st -> sound validValue (evaluateImportStatement name) st.
Proof. intros W. unfold evaluateImportStatement. sounds. Qed.

Lemma sound_evaluateIdentifier name st :
  wellFormed st -> sound validValue (evaluateIdentifier name) st.
Proof. intros W. unfold evaluateIdentifier. sounds. Qed.

Lemma sound_evaluateThisExpression st :
  wellFormed st -> sound validValue evaluateThisExpression st.
Proof. intros W. unfold evaluateThisExpression. sounds. Qed.

Lemma sound_evaluateFuncStatement name params body st :
  wellFormed st -> sound noCondition (evaluateFuncStatement name params body) st.
Proof. intros W. unfold evaluateFuncStatement. sounds. Qed.

Lemma sound_bindParameters funcEnv params args st :
  wellFormed st -> validValues st args ->
  sound noCondition (bindParameters funcEnv params args) st.
Proof.
  revert args st. induction params as [| p params IH]; intros [| a args] st W Ha;
    cbn [bindParameters]; sounds.
Qed.

#[local] Hint Resolve sound_indexValue sound_evaluateImportStatement
  sound_evaluateIdentifier sound_evaluateThisExpression sound_evaluateFuncStatement
  sound_bindParameters : sound.

Section SoundSteps.
Context {lib : GoLib}.
Variable evS : Statement -> M Value.
Variable evE : Expression -> M Value.
Hypothesis evS_sound : forall stmt st, wellFormed st -> sound validValue (evS stmt) st.
Hypothesis evE_sound : forall exp st, wellFormed st -> sound validValue (evE exp) st.

#[local] Hint Resolve evS_sound evE_sound : sound.

Lemma sound_evaluateVarStatement name value st :
  wellFormed st -> sound noCondition (evaluateVarStatement evE name value) st.
Proof. intros W. unfold evaluateVarStatement. sounds. Qed.

Lemma sound_blockStatements stmts last st :
  wellFormed st -> validValue st last ->
  sound validValue (blockStatements evS stmts last) st.
Proof.
  revert last st. induction stmts as [| s stmts IH]; intros last st W Hl;
    cbn [blockStatements]; sounds.
Qed.

#[local] Hint Resolve sound_blockStatements : sound.

Lemma sound_evaluateBlockStatement stmts st :
  wellFormed st -> sound validValue (evaluateBlockStatement evS stmts) st.
Proof.
  intros W. unfold evaluateBlockStatement. sounds.
  apply sound_withEnv; sounds.
Qed.

#[local] Hint Resolve sound_evaluateVarStatement sound_evaluateBlockStatement : sound.

Lemma sound_evaluateIfStatement cond consequence alt st :
  wellFormed st -> sound validValue (evaluateIfStatement evS evE cond consequence alt) st.
Proof. intros W. unfold evaluateIfStatement. sounds. Qed.

Lemma sound_evaluateTryStatement tryBlock catch finally st :
  wellFormed st -> sound validValue (evaluateTryStatement evS tryBlock catch finally) st.
Proof. intros W. unfold evaluateTryStatement. sounds. Qed.

Lemma sound_whileBody stmts st :
  wellFormed st -> sound noCondition (whileBody evS stmts) st.
Proof.
  revert st. induction stmts as [| s stmts IH]; intros st W; cbn [whileBody]; sounds.
Qed.

#[local] Hint Resolve sound_whileBody : sound.

Lemma sound_evaluateWhileStatement again cond body st :
  (forall st, wellFormed st -> sound validValue again st) ->
  wellFormed st -> sound validValue (evaluateWhileStatement evS evE again cond body) st.
Proof. intros Hagain W. unfold evaluateWhileStatement. sounds. Qed.

Lemma sound_forInElements ident body elements st :
  wellFormed st -> validValues st elements ->
  sound noCondition (forInElements evS ident body elements) st.
Proof.
  revert st. induction elements as [| x elements IH]; intros st W He;
    cbn [forInElements]; sounds.
Qed.

#[local] Hint Resolve sound_forInElements : sound.

Lemma sound_evaluateForInStatement ident iter body st :
  wellFormed st -> sound validValue (evaluateForInStatement evS evE ident iter body) st.
Proof. intros W. unfold evaluateForInStatement. sounds. Qed.

Lemma validMap_insert st (m : gmap string Value) x v :
  validMap st m -> validValue st v -> validMap st (<[x := v]> m).
Proof.
  intros Hm Hv y w. destruct (decide (y = x)) as [-> | Hne].
  - rewrite lookup_insert_eq. intros [= <-]. exact Hv.
  - rewrite lookup_insert_ne by congruence. apply Hm.
Qed.

Lemma validMap_empty st : validMap st ∅.
Proof. intros x v Hx. rewrite lookup_empty in Hx. discriminate. Qed.

#[local] Hint Resolve validMap_insert validMap_empty : sound.

Lemma sound_classAttributes attrs attributes st :
  wellFormed st -> validMap st attributes ->
  sound validMap (classAttributes evE attrs attributes) st.
Proof.
  revert attributes st. induction attrs as [| [name init] attrs IH];
    intros attributes st W Ha; cbn [classAttributes]; sounds.
Qed.

(** The class object that the loop over the methods builds. *)
Lemma validClass_methods st (e : Addr) meths cls :
  e < length (envs st) -> validClass st cls ->
  validClass st (fold_left (classMethod e) meths cls).
Proof.
  intros He. revert cls. induction meths as [| [[name params] body] meths IH];
    intros cls Hc; [exact Hc |].
  cbn [fold_left]. apply IH. destruct Hc as (Ha & Hm & Hi).
  split; [exact Ha | split].
  - intros x f. simpl. destruct (decide (x = name)) as [-> | Hne].
    + rewrite lookup_insert_eq. intros [= <-]. exact He.
    + rewrite lookup_insert_ne by congruence. apply Hm.
  - simpl. destruct (String.eqb_spec name "init") as [-> | Hne].
    + rewrite lookup_insert_eq. reflexivity.
    + rewrite lookup_insert_ne by congruence. exact Hi.
Qed.

#[local] Hint Resolve sound_classAttributes : sound.

Lemma sound_evaluateClassStatement name attrs meths st :
  wellFormed st -> sound validValue (evaluateClassStatement evE name attrs meths) st.
Proof.
  intros W. unfold evaluateClassStatement. sounds.
  apply sound_newClass; [assumption |]. apply validClass_methods; [assumption |].
  split; [assumption | split; [| reflexivity]].
  intros x f Hx. simpl in Hx. rewrite lookup_empty in Hx. discriminate.
Qed.

Lemma sound_callZyloFunction fn args st :
  wellFormed st -> fnEnv fn < length (envs st) -> validValues st args ->
  sound validValue (callZyloFunction evS fn args) st.
Proof.
  intros W Hf Ha. unfold callZyloFunction. sounds.
  apply sound_withEnv; sounds.
Qed.

Lemma sound_callBoundMethod instance method args st :
  wellFormed st -> validValue st (VBoundMethod instance method) -> validValues st args ->
  sound validValue (callBoundMethod evS instance method args) st.
Proof.
  intros W [Hi Hf] Ha. unfold callBoundMethod. sounds.
  apply sound_withEnv; sounds.
Qed.

Lemma sound_evaluateExpressions exps st :
  wellFormed st -> sound validValues (evaluateExpressions evE exps) st.
Proof.
  revert st. induction exps as [| e exps IH]; intros st W; cbn [evaluateExpressions];
    sounds.
Qed.

#[local] Hint Resolve sound_evaluateClassStatement sound_callZyloFunction
  sound_callBoundMethod sound_evaluateExpressions : sound.

(** The object that a class is instantiated to is an instance of a class of
    the store, with the attributes of that class as its fields. *)
Lemma sound_instantiateClass (class : Addr) args st :
  wellFormed st -> class < length (classes st) ->
  sound validValue (instantiateClass evS evE class args) st.
Proof.
  intros W Hc. destruct (lookup_lt_is_Some_2 _ _ Hc) as [cls Hcls].
  pose proof W as (_ & _ & _ & _ & _ & Wc & _). pose proof (Wc class cls Hcls) as Vc.
  unfold instantiateClass.
  apply (sound_bind _ _ (fun st' c => st' = st /\ c = cls)).
  { split; [exact W | split; [apply sizesGrow_refl |]]. intros c Hget.
    unfold getClass in *. simpl in *. unfold Addr in *. rewrite Hcls in Hget.
    injection Hget as <-. split; reflexivity. }
  intros c st0 _ _ [-> ->].
  apply (sound_bind _ _ (fun st' i => validValue st' (VInstance i))).
  { assert (G : sizesGrow st (newInstance {| Class := class; Fields := Attributes cls |} st).2).
    { unfold sizesGrow. simpl. rewrite length_app. simpl. lia. }
    split; [| split; [exact G |]].
    - apply (wellFormed_update st); simpl; auto; [apply W |].
      intros i inst Hi. apply lookup_app_Some in Hi as [Hi | [Hge Hi]]; [left; exact Hi |].
      right. destruct (i - length (instances st)) as [| k]; [| destruct k; discriminate Hi].
      injection Hi as <-. exists cls. split; [exact Hcls | reflexivity].
    - intros i [= <-]. simpl. rewrite length_app. simpl. lia. }
  intros instance st1 W1 Hg Hi. forward Hg. sounds.
  apply sound_withEnv; sounds.
Qed.

Lemma sound_callBuiltin f args st :
  wellFormed st -> validValue st (VBuiltin f) -> validValues st args ->
  sound validValue (callBuiltin evS f args) st.
Proof.
  intros W Hf Ha. destruct f; cbn [callBuiltin]; unfold splitBuiltin, operatorBuiltin;
    sounds.
  unfold sound. destruct (readInt (stdin st) (stdout st)) as [[n input] output].
  split; [exact W | split; [unfold sizesGrow; simpl; lia | intros a [= <-]; exact I]].
Qed.

#[local] Hint Resolve sound_instantiateClass sound_callBuiltin : sound.

Lemma sound_callFunction fn args st :
  wellFormed st -> validValue st fn -> validValues st args ->
  sound validValue (callFunction evS fn args) st.
Proof. intros W Hf Ha. unfold callFunction. destruct fn; sounds. Qed.

Lemma sound_evaluateMemberExpression object property st :
  wellFormed st -> sound validValue (evaluateMemberExpression evE object property) st.
Proof. intros W. unfold evaluateMemberExpression. sounds. Qed.

Lemma sound_evaluateArguments i args st :
  wellFormed st -> sound validValues (evaluateArguments evE i args) st.
Proof.
  revert i st. induction args as [| a args IH]; intros i st W; cbn [evaluateArguments];
    sounds.
Qed.

#[local] Hint Resolve sound_callFunction sound_evaluateMemberExpression
  sound_evaluateArguments : sound.

Lemma sound_evaluateCallExpression fn args st :
  wellFormed st -> sound validValue (evaluateCallExpression evS evE fn args) st.
Proof. intros W. unfold evaluateCallExpression. sounds. Qed.

Lemma sound_evaluateInfixExpression l op r st :
  wellFormed st -> sound validValue (evaluateInfixExpression evE l op r) st.
Proof. intros W. unfold evaluateInfixExpression. sounds. Qed.

Lemma sound_evaluatePrefixExpression op r st :
  wellFormed st -> sound validValue (evaluatePrefixExpression evE op r) st.
Proof. intros W. unfold evaluatePrefixExpression. sounds. Qed.

Lemma sound_hashPairs Pairs pairs st :
  wellFormed st -> validMap st pairs -> sound validMap (hashPairs evE Pairs pairs) st.
Proof.
  revert pairs st. induction Pairs as [| [k v] Pairs IH]; intros pairs st W Hp;
    cbn [hashPairs]; sounds.
Qed.

#[local] Hint Resolve sound_evaluateCallExpression sound_evaluateInfixExpression
  sound_evaluatePrefixExpression sound_hashPairs sound_evaluateIfStatement
  sound_evaluateTryStatement sound_evaluateWhileStatement
  sound_evaluateForInStatement : sound.

Lemma sound_expressionSwitch exp st :
  wellFormed st -> sound validValue (expressionSwitch evS evE exp) st.
Proof. intros W. unfold expressionSwitch. sounds. Qed.

Lemma sound_statementSwitch stmt st :
  wellFormed st -> sound validValue (statementSwitch evS evE stmt) st.
Proof.
  intros W. unfold statementSwitch, evaluateBreakStatement, evaluateContinueStatement,
    evaluateThrowStatement. sounds.
Qed.

End SoundSteps.

(** Every statement and every expression, at every depth. *)
Lemma sound_evaluate {lib : GoLib} fuel :
  (forall stmt st, wellFormed st -> sound validValue (evaluateStatement fuel stmt) st) /\
  (forall exp st, wellFormed st -> sound validValue (evaluateExpression fuel exp) st).
Proof.
  induction fuel as [| n [IHS IHE]]; split; intros; simpl.
  - apply sound_timeout. assumption.
  - apply sound_timeout. assumption.
  - apply sound_statementSwitch; assumption.
  - apply sound_expressionSwitch; assumption.
Qed.

Lemma wellFormed_NewEvaluator input : wellFormed (NewEvaluator input).
Proof.
  assert (Hnil : forall A (P : A -> Prop) (i : Addr) (x : A), @nil A !! i = Some x -> P x).
  { intros A P i x Hi. rewrite lookup_nil in Hi. discriminate. }
  split; [simpl; lia | split; [apply olderParents_NewEvaluator |]].
  split; [| split; [| split; [| split]]]; try (intros i x; apply Hnil).
  - intros a scope Ha. destruct a as [| a]; simpl in Ha;
      [| rewrite lookup_nil in Ha; discriminate].
    injection Ha as <-. unfold InitBuiltins. simpl.
    repeat (apply validMap_insert; [| exact I]). apply validMap_empty.
  - intros i inst Hi. simpl in Hi. rewrite lookup_nil in Hi. discriminate.
Qed.

Lemma sound_programStatements {lib : GoLib} fuel stmts st :
  wellFormed st -> sound noCondition (programStatements fuel stmts) st.
Proof.
  revert st. induction stmts as [| s stmts IH]; intros st W; cbn [programStatements].
  - apply sound_ret; [exact W | exact I].
  - eapply sound_bind; [apply (proj1 (sound_evaluate fuel)); exact W |].
    intros v st1 W1 _ _. apply IH. exact W1.
Qed.

Lemma sound_EvaluateProgram {lib : GoLib} fuel program st :
  wellFormed st -> sound noCondition (EvaluateProgram fuel program) st.
Proof.
  intros W. unfold EvaluateProgram.
  eapply sound_bind; [apply sound_programStatements; exact W |].
  intros [] st1 W1 _ _.
  eapply sound_bind; [apply sound_getEnv; exact W1 |].
  intros e st2 W2 _ _.
  eapply sound_bind; [apply sound_EnvGet; exact W2 |].
  intros mainFunc st3 W3 _ Hm.
  destruct mainFunc as [[] |]; try (apply sound_ret; [exact W3 | exact I]).
  eapply sound_bind.
  - apply (sound_callZyloFunction (evaluateStatement fuel)).
    + intros stmt st0. apply (proj1 (sound_evaluate fuel)).
    + exact W3.
    + apply (Hm _ eq_refl).
    + constructor.
  - intros v st4 W4 _ _. apply sound_ret; [exact W4 | exact I].
Qed.

(** X22: the well-formed states are closed under evaluation.  A new evaluator
    is well formed; from a well-formed state every statement, every
    expression and every program, however it ends, leaves a well-formed
    state, and the value it returns is valid in it: no value ever points
    outside the store, every environment stays younger than its parent (so
    the lookup of a name ends), and no store gets shorter. *)
Theorem evaluation_keeps_states_well_formed {lib : GoLib} fuel :
  (forall input, wellFormed (NewEvaluator input)) /\
  (forall stmt st, wellFormed st ->
     wellFormed (evaluateStatement fuel stmt st).2 /\
     sizesGrow st (evaluateStatement fuel stmt st).2 /\
     forall v, (evaluateStatement fuel stmt st).1 = Ok v ->
               validValue (evaluateStatement fuel stmt st).2 v) /\
  (forall exp st, wellFormed st ->
     wellFormed (evaluateExpression fuel exp st).2 /\
     sizesGrow st (evaluateExpression fuel exp st).2 /\
     forall v, (evaluateExpression fuel exp st).1 = Ok v ->
               validValue (evaluateExpression fuel exp st).2 v) /\
  (forall program st, wellFormed st -> wellFormed (EvaluateProgram fuel program st).2).
Proof.
  split; [exact wellFormed_NewEvaluator | split; [| split]].
  - intros stmt st W. apply (proj1 (sound_evaluate fuel) stmt st W).
  - intros exp st W. apply (proj2 (sound_evaluate fuel) exp st W).
  - intros program st W. apply (sound_EvaluateProgram fuel program st W).
Qed.

(** The state that the program [sharedDefault] leaves is well formed. *)
Lemma evaluation_keeps_states_well_formed_witness :
  wellFormed (EvaluateProgram (lib := plainLib) 6 sharedDefault (NewEvaluator [])).2.
Proof.
  destruct (evaluation_keeps_states_well_formed (lib := plainLib) 6) as (Hnew & _ & _ & Hp).
  apply Hp. apply Hnew.
Defined.


(** X23: in the state a program leaves, from a new evaluator and however it
    ends, two instances of the same class have the same fields with the same
    values, those of the attributes of the class: nothing that a program can
    do gives an instance a field value of its own.  And the constructor of
    every class is its method named [init]. *)
Theorem instances_of_a_class_have_the_same_fields {lib : GoLib} fuel program input :
  let st := (EvaluateProgram fuel program (NewEvaluator input)).2 in
  (forall (i j : Addr) a b,
     instances st !! i = Some a -> instances st !! j = Some b ->
     Class a = Class b -> Fields a = Fields b) /\
  (forall (i : Addr) a,
     instances st !! i = Some a ->
     exists cls, classes st !! Class a = Some cls /\ Fields a = Attributes cls) /\
  (forall (c : Addr) cls,
     classes st !! c = Some cls -> InitMethod cls = Methods cls !! "init").
Proof.
  intros st.
  destruct (sound_EvaluateProgram fuel program (NewEvaluator input)
              (wellFormed_NewEvaluator input)) as ((_ & _ & _ & _ & _ & Wc & Wi) & _).
  fold st in Wc, Wi. split; [| split].
  - intros i j a b Ha Hb Hab.
    destruct (Wi i a Ha) as (ca & Hca & ->). destruct (Wi j b Hb) as (cb & Hcb & ->).
    rewrite Hab in Hca. congruence.
  - exact Wi.
  - intros c cls Hc. apply (Wc c cls Hc).
Qed.

(** ** What an evaluation writes of the environments

    Every [Set] is on the current environment or on an environment that was
    just created, and the current environment is only ever switched to one
    that was just created, and switched back.  So an evaluation writes, of
    the environments that were there, the current one only; and a block, a
    call or an instantiation writes none of them. *)

Lemma onlyCurrent_refl st : onlyCurrent st st.
Proof. split; [reflexivity | split; [lia | reflexivity]]. Qed.

Lemma onlyCurrent_trans st1 st2 st3 :
  onlyCurrent st1 st2 -> onlyCurrent st2 st3 -> onlyCurrent st1 st3.
Proof.
  intros (E12 & L12 & H12) (E23 & L23 & H23). split; [congruence | split; [lia |]].
  intros a Ha Hne. rewrite H23 by (rewrite ?E12; first [lia | congruence]).
  apply H12; assumption.
Qed.

Lemma onlyCurrent_same_envs st st' :
  env st' = env st -> envs st' = envs st -> onlyCurrent st st'.
Proof. intros E1 E2. unfold onlyCurrent. rewrite E1, E2. repeat split. lia. Qed.

Lemma onlyCurrent_writeVar name value st : onlyCurrent st (writeVar name value st).
Proof.
  split; [reflexivity | split; [simpl; rewrite length_alter; lia |]].
  intros a Ha Hne. simpl. apply list_lookup_alter_ne. congruence.
Qed.

Lemma NewChildEnvironment_onlyCurrent e : Respects onlyCurrent (NewChildEnvironment e).
Proof.
  intros st. split; [reflexivity | split; [simpl; rewrite length_app; lia |]].
  intros a Ha Hne. simpl. apply lookup_app_l. exact Ha.
Qed.

(** The environments that were there are all as they were. *)
Lemma untouched_onlyCurrent st st' :
  env st' = env st -> length (envs st) <= length (envs st') ->
  (forall a : Addr, a < length (envs st) -> envs st' !! a = envs st !! a) ->
  onlyCurrent st st'.
Proof. intros E L H. split; [exact E | split; [exact L | auto]]. Qed.

Lemma onlyCurrent_set_lists ls st : onlyCurrent st (set_lists ls st).
Proof. apply onlyCurrent_same_envs; reflexivity. Qed.

Lemma onlyCurrent_set_hashes hs st : onlyCurrent st (set_hashes hs st).
Proof. apply onlyCurrent_same_envs; reflexivity. Qed.

Lemma onlyCurrent_set_classes cs st : onlyCurrent st (set_classes cs st).
Proof. apply onlyCurrent_same_envs; reflexivity. Qed.

Lemma onlyCurrent_set_instances ins st : onlyCurrent st (set_instances ins st).
Proof. apply onlyCurrent_same_envs; reflexivity. Qed.

Lemma onlyCurrent_set_console i o st : onlyCurrent st (set_console i o st).
Proof. apply onlyCurrent_same_envs; reflexivity. Qed.

Section ScopeFrame.
Context {lib : GoLib}.
Variable evS : Statement -> M Value.
Variable evE : Expression -> M Value.
Hypothesis evS_respects : forall stmt, Respects onlyCurrent (evS stmt).
Hypothesis evE_respects : forall exp, Respects onlyCurrent (evE exp).

(** A [Set] on the current environment. *)
Lemma onlyCurrent_setCurrent name (value : Addr -> Value) :
  Respects onlyCurrent (e <- getEnv ;; EnvSet e name (value e)).
Proof. intros st. apply onlyCurrent_writeVar. Qed.

Lemma onlyCurrent_evaluateImportStatement name :
  Respects onlyCurrent (evaluateImportStatement name).
Proof.
  intros st. destruct name as [name |]; [| apply onlyCurrent_refl].
  unfold evaluateImportStatement, bind, getEnv, EnvGet.
  destruct (lookupChain _ _ _ _); [apply onlyCurrent_refl |].
  destruct (String.eqb name "zyloruntime"); [apply onlyCurrent_writeVar | apply onlyCurrent_refl].
Qed.

(** The part of an assignment after its right side. *)
Lemma onlyCurrent_assign x right :
  Respects onlyCurrent
    (e <- getEnv ;;
     found <- EnvGet e x ;;
     match found with
     | None => fail ("variable no definida: " ++ x)%string
     | Some _ => EnvSet e x right ;;; ret right
     end).
Proof.
  intros st. unfold bind, getEnv, EnvGet.
  destruct (lookupChain _ _ _ _); [apply onlyCurrent_writeVar | apply onlyCurrent_refl].
Qed.

(** A block: the environments that were there are all as they were. *)
Lemma evaluateBlockStatement_untouched stmts st :
  env (evaluateBlockStatement evS stmts st).2 = env st /\
  length (envs st) <= length (envs (evaluateBlockStatement evS stmts st).2) /\
  forall a : Addr, a < length (envs st) ->
    envs (evaluateBlockStatement evS stmts st).2 !! a = envs st !! a.
Proof.
  rewrite evaluateBlockStatement_enter.
  pose proof (respects_blockStatements onlyCurrent onlyCurrent_refl onlyCurrent_trans
                evS evS_respects stmts VNull (enterBlock st)) as (E & L & H).
  destruct (blockStatements evS stmts VNull (enterBlock st)) as [r st']. simpl in *.
  rewrite length_app in L. simpl in L.
  split; [reflexivity | split; [lia |]].
  intros a Ha. rewrite H by (rewrite ?length_app; simpl; lia).
  apply lookup_app_l. exact Ha.
Qed.

Lemma onlyCurrent_evaluateBlockStatement stmts :
  Respects onlyCurrent (evaluateBlockStatement evS stmts).
Proof.
  intros st. destruct (evaluateBlockStatement_untouched stmts st) as (E & L & H).
  apply untouched_onlyCurrent; assumption.
Qed.

(** A call: the environments that were there are all as they were. *)
Lemma callZyloFunction_untouched fn args st :
  env (callZyloFunction evS fn args st).2 = env st /\
  length (envs st) <= length (envs (callZyloFunction evS fn args st).2) /\
  forall a : Addr, a < length (envs st) ->
    envs (callZyloFunction evS fn args st).2 !! a = envs st !! a.
Proof.
  rewrite callZyloFunction_entry.
  destruct (callEntry_envs fn args st)
    as (scope' & Henv & Hlen & Hblock & Hcall & Hparent & Hold & _).
  pose proof (respects_blockStatements onlyCurrent onlyCurrent_refl onlyCurrent_trans
                evS evS_respects (fnBody fn) VNull (callEntry fn args st)) as (E & L & H).
  destruct (blockStatements evS (fnBody fn) VNull (callEntry fn args st)) as [r st'].
  simpl in *. split; [reflexivity | split; [lia |]].
  intros a Ha. rewrite H by lia. apply Hold. exact Ha.
Qed.

Lemma onlyCurrent_callZyloFunction fn args :
  Respects onlyCurrent (callZyloFunction evS fn args).
Proof.
  intros st. destruct (callZyloFunction_untouched fn args st) as (E & L & H).
  apply untouched_onlyCurrent; assumption.
Qed.

Lemma onlyCurrent_callBoundMethod instance method args :
  Respects onlyCurrent (callBoundMethod evS instance method args).
Proof.
  exact (onlyCurrent_callZyloFunction
           {| fnName := fnName method; fnParameters := "this" :: fnParameters method;
              fnBody := fnBody method; fnEnv := fnEnv method |}
           (VInstance instance :: args)).
Qed.

Create HintDb scope.
#[local] Hint Resolve onlyCurrent_refl onlyCurrent_trans NewChildEnvironment_onlyCurrent
  onlyCurrent_set_lists onlyCurrent_set_hashes onlyCurrent_set_classes
  onlyCurrent_set_instances onlyCurrent_set_console
  evS_respects evE_respects
  onlyCurrent_setCurrent onlyCurrent_evaluateImportStatement onlyCurrent_assign
  onlyCurrent_evaluateBlockStatement onlyCurrent_callZyloFunction
  onlyCurrent_callBoundMethod
  respects_ret respects_fail respects_timeout respects_lift
  respects_getEnv respects_EnvGet respects_Items respects_getClass
  respects_getInstance respects_setItems respects_newList respects_newHash
  respects_newClass respects_newInstance respects_Print respects_ReadString
  respects_indexValue respects_evaluateIdentifier respects_evaluateThisExpression
  respects_blockStatements respects_whileBody respects_evaluateWhileStatement
  respects_classAttributes respects_evaluateExpressions
  respects_evaluateMemberExpression respects_evaluateArguments
  respects_evaluatePrefixExpression respects_hashPairs : scope.

Ltac scope :=
  repeat first
    [ solve [eauto 6 with scope]
    | lazymatch goal with
      | |- Respects _ (bind _ _) =>
          apply (respects_bind onlyCurrent onlyCurrent_trans); [| intros ?]
      | |- Respects _ (onError _ _) =>
          apply (respects_onError onlyCurrent onlyCurrent_trans); [| intros ?]
      | |- Respects _ (match ?x with _ => _ end) => destruct x
      end ].

Lemma onlyCurrent_evaluateVarStatement name value :
  Respects onlyCurrent (evaluateVarStatement evE name value).
Proof.
  unfold evaluateVarStatement.
  apply (respects_bind onlyCurrent onlyCurrent_trans); [scope |].
  intros v. apply (onlyCurrent_setCurrent name (fun _ => v)).
Qed.

Lemma onlyCurrent_evaluateFuncStatement name params body :
  Respects onlyCurrent (evaluateFuncStatement name params body).
Proof.
  exact (onlyCurrent_setCurrent name
           (fun e => VFunction {| fnName := name; fnParameters := params;
                                  fnBody := body; fnEnv := e |})).
Qed.

Lemma onlyCurrent_forInElements ident body elements :
  Respects onlyCurrent (forInElements evS ident body elements).
Proof.
  induction elements as [| x elements IH]; intros st; [apply onlyCurrent_refl |].
  rewrite forInElements_cons.
  pose proof (onlyCurrent_evaluateBlockStatement body (writeVar ident x st)) as K.
  pose proof (onlyCurrent_writeVar ident x st) as K0.
  destruct (evaluateBlockStatement evS body (writeVar ident x st)) as [[v | msg |] st'];
    simpl in K; try (eapply onlyCurrent_trans; eassumption).
  destruct v; simpl;
    first [ eapply onlyCurrent_trans; [exact K0 | exact K]
          | eapply onlyCurrent_trans;
            [eapply onlyCurrent_trans; [exact K0 | exact K] | apply IH] ].
Qed.

Lemma onlyCurrent_evaluateClassStatement name attrs meths :
  Respects onlyCurrent (evaluateClassStatement evE name attrs meths).
Proof.
  unfold evaluateClassStatement.
  apply (respects_bind onlyCurrent onlyCurrent_trans); [scope |].
  intros attributes st.
  set (c := fold_left (classMethod (env st)) meths
              {| clsName := name; Attributes := attributes; Methods := ∅;
                 InitMethod := None |}).
  eapply onlyCurrent_trans; [apply (onlyCurrent_set_classes (classes st ++ [c]) st) |].
  apply (onlyCurrent_writeVar name (VClass (length (classes st)))
           (set_classes (classes st ++ [c]) st)).
Qed.

#[local] Hint Resolve onlyCurrent_evaluateVarStatement onlyCurrent_evaluateFuncStatement
  onlyCurrent_forInElements onlyCurrent_evaluateClassStatement : scope.

Lemma onlyCurrent_evaluateIfStatement cond consequence alt :
  Respects onlyCurrent (evaluateIfStatement evS evE cond consequence alt).
Proof. unfold evaluateIfStatement. scope. Qed.

Lemma onlyCurrent_evaluateTryStatement tryBlock catch finally :
  Respects onlyCurrent (evaluateTryStatement evS tryBlock catch finally).
Proof. unfold evaluateTryStatement. scope. Qed.

Lemma onlyCurrent_evaluateForInStatement ident iter body :
  Respects onlyCurrent (evaluateForInStatement evS evE ident iter body).
Proof. unfold evaluateForInStatement. scope. Qed.

(** The constructor call of an instantiation is a bound-method call. *)
Lemma instantiateClass_init instance init evalArgs st :
  ((funcEnv <- NewChildEnvironment (fnEnv init) ;;
    EnvSet funcEnv "this" (VInstance instance) ;;;
    bindParameters funcEnv (fnParameters init) evalArgs ;;;
    withEnv funcEnv (evaluateBlockStatement evS (fnBody init)) ;;;
    ret (VInstance instance)) st).2
  = (callBoundMethod evS instance init evalArgs st).2.
Proof.
  unfold callBoundMethod, bind, NewChildEnvironment, EnvSet, ret. cbv beta iota.
  cbn [fst snd].
  destruct (bindParameters _ _ _ _) as [[u | msg |] st1]; try reflexivity.
  destruct (withEnv _ _ _) as [[v | msg |] st2]; reflexivity.
Qed.

Lemma onlyCurrent_instantiateClass class args :
  Respects onlyCurrent (instantiateClass evS evE class args).
Proof.
  unfold instantiateClass.
  apply (respects_bind onlyCurrent onlyCurrent_trans); [scope |]. intros classObj.
  apply (respects_bind onlyCurrent onlyCurrent_trans); [scope |]. intros instance.
  destruct (InitMethod classObj) as [init |]; [| scope].
  apply (respects_bind onlyCurrent onlyCurrent_trans); [scope |]. intros evalArgs st.
  rewrite instantiateClass_init. apply onlyCurrent_callBoundMethod.
Qed.

Lemma onlyCurrent_callBuiltin f args : Respects onlyCurrent (callBuiltin evS f args).
Proof.
  destruct f; cbn [callBuiltin]; unfold splitBuiltin, operatorBuiltin; scope.
  intros st. destruct (readInt (stdin st) (stdout st)) as [[n input] output].
  apply onlyCurrent_set_console.
Qed.

#[local] Hint Resolve onlyCurrent_evaluateIfStatement onlyCurrent_evaluateTryStatement
  onlyCurrent_evaluateForInStatement onlyCurrent_instantiateClass
  onlyCurrent_callBuiltin : scope.

Lemma onlyCurrent_callFunction fn args : Respects onlyCurrent (callFunction evS fn args).
Proof. unfold callFunction. scope. Qed.

#[local] Hint Resolve onlyCurrent_callFunction : scope.

Lemma onlyCurrent_evaluateCallExpression fn args :
  Respects onlyCurrent (evaluateCallExpression evS evE fn args).
Proof. unfold evaluateCallExpression. scope. Qed.

Lemma onlyCurrent_evaluateInfixExpression l op r :
  Respects onlyCurrent (evaluateInfixExpression evE l op r).
Proof. unfold evaluateInfixExpression. scope. Qed.

#[local] Hint Resolve onlyCurrent_evaluateCallExpression
  onlyCurrent_evaluateInfixExpression : scope.

Lemma onlyCurrent_expressionSwitch exp : Respects onlyCurrent (expressionSwitch evS evE exp).
Proof. unfold expressionSwitch. scope. Qed.

Lemma onlyCurrent_statementSwitch stmt : Respects onlyCurrent (statementSwitch evS evE stmt).
Proof.
  unfold statementSwitch, evaluateBreakStatement, evaluateContinueStatement,
    evaluateThrowStatement. scope.
Qed.

End ScopeFrame.

Lemma evaluate_onlyCurrent {lib : GoLib} fuel :
  (forall stmt, Respects onlyCurrent (evaluateStatement fuel stmt)) /\
  (forall exp, Respects onlyCurrent (evaluateExpression fuel exp)).
Proof.
  induction fuel as [| n [IHS IHE]]; split; intros; simpl.
  - apply respects_timeout. exact onlyCurrent_refl.
  - apply respects_timeout. exact onlyCurrent_refl.
  - apply onlyCurrent_statementSwitch; assumption.
  - apply onlyCurrent_expressionSwitch; assumption.
Qed.

(** ** Writes in the body of a while loop, and in the blocks nested in it *)

Lemma evaluateStatement_onlyCurrent {lib : GoLib} fuel stmt st :
  onlyCurrent st (evaluateStatement fuel stmt st).2.
Proof. apply (proj1 (evaluate_onlyCurrent fuel)). Qed.

(** A block, whatever its statements and however it ends, leaves the current
    environment current and every environment that was there as it was. *)
Lemma block_untouched {lib : GoLib} m stmts st :
  env (evaluateBlockStatement (evaluateStatement m) stmts st).2 = env st /\
  length (envs st) <= length (envs (evaluateBlockStatement (evaluateStatement m) stmts st).2) /\
  forall a : Addr, a < length (envs st) ->
    envs (evaluateBlockStatement (evaluateStatement m) stmts st).2 !! a = envs st !! a.
Proof.
  apply evaluateBlockStatement_untouched. intros stmt st0. apply evaluateStatement_onlyCurrent.
Qed.

(** What is looked up from the current environment depends on the
    environments that were there when it became current only. *)
Lemma lookupVar_untouched y st st' :
  olderParents (envs st) -> validEnv st ->
  env st' = env st -> length (envs st) <= length (envs st') ->
  (forall a : Addr, a < length (envs st) -> envs st' !! a = envs st !! a) ->
  lookupVar y st' = lookupVar y st.
Proof.
  unfold validEnv, lookupVar. intros Hop Hv E L H. rewrite E.
  rewrite (lookupChain_older (envs st) (envs st') y _ (env st) Hop)
    by (intros a Ha; apply H; lia).
  apply lookupChain_enough; [exact Hop | lia | lia].
Qed.

(** A turn of a while loop in whose body a write of [x] is reached: the rest
    of the body, and the turns that follow, start from the state the write
    left, in which the environment of the loop is current and binds [x]. *)
Lemma while_turn_at {lib : GoLib} n cond pre stmt post x st cv st1 st2 v st3 m :
  evaluateExpression n cond st = (Ok cv, st1) ->
  isTruthy (Some cv) = true ->
  completes (evaluateStatement n) pre st1 st2 ->
  writes n stmt x v st2 st3 ->
  n + 1 < m ->
  evaluateStatement (S m) (WhileStatement cond (pre ++ stmt :: post)) st
  = bind (whileBody (evaluateStatement m) post)
      (fun broken : bool =>
         if broken then ret VNull
         else evaluateStatement m (WhileStatement cond (pre ++ stmt :: post)))
      (writeVar x v st3).
Proof.
  intros Hcond Hcv Hpre Hw Hm.
  destruct (writes_statement _ _ _ _ _ _ Hw m Hm) as (r & Hr & Hs).
  change (evaluateWhileStatement (evaluateStatement m) (evaluateExpression m)
            (evaluateStatement m (WhileStatement cond (pre ++ stmt :: post)))
            cond (pre ++ stmt :: post) st
          = bind (whileBody (evaluateStatement m) post)
              (fun broken : bool =>
                 if broken then ret VNull
                 else evaluateStatement m (WhileStatement cond (pre ++ stmt :: post)))
              (writeVar x v st3)).
  unfold evaluateWhileStatement, bind at 1.
  rewrite (evaluateExpression_Ok_more_fuel n m cond st cv st1) by (lia || assumption).
  rewrite Hcv. cbn [negb]. unfold bind at 1.
  rewrite (whileBody_app (evaluateStatement m) pre (stmt :: post) st1 st2)
    by (eapply completes_more_fuel; [| exact Hpre]; lia).
  cbn [whileBody]. unfold bind at 1. rewrite Hr.
  destruct r; simpl in Hs; try discriminate; reflexivity.
Qed.

(** The environment of the loop has the same length of store behind it. *)
Lemma while_turn_valid {lib : GoLib} n cond pre stmt x st cv st1 st2 v st3 :
  evaluateExpression n cond st = (Ok cv, st1) ->
  completes (evaluateStatement n) pre st1 st2 ->
  writes n stmt x v st2 st3 ->
  env st3 = env st /\ (validEnv st -> validEnv st3).
Proof.
  intros Hcond Hpre Hw.
  assert (E1 : env st1 = env st).
  { pose proof (evaluateExpression_env n cond st) as E. rewrite Hcond in E. exact E. }
  assert (E2 : env st2 = env st1) by (eapply completes_sameEnv; exact Hpre).
  destruct (writes_frame _ _ _ _ _ _ Hw) as [E3 [K3 _]].
  split; [congruence |].
  unfold validEnv. intros Hv.
  pose proof (evaluateExpression_envsKept n cond st) as [K1 _].
  rewrite Hcond in K1. simpl in K1.
  pose proof (completes_envsKept _ _ _ _ Hpre) as [K2 _].
  rewrite E3, E2, E1. lia.
Qed.

(** No statement removes a binding. *)
Lemma binding_kept {lib : GoLib} A (m : M A) (a : Addr) x st scope :
  Respects allKept m ->
  envs st !! a = Some scope -> is_Some (variables scope !! x) ->
  exists scope', envs (m st).2 !! a = Some scope' /\ parent scope' = parent scope /\
                 is_Some (variables scope' !! x).
Proof.
  intros Hm Ha Hx. destruct (Hm st) as [(E & _) _].
  destruct (E a scope Ha) as (scope' & H1 & H2 & H3).
  exists scope'. split; [exact H1 | split; [exact H2 | apply H3; exact Hx]].
Qed.

Lemma evaluateStatement_allKept {lib : GoLib} fuel stmt :
  Respects allKept (evaluateStatement fuel stmt).
Proof. apply (proj1 (evaluate_allKept fuel)). Qed.

Lemma lookupVar_bound x st scope :
  envs st !! env st = Some scope -> is_Some (variables scope !! x) ->
  is_Some (lookupVar x st).
Proof.
  intros He [w Hw]. unfold lookupVar.
  destruct (length (envs st)) as [| d] eqn:L.
  - apply length_zero_iff_nil in L. rewrite L in He. rewrite lookup_nil in He. discriminate.
  - cbn [lookupChain]. rewrite He, Hw. eexists; reflexivity.
Qed.

(** After the loop of [while_turn_at], however it ends, [x] is bound in the
    environment of the loop, which is current. *)
Lemma while_turn_after {lib : GoLib} n cond pre stmt post x st cv st1 st2 v st3 m :
  evaluateExpression n cond st = (Ok cv, st1) ->
  isTruthy (Some cv) = true ->
  completes (evaluateStatement n) pre st1 st2 ->
  writes n stmt x v st2 st3 ->
  n + 1 < m ->
  validEnv st ->
  env (evaluateStatement (S m) (WhileStatement cond (pre ++ stmt :: post)) st).2 = env st /\
  (exists scope',
     envs (evaluateStatement (S m) (WhileStatement cond (pre ++ stmt :: post)) st).2 !! env st
     = Some scope' /\
     is_Some (variables scope' !! x)) /\
  is_Some (lookupVar x
    (evaluateStatement (S m) (WhileStatement cond (pre ++ stmt :: post)) st).2).
Proof.
  intros Hcond Hcv Hpre Hw Hm Hv.
  pose proof (evaluateStatement_env (S m) (WhileStatement cond (pre ++ stmt :: post)) st) as E.
  split; [exact E |].
  cut (exists scope',
         envs (evaluateStatement (S m) (WhileStatement cond (pre ++ stmt :: post)) st).2
           !! env st = Some scope' /\
         is_Some (variables scope' !! x)).
  { intros (scope' & H1 & H3). split; [exists scope'; split; assumption |].
    apply (lookupVar_bound x _ scope'); [rewrite E; exact H1 | exact H3]. }
  destruct (while_turn_valid _ _ _ _ _ _ _ _ _ _ _ Hcond Hpre Hw) as [E3 V3].
  specialize (V3 Hv). unfold validEnv in V3.
  destruct (lookup_lt_is_Some_2 _ _ V3) as [scope3 Hs3].
  assert (Hb : envs (writeVar x v st3) !! env st = Some (bindVar x v scope3)).
  { simpl. rewrite <- E3. rewrite list_lookup_alter_eq, Hs3. reflexivity. }
  assert (Hx : is_Some (variables (bindVar x v scope3) !! x)).
  { exists v. simpl. apply lookup_insert_eq. }
  assert (Hk : Respects allKept
                 (bind (whileBody (evaluateStatement m) post)
                    (fun broken : bool =>
                       if broken then ret VNull
                       else evaluateStatement m (WhileStatement cond (pre ++ stmt :: post))))).
  { apply (respects_bind allKept allKept_trans).
    - apply (respects_whileBody allKept allKept_refl allKept_trans).
      intros s. apply evaluateStatement_allKept.
    - intros [|]; [apply (respects_ret allKept allKept_refl) | apply evaluateStatement_allKept]. }
  destruct (binding_kept _ _ _ x _ _ Hk Hb Hx) as (scope' & H1 & _ & H3).
  rewrite <- (while_turn_at n cond pre stmt post x st cv st1 st2 v st3 m) in H1
    by assumption.
  exists scope'. split; assumption.
Qed.

(** An if statement leaves the environments as its condition left them. *)
Lemma if_untouched {lib : GoLib} m cond consequence alt st (a : Addr) :
  a < length (envs (evaluateExpression m cond st).2) ->
  envs (evaluateStatement (S m) (IfStatement cond consequence alt) st).2 !! a
  = envs (evaluateExpression m cond st).2 !! a.
Proof.
  change (evaluateStatement (S m) (IfStatement cond consequence alt) st)
    with (evaluateIfStatement (evaluateStatement m) (evaluateExpression m)
            cond consequence alt st).
  unfold evaluateIfStatement, bind.
  destruct (evaluateExpression m cond st) as [[cv | msg |] st1]; cbn [fst snd];
    try reflexivity.
  intros Ha. destruct (isTruthy (Some cv)); [| destruct alt as [alternative |]].
  - apply (proj2 (proj2 (block_untouched m consequence st1))). exact Ha.
  - apply (proj2 (proj2 (block_untouched m alternative st1))). exact Ha.
  - reflexivity.
Qed.

(** The iterations of a for-in loop change, of the environments that were
    there, the current one only, and in it the loop variable only. *)
Lemma forInElements_untouched {lib : GoLib} m ident body elements st :
  env (forInElements (evaluateStatement m) ident body elements st).2 = env st /\
  length (envs st)
    <= length (envs (forInElements (evaluateStatement m) ident body elements st).2) /\
  (forall a : Addr, a < length (envs st) -> a <> env st ->
     envs (forInElements (evaluateStatement m) ident body elements st).2 !! a
     = envs st !! a) /\
  (forall scope, envs st !! env st = Some scope ->
     exists scope',
       envs (forInElements (evaluateStatement m) ident body elements st).2 !! env st
       = Some scope' /\
       parent scope' = parent scope /\
       forall y, y <> ident -> variables scope' !! y = variables scope !! y).
Proof.
  revert st. induction elements as [| element rest IH]; intros st.
  - simpl. split; [reflexivity | split; [lia | split; [reflexivity |]]].
    intros scope Hs. exists scope. auto.
  - rewrite forInElements_cons.
    destruct (block_untouched m body (writeVar ident element st)) as (E & L & H).
    assert (Hbody :
      forall st', env st' = env st ->
        length (envs st) <= length (envs st') ->
        (forall a : Addr, a < length (envs st) -> envs st' !! a
                                                   = envs (writeVar ident element st) !! a) ->
        env st' = env st /\ length (envs st) <= length (envs st') /\
        (forall a : Addr, a < length (envs st) -> a <> env st ->
           envs st' !! a = envs st !! a) /\
        (forall scope, envs st !! env st = Some scope ->
           exists scope', envs st' !! env st = Some scope' /\
             parent scope' = parent scope /\
             forall y, y <> ident -> variables scope' !! y = variables scope !! y)).
    { intros st' E' L' H'. split; [exact E' | split; [exact L' | split]].
      - intros a Ha Hne. rewrite H' by exact Ha. simpl.
        apply list_lookup_alter_ne. congruence.
      - intros scope Hs. exists (bindVar ident element scope).
        assert (Hlt : env st < length (envs st)) by (eapply lookup_lt_Some; exact Hs).
        rewrite H' by exact Hlt. simpl. rewrite list_lookup_alter_eq.
        unfold Addr in *. rewrite Hs.
        split; [reflexivity | split; [reflexivity |]].
        intros y Hy. simpl. apply lookup_insert_ne. congruence. }
    simpl in E, L, H. rewrite length_alter in L, H.
    destruct (evaluateBlockStatement (evaluateStatement m) body (writeVar ident element st))
      as [[r | msg |] st1]; simpl in E, L, H;
      try (apply Hbody; assumption).
    destruct (Hbody st1 E L H) as (B1 & B2 & B3 & B4).
    assert (Hrest :
      env (forInElements (evaluateStatement m) ident body rest st1).2 = env st /\
      length (envs st)
        <= length (envs (forInElements (evaluateStatement m) ident body rest st1).2) /\
      (forall a : Addr, a < length (envs st) -> a <> env st ->
         envs (forInElements (evaluateStatement m) ident body rest st1).2 !! a
         = envs st !! a) /\
      (forall scope, envs st !! env st = Some scope ->
         exists scope',
           envs (forInElements (evaluateStatement m) ident body rest st1).2 !! env st
           = Some scope' /\
           parent scope' = parent scope /\
           forall y, y <> ident -> variables scope' !! y = variables scope !! y)).
    { destruct (IH st1) as (I1 & I2 & I3 & I4).
      split; [congruence | split; [lia | split]].
      - intros a Ha Hne. rewrite I3 by (rewrite ?B1; first [lia | congruence]).
        apply B3; assumption.
      - intros scope Hs. destruct (B4 scope Hs) as (scope1 & S1 & P1 & V1).
        rewrite <- B1 in S1. destruct (I4 scope1 S1) as (scope2 & S2 & P2 & V2).
        rewrite B1 in S2. exists scope2.
        split; [exact S2 | split; [congruence |]].
        intros y Hy. rewrite V2 by exact Hy. apply V1. exact Hy. }
    destruct r; first [exact Hrest | apply Hbody; assumption].
Qed.

(** A block in which a write of [x] is reached: the write goes to the child
    environment of the block, the environment in which the block was entered
    keeps the bindings it had, and the rest of the block is evaluated from
    the state the write left. *)
Lemma block_write_at {lib : GoLib} n pre stmt post x st st2 v st3 :
  validEnv st ->
  completes (evaluateStatement n) pre (enterBlock st) st2 ->
  writes n stmt x v st2 st3 ->
  env st3 = length (envs st) /\
  envs st !! env st3 = None /\
  lookupVar x (writeVar x v st3) = Some v /\
  envs (writeVar x v st3) !! env st = envs st3 !! env st /\
  forall m, n + 1 < m ->
  exists r, isSentinel r = false /\
    evaluateBlockStatement (evaluateStatement m) (pre ++ stmt :: post) st
    = (let (r', st') := blockStatements (evaluateStatement m) post r (writeVar x v st3) in
       (r', set_env (env st) st')).
Proof.
  intros Hv Hpre Hw. unfold validEnv in Hv.
  assert (E2 : env st2 = length (envs st)).
  { rewrite (completes_sameEnv _ _ _ _ Hpre). reflexivity. }
  destruct (writes_frame _ _ _ _ _ _ Hw) as [E3 [K3 _]].
  assert (K : length (envs st) < length (envs st3)).
  { pose proof (completes_envsKept _ _ _ _ Hpre) as [K2 _].
    simpl in K2. rewrite length_app in K2. simpl in K2. lia. }
  split; [congruence | split; [| split; [| split]]].
  - apply lookup_ge_None_2. lia.
  - apply lookupVar_writeVar. unfold validEnv. lia.
  - unfold writeVar. simpl. apply list_lookup_alter_ne. lia.
  - intros m Hm. destruct (writes_statement _ _ _ _ _ _ Hw m Hm) as (r & Hr & Hs).
    exists r. split; [exact Hs |].
    rewrite evaluateBlockStatement_enter.
    destruct (blockStatements_app (evaluateStatement m) pre (stmt :: post) VNull
                (enterBlock st) st2) as [last' ->].
    { eapply completes_more_fuel; [| exact Hpre]. lia. }
    cbn [blockStatements]. unfold bind at 1. rewrite Hr.
    destruct r; simpl in Hs; try discriminate; reflexivity.
Qed.

(** C2 (amended): the statements of a while body run directly in the
    enclosing environment.  The loop ends with the state its condition left.
    In a turn, a write of [x] that is one of the statements of the body, at
    any position in it ([var x = e], or [x = e] for a defined [x], reached
    without an error, a break or a continue), binds [x] to the value written
    in the enclosing environment, which stays current; the rest of the body
    and the turns that follow are evaluated from the state with that binding
    (with no statement after the write this is the next turn), and when the
    loop is over, however it ends, the enclosing environment is current and
    [x] is bound in it.  No statement removes a binding of any environment.
    A block, by contrast, whatever its statements and however deep the
    writes in them, is evaluated with a fresh child environment current and
    leaves every environment that was there as it was, so that every lookup
    from the enclosing environment gives what it gave before: a write of
    [x] that is one of its statements binds [x] in the child, the
    environment in which the block was entered keeping the bindings it
    had.  The body of an if
    statement and of each for-in iteration is such a block, also inside a
    while body: an if statement leaves the environments as its condition left
    them, and the iterations of a for-in statement change, of the
    environments that were there, the enclosing one only, and in it the loop
    variable only.  (Conditions, right-hand sides and the statements before
    the write are evaluated with fuel [n]; enough more fuel gives the
    result.) *)
Theorem while_body_in_enclosing_scope {lib : GoLib} n :
  (forall cond body st cv st1,
     evaluateExpression n cond st = (Ok cv, st1) ->
     isTruthy (Some cv) = false ->
     forall m, n < m ->
     evaluateStatement m (WhileStatement cond body) st = (Ok VNull, st1)) /\
  (forall cond pre stmt post x st cv st1 st2 v st3,
     evaluateExpression n cond st = (Ok cv, st1) ->
     isTruthy (Some cv) = true ->
     completes (evaluateStatement n) pre st1 st2 ->
     writes n stmt x v st2 st3 ->
     env (writeVar x v st3) = env st /\
     (validEnv st -> lookupVar x (writeVar x v st3) = Some v) /\
     forall m, n + 1 < m ->
     evaluateStatement (S m) (WhileStatement cond (pre ++ stmt :: post)) st
     = bind (whileBody (evaluateStatement m) post)
         (fun broken : bool =>
            if broken then ret VNull
            else evaluateStatement m (WhileStatement cond (pre ++ stmt :: post)))
         (writeVar x v st3) /\
     env (evaluateStatement (S m) (WhileStatement cond (pre ++ stmt :: post)) st).2
     = env st /\
     (validEnv st ->
      (exists scope',
         envs (evaluateStatement (S m) (WhileStatement cond (pre ++ stmt :: post)) st).2
           !! env st = Some scope' /\
         is_Some (variables scope' !! x)) /\
      is_Some (lookupVar x
        (evaluateStatement (S m) (WhileStatement cond (pre ++ stmt :: post)) st).2))) /\
  (forall m stmt st (a : Addr) scope x,
     envs st !! a = Some scope ->
     is_Some (variables scope !! x) ->
     exists scope',
       envs (evaluateStatement m stmt st).2 !! a = Some scope' /\
       parent scope' = parent scope /\
       is_Some (variables scope' !! x)) /\
  (forall m stmts st,
     env (evaluateBlockStatement (evaluateStatement m) stmts st).2 = env st /\
     (forall a : Addr, a < length (envs st) ->
        envs (evaluateBlockStatement (evaluateStatement m) stmts st).2 !! a
        = envs st !! a) /\
     (olderParents (envs st) -> validEnv st ->
      forall y, lookupVar y (evaluateBlockStatement (evaluateStatement m) stmts st).2
                = lookupVar y st)) /\
  (forall pre x init st st2 v st3,
     init <> NilExpression ->
     validEnv st ->
     completes (evaluateStatement n) pre (enterBlock st) st2 ->
     evaluateExpression n init st2 = (Ok v, st3) ->
     env st3 = length (envs st) /\
     envs st !! env st3 = None /\
     lookupVar x (writeVar x v st3) = Some v /\
     envs (writeVar x v st3) !! env st = envs st3 !! env st /\
     forall m, n < m ->
     evaluateBlockStatement (evaluateStatement m) (pre ++ [VarStatement x init]) st
     = (Ok VNull, set_env (env st) (writeVar x v st3))) /\
  (forall pre stmt post x st st2 v st3,
     validEnv st ->
     completes (evaluateStatement n) pre (enterBlock st) st2 ->
     writes n stmt x v st2 st3 ->
     env st3 = length (envs st) /\
     envs st !! env st3 = None /\
     lookupVar x (writeVar x v st3) = Some v /\
     envs (writeVar x v st3) !! env st = envs st3 !! env st /\
     forall m, n + 1 < m ->
     exists r, isSentinel r = false /\
       evaluateBlockStatement (evaluateStatement m) (pre ++ stmt :: post) st
       = (let (r', st') :=
            blockStatements (evaluateStatement m) post r (writeVar x v st3) in
          (r', set_env (env st) st'))) /\
  (forall cond consequence alt st cv st1,
     evaluateExpression n cond st = (Ok cv, st1) ->
     isTruthy (Some cv) = true ->
     forall m, n <= m ->
     evaluateStatement (S m) (IfStatement cond consequence alt) st
     = evaluateBlockStatement (evaluateStatement m) consequence st1) /\
  (forall m cond consequence alt st (a : Addr),
     a < length (envs (evaluateExpression m cond st).2) ->
     envs (evaluateStatement (S m) (IfStatement cond consequence alt) st).2 !! a
     = envs (evaluateExpression m cond st).2 !! a) /\
  (forall m ident body element rest st,
     forInElements (evaluateStatement m) ident body (element :: rest) st
     = match evaluateBlockStatement (evaluateStatement m) body (writeVar ident element st) with
       | (Ok VBreak, st') => (Ok tt, st')
       | (Ok _, st') => forInElements (evaluateStatement m) ident body rest st'
       | (Err msg, st') => (Err msg, st')
       | (OutOfFuel, st') => (OutOfFuel, st')
       end) /\
  (forall m ident body elements st,
     env (forInElements (evaluateStatement m) ident body elements st).2 = env st /\
     (forall a : Addr, a < length (envs st) -> a <> env st ->
        envs (forInElements (evaluateStatement m) ident body elements st).2 !! a
        = envs st !! a) /\
     (forall scope, envs st !! env st = Some scope ->
        exists scope',
          envs (forInElements (evaluateStatement m) ident body elements st).2 !! env st
          = Some scope' /\
          parent scope' = parent scope /\
          forall y, y <> ident -> variables scope' !! y = variables scope !! y)).
Proof.
  split; [| split; [| split; [| split; [| split; [| split; [| split; [| split; [| split]]]]]]]].
  - intros cond body st cv st1 Hcond Hcv [| m] Hm; [lia |].
    change (evaluateWhileStatement (evaluateStatement m) (evaluateExpression m)
              (evaluateStatement m (WhileStatement cond body)) cond body st
            = (Ok VNull, st1)).
    unfold evaluateWhileStatement, bind.
    rewrite (evaluateExpression_Ok_more_fuel n m cond st cv st1) by (lia || assumption).
    rewrite Hcv. reflexivity.
  - intros cond pre stmt post x st cv st1 st2 v st3 Hcond Hcv Hpre Hw.
    destruct (while_turn_valid n cond pre stmt x st cv st1 st2 v st3 Hcond Hpre Hw)
      as [E3 V3].
    split; [exact E3 | split].
    + intros Hv. apply lookupVar_writeVar. apply V3. exact Hv.
    + intros m Hm. split; [| split].
      * exact (while_turn_at n cond pre stmt post x st cv st1 st2 v st3 m
                 Hcond Hcv Hpre Hw Hm).
      * apply evaluateStatement_env.
      * intros Hv.
        exact (proj2 (while_turn_after n cond pre stmt post x st cv st1 st2 v st3 m
                        Hcond Hcv Hpre Hw Hm Hv)).
  - intros m stmt st a scope x Ha Hx.
    exact (binding_kept _ (evaluateStatement m stmt) a x st scope
             (evaluateStatement_allKept m stmt) Ha Hx).
  - intros m stmts st. destruct (block_untouched m stmts st) as (E & L & H).
    split; [exact E | split; [exact H |]].
    intros Hop Hv y. apply lookupVar_untouched; assumption.
  - intros pre x init st st2 v st3 Hi Hv Hpre Hinit.
    destruct (block_write_stays_in_child n pre x init st st2 v st3 Hi Hv)
      as (_ & H1 & H2 & H3 & H4); try assumption.
    { eapply completes_more_fuel; [| exact Hpre]. lia. }
    repeat (split; [assumption |]).
    intros [| m] Hm; [lia |].
    apply (block_write_stays_in_child m pre x init st st2 v st3 Hi Hv).
    + eapply completes_more_fuel; [| exact Hpre]. lia.
    + eapply evaluateExpression_Ok_more_fuel; [| exact Hinit]. lia.
  - intros pre stmt post x st st2 v st3 Hv Hpre Hw.
    exact (block_write_at n pre stmt post x st st2 v st3 Hv Hpre Hw).
  - intros cond consequence alt st cv st1 Hcond Hcv m Hm.
    change (evaluateIfStatement (evaluateStatement m) (evaluateExpression m)
              cond consequence alt st
            = evaluateBlockStatement (evaluateStatement m) consequence st1).
    unfold evaluateIfStatement, bind.
    rewrite (evaluateExpression_Ok_more_fuel n m cond st cv st1) by (lia || assumption).
    rewrite Hcv. reflexivity.
  - intros m cond consequence alt st a Ha. apply if_untouched. exact Ha.
  - intros. apply forInElements_cons.
  - intros m ident body elements st.
    destruct (forInElements_untouched m ident body elements st) as (E & _ & H & Hs).
    split; [exact E | split; [exact H | exact Hs]].
Qed.

(** In the first turn of [while (i < 2) { x = x + 10; i = i + 1 }] from
    [x = 0] and [i = 0], the statement [i = i + 1] and the next turn are
    evaluated from the state in which [x] is 10; after the loop [x] is
    bound.  And [if (true) { x = 5 }] from the same state leaves the
    environment in which [x] is 0 as it was. *)
Lemma while_body_in_enclosing_scope_witness :
  let cond := InfixExpression (Identifier "i") "<" (int 2) in
  let writeX :=
    ExpressionStatement
      (InfixExpression (Identifier "x") "=" (InfixExpression (Identifier "x") "+" (int 10))) in
  let writeI :=
    ExpressionStatement
      (InfixExpression (Identifier "i") "=" (InfixExpression (Identifier "i") "+" (int 1))) in
  let loop := WhileStatement cond [writeX; writeI] in
  let nested :=
    IfStatement (BooleanLiteral true)
      [ExpressionStatement (InfixExpression (Identifier "x") "=" (int 5))] None in
  let st := writeVar "i" (VInteger 0) (writeVar "x" (VInteger 0) (NewEvaluator [])) in
  evaluateStatement (lib := plainLib) 5 loop st
  = bind (whileBody (evaluateStatement (lib := plainLib) 4) [writeI])
      (fun broken : bool =>
         if broken then ret VNull else evaluateStatement (lib := plainLib) 4 loop)
      (writeVar "x" (VInteger 10) st) /\
  env (writeVar "x" (VInteger 10) st) = env st /\
  lookupVar "x" (writeVar "x" (VInteger 10) st) = Some (VInteger 10) /\
  is_Some (lookupVar "x" (evaluateStatement (lib := plainLib) 5 loop st).2) /\
  envs (evaluateStatement (lib := plainLib) 3 nested st).2 !! 0
  = envs (evaluateExpression (lib := plainLib) 2 (BooleanLiteral true) st).2 !! 0.
Proof.
  intros cond writeX writeI loop nested st.
  pose proof (while_body_in_enclosing_scope (lib := plainLib) 2)
    as (_ & Hturn & _ & _ & _ & _ & _ & Hif & _).
  destruct (Hturn cond [] writeX [writeI] "x" st (VBoolean true) st st (VInteger 10) st)
    as (H1 & H2 & H3).
  - vm_compute. reflexivity.
  - reflexivity.
  - constructor.
  - apply (writes_assign (lib := plainLib) 2 "x"
             (InfixExpression (Identifier "x") "+" (int 10)) st (VInteger 10) st (VInteger 0)).
    + discriminate.
    + vm_compute. reflexivity.
    + vm_compute. reflexivity.
    + reflexivity.
  - destruct (H3 4 ltac:(lia)) as (H4 & _ & H5).
    split; [exact H4 |]. split; [exact H1 |].
    split; [apply H2; vm_compute; lia |].
    split; [apply (proj2 (H5 ltac:(vm_compute; lia))) |].
    apply (Hif 2 (BooleanLiteral true)
             [ExpressionStatement (InfixExpression (Identifier "x") "=" (int 5))] None st 0).
    vm_compute. lia.
Defined.

(** The whole program [var x = 0; var i = 0;
    while (i < 2) { x = x + 10; i = i + 1 }] ends with [x] equal to 20 and
    [i] equal to 2 in the scope of the loop, and allocates no environment. *)
Example midWrite_runs :
  (programStatements (lib := plainLib) 8 midWrite (NewEvaluator [])).1 = Ok tt /\
  lookupVar "x" (programStatements (lib := plainLib) 8 midWrite (NewEvaluator [])).2
  = Some (VInteger 20) /\
  lookupVar "i" (programStatements (lib := plainLib) 8 midWrite (NewEvaluator [])).2
  = Some (VInteger 2) /\
  length (envs (programStatements (lib := plainLib) 8 midWrite (NewEvaluator [])).2) = 1.
Proof. vm_compute. repeat split; reflexivity. Qed.

(** The whole program [var x = 0; var i = 0;
    while (i < 1) { if (true) { x = 5 } i = i + 1 }] ends with [x] still 0 in
    the scope of the loop: the 5 is in the environment of the block, which
    nothing refers to any more. *)
Example nestedWrite_runs :
  (programStatements (lib := plainLib) 8 nestedWrite (NewEvaluator [])).1 = Ok tt /\
  lookupVar "x" (programStatements (lib := plainLib) 8 nestedWrite (NewEvaluator [])).2
  = Some (VInteger 0) /\
  lookupVar "i" (programStatements (lib := plainLib) 8 nestedWrite (NewEvaluator [])).2
  = Some (VInteger 1) /\
  (exists scope,
     envs (programStatements (lib := plainLib) 8 nestedWrite (NewEvaluator [])).2 !! 1
     = Some scope /\
     variables scope !! "x" = Some (VInteger 5) /\ parent scope = Some 0).
Proof.
  vm_compute. split; [reflexivity | split; [reflexivity | split; [reflexivity |]]].
  eexists. split; [reflexivity | split; reflexivity].
Qed.
